(** * mimmers-core: batch scheduler and keyed list comparator

    A shallow embedding of [src/types/pagination.ts] and
    [src/utils/arrayUtils.ts].

    Conventions of the embedding.
    - Counts, sizes, offsets and loop indices are JavaScript numbers that hold
      integers; they are modelled as [Z] (exact below 2^53).  Where the code
      can produce a non-finite number ([Math.ceil (totalCount / pageSize)]
      with [pageSize = 0]) the model keeps the non-finite cases explicit.
    - Arrays are lists; [Array.prototype.slice] is modelled with its clamping
      of negative and out-of-range bounds.
    - A [for] loop whose step is a run-time value may not terminate; such loops
      take a [fuel] argument and answer [None] when it runs out.
    - Promises are modelled by the instant at which they settle and by the
      reaction that runs at that instant; [Promise.all] replays the reactions
      in settle order.  The instants only order the settlements of a wave.
    - A function supplied by the caller is given by what each of its
      invocations does: throw, or return a promise that fulfils, rejects or
      never settles.  Every invocation is logged, so that statements can
      speak of the calls made.
    - Values handled by the comparator and by the schema are JavaScript
      values; a finite number is a rational there. *)

From Stdlib Require Import ZArith QArith Lia Permutation.
From stdpp Require Import base list sorting gmap strings.

Local Open Scope nat_scope.

(** ** JavaScript array primitives *)

Module Js.

(** [array.slice(start, end)] for integer bounds: a negative bound counts
    from the end, every bound is clamped to [0 .. length]. *)
Definition slice {A : Type} (l : list A) (start stop : Z) : list A :=
  let len := Z.of_nat (length l) in
  let k := if (start <? 0)%Z then Z.max (len + start) 0 else Z.min start len in
  let final := if (stop <? 0)%Z then Z.max (len + stop) 0 else Z.min stop len in
  take (Z.to_nat (final - k)) (drop (Z.to_nat k) l).

(** Numbers that a division of two integers can produce and that the code
    then rounds: an integer, or one of the non-finite values. *)
Inductive Num : Type := Fin (z : Z) | PosInf | NegInf | NaN.

(** [a / b] for integers [a], [b], given the rounded quotient to use when
    [b] is not zero. *)
Definition divided (rounded a b : Z) : Num :=
  if (b =? 0)%Z then
    if (a =? 0)%Z then NaN else if (0 <? a)%Z then PosInf else NegInf
  else Fin rounded.

(** [Math.ceil(a / b)] and [Math.floor(a / b)]. *)
Definition ceil_div (a b : Z) : Num := divided (- ((- a) / b))%Z a b.
Definition floor_div (a b : Z) : Num := divided (a / b)%Z a b.

(** [i < n] and [Math.min(a, n)] and [n + 1] for a finite left operand. *)
Definition ltb (i : Z) (n : Num) : bool :=
  match n with
  | Fin z => (i <? z)%Z
  | PosInf => true
  | NegInf | NaN => false
  end.

Definition min (a : Z) (n : Num) : Num :=
  match n with
  | Fin z => Fin (Z.min a z)
  | PosInf => Fin a
  | NegInf => NegInf
  | NaN => NaN
  end.

Definition succ (n : Num) : Num :=
  match n with
  | Fin z => Fin (z + 1)
  | other => other
  end.

End Js.

(** ** chunkArray *)

(** The loop [for (let i = 0; i < array.length; i += chunkSize)] with the
    accumulator [chunks]. *)
Fixpoint chunkArray_loop {T : Type} (fuel : nat) (array : list T)
    (chunkSize i : Z) (chunks : list (list T)) : option (list (list T)) :=
  match fuel with
  | O => None
  | S fuel' =>
      if (i <? Z.of_nat (length array))%Z
      then chunkArray_loop fuel' array chunkSize (i + chunkSize)
             (chunks ++ [Js.slice array i (i + chunkSize)])
      else Some chunks
  end.

Definition chunkArray {T : Type} (fuel : nat) (array : list T) (chunkSize : Z)
  : option (list (list T)) :=
  chunkArray_loop fuel array chunkSize 0 [].

(** Number of chunks for a positive chunk size: [ceil (len / chunkSize)]. *)
Definition chunkCount (len : nat) (chunkSize : Z) : Z :=
  ((Z.of_nat len + chunkSize - 1) / chunkSize)%Z.

(** Closed form of the chunk sequence (used only in statements). *)
Definition chunksOf {T : Type} (array : list T) (chunkSize : Z) : list (list T) :=
  (λ j, Js.slice array (j * chunkSize) ((j + 1) * chunkSize))%Z
    <$> seqZ 0 (chunkCount (length array) chunkSize).

(** ** Promises, callbacks and [Promise.all] *)

Section Async.
Context {W E : Type}.
(** [W] is the state observable by callbacks (invocation logs, the
    [recordsProcessed] counter); [E] is the type of thrown values. *)

Inductive Settled (A : Type) : Type :=
| Fulfilled (a : A)
| Rejected (e : E).

(** A promise settles at some instant, where its reaction (the code waiting
    on it, which may touch [W]) runs and yields the settled state; or it
    never settles. *)
Inductive Promise (A : Type) : Type :=
| SettlesAt (t : nat) (react : W → W * Settled A)
| Forever.

(** Completion of synchronous code. *)
Inductive Completion (A : Type) : Type :=
| Normal (a : A)
| Throw (e : E).

(** What an [async] function call amounts to for its caller. *)
Inductive Outcome (A : Type) : Type :=
| Resolves (a : A)
| Rejects (e : E)
| NeverSettles.

Global Arguments Fulfilled {A} a.
Global Arguments Rejected {A} e.
Global Arguments SettlesAt {A} t react.
Global Arguments Forever {A}.
Global Arguments Normal {A} a.
Global Arguments Throw {A} e.
Global Arguments Resolves {A} a.
Global Arguments Rejects {A} e.
Global Arguments NeverSettles {A}.

(** A function value of type [(arg) => Promise<A>]: calling it runs
    synchronous code and hands back a promise, or throws. *)
Definition Callback (Arg A : Type) : Type :=
  Arg → W → W * Completion (Promise A).

(** One pending settlement: instant, position in the array given to
    [Promise.all], reaction. *)
Definition Entry (A : Type) : Type := (nat * nat * (W → W * Settled A))%type.

Fixpoint timed {A} (i : nat) (ps : list (Promise A)) : list (Entry A) :=
  match ps with
  | [] => []
  | SettlesAt t react :: ps' => (t, i, react) :: timed (S i) ps'
  | Forever :: ps' => timed (S i) ps'
  end.

(** Earlier instants first; at equal instants the lower position first. *)
Fixpoint insertByTime {X} (x : nat * nat * X) (l : list (nat * nat * X))
  : list (nat * nat * X) :=
  match l with
  | [] => [x]
  | y :: l' =>
      if x.1.1 <=? y.1.1 then x :: y :: l' else y :: insertByTime x l'
  end.

Definition settleOrder {A} (ps : list (Promise A)) : list (Entry A) :=
  foldr insertByTime [] (timed 0 ps).

(** Replays the settlements in order, filling the [values] array of
    [Promise.all]; the first rejection rejects the combined promise and ends
    the replay: the state returned is the state at that rejection.  The
    reactions that the code still runs for the other promises, be it before
    the awaiting call resumes or later, are not part of the run; what is
    stated of a rejected run (the calls made, the first report) is not
    changed by them. *)
Fixpoint settleAll {A} (order : list (Entry A)) (values : list (option A))
    (w : W) : W * (E + list (option A)) :=
  match order with
  | [] => (w, inr values)
  | (_, i, react) :: rest =>
      match react w with
      | (w', Fulfilled a) => settleAll rest (<[i := Some a]> values) w'
      | (w', Rejected e) => (w', inl e)
      end
  end.

(** [await Promise.all(promises)] *)
Definition PromiseAll {A} (promises : list (Promise A)) (w : W)
  : W * Outcome (list A) :=
  match settleAll (settleOrder promises) (replicate (length promises) None) w with
  | (w', inl e) => (w', Rejects e)
  | (w', inr values) =>
      match mapM id values with
      | Some results => (w', Resolves results)
      | None => (w', NeverSettles)
      end
  end.

(** [args.map(arg => callback(arg))]: a throwing call ends the map. *)
Fixpoint startAll {Arg A} (callback : Callback Arg A) (args : list Arg) (w : W)
  : W * Completion (list (Promise A)) :=
  match args with
  | [] => (w, Normal [])
  | arg :: rest =>
      match callback arg w with
      | (w1, Throw e) => (w1, Throw e)
      | (w1, Normal p) =>
          match startAll callback rest w1 with
          | (w2, Throw e) => (w2, Throw e)
          | (w2, Normal ps) => (w2, Normal (p :: ps))
          end
      end
  end.

(** *** User-supplied asynchronous functions

    The caller's function is described by what its [n]-th invocation
    (counting from 0) does with its argument. *)
Inductive Reply (A : Type) : Type :=
| ThrowsSync (e : E)                (* throws instead of returning a promise *)
| Settles (t : nat) (r : Settled A) (* its promise settles at instant [t] *)
| Hangs.                            (* its promise never settles *)

Global Arguments ThrowsSync {A} e.
Global Arguments Settles {A} t r.
Global Arguments Hangs {A}.

Definition AsyncFn (Arg A : Type) : Type := nat → Arg → Reply A.

(** The callback that runs a user function and logs the invocation;
    [calls] reads the log out of the state and [record] appends to it. *)
Definition observe {Arg A} (calls : W → list Arg) (record : Arg → W → W)
    (fn : AsyncFn Arg A) : Callback Arg A :=
  λ arg w,
    let n := length (calls w) in
    (record arg w,
     match fn n arg with
     | ThrowsSync e => Throw e
     | Settles t r => Normal (SettlesAt t (λ w', (w', r)))
     | Hangs => Normal Forever
     end).

(** A reply is a failure when the call throws or its promise rejects. *)
Definition failsWith {A} (reply : Reply A) (e : E) : Prop :=
  reply = ThrowsSync e ∨ ∃ t, reply = Settles t (Rejected e).

End Async.

(** ** The batch scheduler *)

Section Scheduler.
Context {W E : Type}.

(** The loop [for (let i = 0; i < chunks.length; i += maxConcurrency)]. *)
Fixpoint processChunks_loop {T R} (fuel : nat) (chunks : list (list T))
    (processChunk : Callback (W:=W) (E:=E) (list T) R)
    (maxConcurrency i : Z) (results : list R) (w : W)
  : W * option (Outcome (E:=E) (list R)) :=
  match fuel with
  | O => (w, None)
  | S fuel' =>
      if (i <? Z.of_nat (length chunks))%Z then
        let batch := Js.slice chunks i (i + maxConcurrency) in
        match startAll processChunk batch w with
        | (w1, Throw e) => (w1, Some (Rejects e))
        | (w1, Normal promises) =>
            match PromiseAll promises w1 with
            | (w2, Resolves batchResults) =>
                processChunks_loop fuel' chunks processChunk maxConcurrency
                  (i + maxConcurrency) (results ++ batchResults) w2
            | (w2, Rejects e) => (w2, Some (Rejects e))
            | (w2, NeverSettles) => (w2, Some NeverSettles)
            end
        end
      else (w, Some (Resolves results))
  end.

Definition processChunksInParallel {T R} (fuel : nat) (items : list T)
    (chunkSize : Z) (processChunk : Callback (W:=W) (E:=E) (list T) R)
    (maxConcurrency : Z) (w : W)
  : W * option (Outcome (E:=E) (list R)) :=
  match chunkArray fuel items chunkSize with
  | None => (w, None)
  | Some chunks =>
      processChunks_loop fuel chunks processChunk maxConcurrency 0 [] w
  end.

(** [results.reduce((total, result) => total + result, 0)] after the await. *)
Definition processChunksInParallelWithSum {T} (fuel : nat) (items : list T)
    (chunkSize : Z) (processChunk : Callback (W:=W) (E:=E) (list T) Z)
    (maxConcurrency : Z) (w : W)
  : W * option (Outcome (E:=E) Z) :=
  match processChunksInParallel fuel items chunkSize processChunk maxConcurrency w with
  | (w', Some (Resolves results)) =>
      (w', Some (Resolves (foldl (λ total result, total + result)%Z 0%Z results)))
  | (w', Some (Rejects e)) => (w', Some (Rejects e))
  | (w', Some NeverSettles) => (w', Some NeverSettles)
  | (w', None) => (w', None)
  end.

(** The inner loop
    [for (let pageIndex = batchStart; pageIndex < batchEnd; pageIndex++)]. *)
Fixpoint startPages {T} (fuel : nat) (totalCount pageSize : Z)
    (readPage : Callback (W:=W) (E:=E) (Z * Z) (list T))
    (pageIndex : Z) (batchEnd : Js.Num)
    (batchPromises : list (Promise (W:=W) (E:=E) (list T))) (w : W)
  : W * option (Completion (E:=E) (list (Promise (W:=W) (E:=E) (list T)))) :=
  match fuel with
  | O => (w, None)
  | S fuel' =>
      if Js.ltb pageIndex batchEnd then
        let offset := (pageIndex * pageSize)%Z in
        let limit := Z.min pageSize (totalCount - offset) in
        match readPage (offset, limit) w with
        | (w1, Throw e) => (w1, Some (Throw e))
        | (w1, Normal p) =>
            startPages fuel' totalCount pageSize readPage (pageIndex + 1)
              batchEnd (batchPromises ++ [p]) w1
        end
      else (w, Some (Normal batchPromises))
  end.

(** The loop [for (let i = 0; i < totalPages; i += maxConcurrency)]. *)
Fixpoint processPaginated_loop {T} (fuel : nat) (totalCount pageSize : Z)
    (readPage : Callback (W:=W) (E:=E) (Z * Z) (list T))
    (maxConcurrency : Z) (totalPages : Js.Num) (i : Z)
    (allResults : list T) (w : W)
  : W * option (Outcome (E:=E) (list T)) :=
  match fuel with
  | O => (w, None)
  | S fuel' =>
      if Js.ltb i totalPages then
        let batchStart := i in
        let batchEnd := Js.min (i + maxConcurrency) totalPages in
        match startPages fuel totalCount pageSize readPage batchStart batchEnd [] w with
        | (w1, None) => (w1, None)
        | (w1, Some (Throw e)) => (w1, Some (Rejects e))
        | (w1, Some (Normal batchPromises)) =>
            match PromiseAll batchPromises w1 with
            | (w2, Resolves batchResults) =>
                processPaginated_loop fuel' totalCount pageSize readPage
                  maxConcurrency totalPages (i + maxConcurrency)
                  (allResults ++ concat batchResults) w2
            | (w2, Rejects e) => (w2, Some (Rejects e))
            | (w2, NeverSettles) => (w2, Some NeverSettles)
            end
        end
      else (w, Some (Resolves allResults))
  end.

Definition processPaginatedInParallel {T} (fuel : nat) (totalCount pageSize : Z)
    (readPage : Callback (W:=W) (E:=E) (Z * Z) (list T))
    (maxConcurrency : Z) (w : W)
  : W * option (Outcome (E:=E) (list T)) :=
  let totalPages := Js.ceil_div totalCount pageSize in
  processPaginated_loop fuel totalCount pageSize readPage maxConcurrency
    totalPages 0 [] w.

End Scheduler.

(** ** Progress tracking *)

Section Progress.
Context {W E : Type}.

(** The arguments [onProgress] receives. *)
Definition ProgressArgs : Type := (Js.Num * Js.Num * Z)%type.

(** A synchronous callback returning nothing. *)
Definition VoidCallback (Arg : Type) : Type := Arg → W → W * Completion (E:=E) unit.

(** The closure [readPageWithProgress].  Its captured variable
    [recordsProcessed] is the second component of the state.  Being an
    [async] function it never throws: a throw of [readPage] makes it return
    a promise that is rejected already, before any awaited promise settles
    (instant 0); otherwise its promise settles after the promise of
    [readPage] that it awaits (instant [t] there, [S t] here), which keeps
    the order in which the awaited promises settle. *)
Definition readPageWithProgress {T} (pageSize : Z) (totalPages : Js.Num)
    (readPage : Callback (W:=W) (E:=E) (Z * Z) (list T))
    (onProgress : option (VoidCallback ProgressArgs))
  : Callback (W:=W * Z) (E:=E) (Z * Z) (list T) :=
  λ '(offset, limit) '(w, recordsProcessed),
    match readPage (offset, limit) w with
    | (w1, Throw e) =>
        ((w1, recordsProcessed), Normal (SettlesAt 0 (λ s, (s, Rejected e))))
    | (w1, Normal Forever) => ((w1, recordsProcessed), Normal Forever)
    | (w1, Normal (SettlesAt t react)) =>
        ((w1, recordsProcessed),
         Normal (SettlesAt (S t) (λ '(w, recordsProcessed),
           match react w with
           | (w2, Rejected e) => ((w2, recordsProcessed), Rejected e)
           | (w2, Fulfilled result) =>
               let recordsProcessed :=
                 (recordsProcessed + Z.of_nat (length result))%Z in
               let currentPage := Js.succ (Js.floor_div offset pageSize) in
               match onProgress with
               | Some progress =>
                   match progress (currentPage, totalPages, recordsProcessed) w2 with
                   | (w3, Throw e) => ((w3, recordsProcessed), Rejected e)
                   | (w3, Normal _) => ((w3, recordsProcessed), Fulfilled result)
                   end
               | None => ((w2, recordsProcessed), Fulfilled result)
               end
           end)))
    end.

(** Returns, next to the outcome, the state and the last value of
    [recordsProcessed]. *)
Definition processPaginatedWithProgress {T} (fuel : nat) (totalCount pageSize : Z)
    (readPage : Callback (W:=W) (E:=E) (Z * Z) (list T))
    (maxConcurrency : Z) (onProgress : option (VoidCallback ProgressArgs))
    (w : W)
  : (W * Z) * option (Outcome (E:=E) (list T)) :=
  let totalPages := Js.ceil_div totalCount pageSize in
  let recordsProcessed := 0%Z in
  processPaginatedInParallel fuel totalCount pageSize
    (readPageWithProgress pageSize totalPages readPage onProgress)
    maxConcurrency (w, recordsProcessed).

(** A user-supplied [onProgress]: its [n]-th invocation returns ([None]) or
    throws; the callback logs the invocation. *)
Definition SyncFn (Arg : Type) : Type := nat → Arg → option E.

Definition observeSync {Arg} (calls : W → list Arg) (record : Arg → W → W)
    (fn : SyncFn Arg) : VoidCallback Arg :=
  λ arg w,
    let n := length (calls w) in
    (record arg w,
     match fn n arg with
     | Some e => Throw e
     | None => Normal tt
     end).

End Progress.

(** ** Calls as a client makes them

    The client's functions are given by their replies; the state is the log
    of the invocations they received, empty at the start. *)

Definition appendCall {Arg} (arg : Arg) (log : list Arg) : list Arg := log ++ [arg].

Module Client.
Section Client.
Context {E : Type}.

Definition processChunksInParallel {T R} (fuel : nat) (items : list T)
    (chunkSize : Z) (processChunk : AsyncFn (E:=E) (list T) R)
    (maxConcurrency : Z)
  : list (list T) * option (Outcome (E:=E) (list R)) :=
  processChunksInParallel fuel items chunkSize
    (observe id appendCall processChunk) maxConcurrency [].

Definition processChunksInParallelWithSum {T} (fuel : nat) (items : list T)
    (chunkSize : Z) (processChunk : AsyncFn (E:=E) (list T) Z)
    (maxConcurrency : Z)
  : list (list T) * option (Outcome (E:=E) Z) :=
  processChunksInParallelWithSum fuel items chunkSize
    (observe id appendCall processChunk) maxConcurrency [].

Definition processPaginatedInParallel {T} (fuel : nat) (totalCount pageSize : Z)
    (readPage : AsyncFn (E:=E) (Z * Z) (list T)) (maxConcurrency : Z)
  : list (Z * Z) * option (Outcome (E:=E) (list T)) :=
  processPaginatedInParallel fuel totalCount pageSize
    (observe id appendCall readPage) maxConcurrency [].

(** Log of a progress run: the [readPage] and the [onProgress] calls. *)
Record PagerLog : Type := mkPagerLog {
  reads : list (Z * Z);
  reports : list ProgressArgs
}.

Definition recordRead (arg : Z * Z) (log : PagerLog) : PagerLog :=
  {| reads := reads log ++ [arg]; reports := reports log |}.
Definition recordReport (arg : ProgressArgs) (log : PagerLog) : PagerLog :=
  {| reads := reads log; reports := reports log ++ [arg] |}.

Definition processPaginatedWithProgress {T} (fuel : nat) (totalCount pageSize : Z)
    (readPage : AsyncFn (E:=E) (Z * Z) (list T)) (maxConcurrency : Z)
    (onProgress : option (SyncFn (E:=E) ProgressArgs))
  : (PagerLog * Z) * option (Outcome (E:=E) (list T)) :=
  processPaginatedWithProgress fuel totalCount pageSize
    (observe reads recordRead readPage) maxConcurrency
    (observeSync reports recordReport <$> onProgress)
    {| reads := []; reports := [] |}.

End Client.
End Client.

(** ** JavaScript values *)

(** A number value: a finite double is a rational number, and the model
    admits every rational; the three other values are kept apart. *)
Inductive JsNumber : Type :=
| Finite (q : Q)
| PlusInfinity
| MinusInfinity
| NotANumber.

#[warnings="-register-all"] Inductive JsValue : Type :=
| JsUndefined
| JsNull
| JsBool (b : bool)
| JsNum (n : JsNumber)
| JsStr (s : string)
| JsArray (elements : list JsValue)
| JsObject (properties : list (string * JsValue)).

(** [ToBoolean]: the test of [if (value)]. *)
Definition ToBoolean (value : JsValue) : bool :=
  match value with
  | JsUndefined | JsNull => false
  | JsBool b => b
  | JsNum (Finite q) => negb (Qeq_bool q 0)
  | JsNum NotANumber => false
  | JsNum _ => true
  | JsStr EmptyString => false
  | JsStr _ => true
  | JsArray _ | JsObject _ => true
  end.

(** [object[name]]: [undefined] when the property is missing. *)
Fixpoint getProperty (properties : list (string * JsValue)) (name : string) : JsValue :=
  match properties with
  | [] => JsUndefined
  | (key, value) :: rest =>
      if String.eqb key name then value else getProperty rest name
  end.

(** ** compareListsByKey *)

(** What a key selector returns: [string | number]. *)
Inductive Key : Type :=
| KeyString (s : string)
| KeyNumber (n : JsNumber).

Section Comparator.
(** [Number::toString], the decimal rendering of a number, is not
    reproduced: the comparator only compares its results. *)
Variable NumberToString : JsNumber → string.

(** [String(key)] *)
Definition String (key : Key) : string :=
  match key with
  | KeyString s => s
  | KeyNumber n => NumberToString n
  end.

(** [new Map(sourceList.map(item => [String(sourceKeySelector(item)), item]))]:
    the entries are set in order, a later one replacing an earlier one with
    the same key. *)
Definition buildSourceMap (sourceList : list JsValue)
    (sourceKeySelector : JsValue → Key) : gmap string JsValue :=
  foldl (λ sourceMap item, <[String (sourceKeySelector item) := item]> sourceMap)
    ∅ sourceList.

(** [sourceMap.get(key)]: [undefined] when there is no entry. *)
Definition mapGet (sourceMap : gmap string JsValue) (key : string) : JsValue :=
  default JsUndefined (sourceMap !! key).

(** One iteration of [for (const targetItem of targetList)]. *)
Definition compareStep (sourceMap : gmap string JsValue)
    (targetKeySelector : JsValue → Key)
    (transformFound : option (JsValue → JsValue → JsValue))
    (acc : list JsValue * list JsValue) (targetItem : JsValue)
  : list JsValue * list JsValue :=
  let '(found, notFound) := acc in
  let sourceItem := mapGet sourceMap (String (targetKeySelector targetItem)) in
  if ToBoolean sourceItem then
    match transformFound with
    | Some transform => (found ++ [transform sourceItem targetItem], notFound)
    | None => (found ++ [sourceItem], notFound)
    end
  else (found, notFound ++ [targetItem]).

(** Returns [(found, notFound)]. *)
Definition compareListsByKey (sourceList targetList : list JsValue)
    (sourceKeySelector targetKeySelector : JsValue → Key)
    (transformFound : option (JsValue → JsValue → JsValue))
  : list JsValue * list JsValue :=
  let sourceMap := buildSourceMap sourceList sourceKeySelector in
  foldl (compareStep sourceMap targetKeySelector transformFound) ([], []) targetList.

End Comparator.

(** ** PaginationRequestSchema

    The schema is built with the library zod; the part of the library it uses
    is modelled here: number schemas with bounds and a default, and object
    schemas of such fields. *)

Module z.

Inductive Check : Type :=
| Minimum (bound : Z)   (* [.min(bound)], inclusive *)
| Maximum (bound : Z).  (* [.max(bound)], inclusive *)

Record NumberSchema : Type := mkNumberSchema {
  checks : list Check;
  defaultValue : option JsNumber
}.

Definition number : NumberSchema := {| checks := []; defaultValue := None |}.
Definition min (bound : Z) (schema : NumberSchema) : NumberSchema :=
  {| checks := checks schema ++ [Minimum bound]; defaultValue := defaultValue schema |}.
Definition max (bound : Z) (schema : NumberSchema) : NumberSchema :=
  {| checks := checks schema ++ [Maximum bound]; defaultValue := defaultValue schema |}.
Definition default (value : Z) (schema : NumberSchema) : NumberSchema :=
  {| checks := checks schema; defaultValue := Some (Finite (inject_Z value)) |}.

Definition ObjectSchema : Type := list (string * NumberSchema).
Definition object (shape : list (string * NumberSchema)) : ObjectSchema := shape.

Inductive IssueCode : Type :=
| invalid_type (expected : string)
| too_small (minimum : Z)
| too_big (maximum : Z).

Record Issue : Type := mkIssue {
  code : IssueCode;
  path : list string
}.

Definition runCheck (path : list string) (q : Q) (check : Check) : option Issue :=
  match check with
  | Minimum bound =>
      if Qle_bool (inject_Z bound) q then None
      else Some {| code := too_small bound; path := path |}
  | Maximum bound =>
      if Qle_bool q (inject_Z bound) then None
      else Some {| code := too_big bound; path := path |}
  end.

(** Parsing one value with a number schema: [undefined] takes the default
    when there is one; a number must be finite and pass every check. *)
Definition parseNumber (schema : NumberSchema) (path : list string) (input : JsValue)
  : JsNumber + list Issue :=
  match input, defaultValue schema with
  | JsUndefined, Some value => inl value
  | JsNum (Finite q), _ =>
      match omap (runCheck path q) (checks schema) with
      | [] => inl (Finite q)
      | issues => inr issues
      end
  | _, _ => inr [{| code := invalid_type "number"; path := path |}]
  end.

(** Parsing the properties named by the shape, in order; the issues of
    all of them are collected. *)
Fixpoint parseShape (shape : list (string * NumberSchema))
    (properties : list (string * JsValue))
  : list (string * JsNumber) * list Issue :=
  match shape with
  | [] => ([], [])
  | (name, schema) :: rest =>
      let '(output, issues) := parseShape rest properties in
      match parseNumber schema [name] (getProperty properties name) with
      | inl value => ((name, value) :: output, issues)
      | inr failed => (output, failed ++ issues)
      end
  end.

(** [schema.safeParse(input)] *)
Definition safeParse (schema : ObjectSchema) (input : JsValue)
  : list (string * JsNumber) + list Issue :=
  match input with
  | JsObject properties =>
      match parseShape schema properties with
      | (output, []) => inl output
      | (_, issues) => inr issues
      end
  | _ => inr [{| code := invalid_type "object"; path := [] |}]
  end.

End z.

Definition PaginationRequestSchema : z.ObjectSchema :=
  z.object [
    ("page", z.default 0 (z.min 0 z.number));
    ("size", z.default 10 (z.max 100 (z.min 1 z.number)))
  ].

(** ** Auxiliary definitions used in statements and proofs *)

Definition entryIndex {X} (x : nat * nat * X) : nat := x.1.2.
Definition entryTime {X} (x : nat * nat * X) : nat := x.1.1.

(** The [values] array of [Promise.all] after the promises at positions
    [idxs] have fulfilled with the values [V]. *)
Definition fill {A} (V : nat → A) (values : list (option A)) (idxs : list nat)
  : list (option A) :=
  foldl (λ vs j, <[j := Some (V j)]> vs) values idxs.

Section Auxiliary.
Context {W E : Type}.

Definition promiseOfReply {A} (reply : Reply (E:=E) A) : Promise (W:=W) (E:=E) A :=
  match reply with
  | Settles t r => SettlesAt t (λ w', (w', r))
  | _ => Forever
  end.

Definition pureEntry {A} (x : nat * nat * Settled (E:=E) A) : Entry (W:=W) (E:=E) A :=
  (x.1, λ w', (w', x.2)).

Fixpoint timedReplies {A} (i : nat) (replies : list (Reply (E:=E) A))
  : list (nat * nat * Settled (E:=E) A) :=
  match replies with
  | [] => []
  | Settles t r :: rest => (t, i, r) :: timedReplies (S i) rest
  | _ :: rest => timedReplies (S i) rest
  end.

Fixpoint settlePure {A} (order : list (nat * nat * Settled (E:=E) A))
    (values : list (option A)) : E + list (option A) :=
  match order with
  | [] => inr values
  | (_, i, Fulfilled a) :: rest => settlePure rest (<[i := Some a]> values)
  | (_, _, Rejected e) :: _ => inl e
  end.

Definition lexBefore {X} (x y : nat * nat * X) : Prop :=
  entryTime x < entryTime y ∨ (entryTime x = entryTime y ∧ entryIndex x < entryIndex y).

Definition awaitAll {Arg A} (callback : Callback (W:=W) (E:=E) Arg A)
    (args : list Arg) (w : W) : W * Outcome (E:=E) (list A) :=
  match startAll callback args w with
  | (w1, Throw e) => (w1, Rejects e)
  | (w1, Normal promises) => PromiseAll promises w1
  end.

Definition failsBefore {A} (r : Reply (E:=E) A) (j : nat) (r' : Reply (E:=E) A) (k : nat)
  : Prop :=
  match r, r' with
  | ThrowsSync _, ThrowsSync _ => j < k
  | ThrowsSync _, Settles _ _ => True
  | Settles t _, Settles t' _ => t < t' ∨ (t = t' ∧ j < k)
  | _, _ => False
  end.

Definition fulfilsWith {A} (reply : Reply (E:=E) A) (a : A) : Prop :=
  ∃ t, reply = Settles t (Fulfilled a).

End Auxiliary.

(** *** Observed calls and the common shape of the wave loops *)

Section ObservedDefs.
Context {W E Arg A : Type}.

(** Replies of consecutive invocations, the first being invocation [n]. *)
Fixpoint repliesFrom (fn : AsyncFn (E:=E) Arg A) (n : nat) (args : list Arg)
  : list (Reply (E:=E) A) :=
  match args with
  | [] => []
  | arg :: rest => fn n arg :: repliesFrom fn (S n) rest
  end.

Definition recordAll (record : Arg → W → W) (args : list Arg) (w : W) : W :=
  foldl (λ w' arg, record arg w') w args.
End ObservedDefs.

Section WaveLoopDefs.
Context {W E Arg A B : Type}.

(** The common shape of the two wave loops: waves of [c] consecutive
    arguments, each awaited before the next starts; [flat] turns the results
    of a wave into what is appended to the accumulator. *)
Fixpoint waveLoop (flat : list A → list B) (fuel : nat) (args : list Arg)
    (callback : Callback (W:=W) (E:=E) Arg A) (c I : nat) (acc : list B) (w : W)
  : W * option (Outcome (E:=E) (list B)) :=
  match fuel with
  | O => (w, None)
  | S fuel' =>
      if I <? length args then
        match awaitAll callback (take c (drop I args)) w with
        | (w2, Resolves vs) =>
            waveLoop flat fuel' args callback c (I + c) (acc ++ flat vs) w2
        | (w2, Rejects e) => (w2, Some (Rejects e))
        | (w2, NeverSettles) => (w2, Some NeverSettles)
        end
      else (w, Some (Resolves acc))
  end.
End WaveLoopDefs.

(** *** Pages *)

Section LoopShapesDefs.
(** The [(offset, limit)] arguments of pages [first .. last - 1]. *)
Definition pageArgs (totalCount pageSize first last : Z) : list (Z * Z) :=
  (λ pageIndex,
     let offset := (pageIndex * pageSize)%Z in
     (offset, Z.min pageSize (totalCount - offset)))
    <$> seqZ first (last - first).
End LoopShapesDefs.

(** *** Vocabulary of the statements *)

Section StatementDefs.
Context {E : Type}.

(** [items[lo .. hi)] *)
Definition subseq {T} (items : list T) (lo hi : Z) : list T :=
  take (Z.to_nat (hi - lo)) (drop (Z.to_nat lo) items).

(** Every call fulfils, and [results] lists the values in argument order:
    the [i]-th result is the value of the call on the [i]-th argument
    (which is the [i]-th invocation). *)
Definition resultsInOrder {Arg A} (fn : AsyncFn (E:=E) Arg A) (args : list Arg)
    (results : list A) : Prop :=
  length results = length args ∧
  ∀ i arg, args !! i = Some arg →
    ∃ t r, results !! i = Some r ∧ fn i arg = Settles t (Fulfilled r).
End StatementDefs.

Section ClientDefs.
(** [ceil (totalCount / pageSize)] for a positive page size. *)
Definition pageCount (totalCount pageSize : Z) : Z :=
  ((totalCount + pageSize - 1) / pageSize)%Z.
End ClientDefs.

Section FailDefs.
Context {E : Type}.

(** Invocation [k] of the log failed, and no other failed invocation of
    the log failed before it. *)
Definition firstToFail {Arg A} (fn : AsyncFn (E:=E) Arg A) (log : list Arg) (k : nat)
  : Prop :=
  ∃ arg e, log !! k = Some arg ∧ failsWith (fn k arg) e ∧
    ∀ k' arg' e', log !! k' = Some arg' → failsWith (fn k' arg') e' →
                  k' = k ∨ failsBefore (fn k arg) k (fn k' arg') k'.
End FailDefs.

Section SumDefs.
Definition sumZ (numbers : list Z) : Z := foldr Z.add 0%Z numbers.
End SumDefs.

(** *** Progress reports *)

Section ProgressFactsDefs.
(** Number of records of page [p]. *)
Definition pageLength {T} (pageResults : list (list T)) (p : nat) : Z :=
  Z.of_nat (length (default [] (pageResults !! p))).

(** The [onProgress] calls made when the pages complete in the order
    [order], [count] records having been processed before. *)
Fixpoint progressReports {T} (totalPages : Z) (pageResults : list (list T))
    (order : list nat) (count : Z) : list ProgressArgs :=
  match order with
  | [] => []
  | p :: rest =>
      let count' := (count + pageLength pageResults p)%Z in
      (Js.Fin (Z.of_nat p + 1), Js.Fin totalPages, count')
        :: progressReports totalPages pageResults rest count'
  end.

Definition recordsIn {T} (pageResults : list (list T)) (order : list nat) : Z :=
  sumZ (pageLength pageResults <$> order).

(** Effect of the completion of page [p] on the log and the counter. *)
Definition progressStep {T} (totalPages : Z) (pageResults : list (list T))
    (supplied : bool) (p : nat) (s : Client.PagerLog * Z) : Client.PagerLog * Z :=
  let count := (s.2 + pageLength pageResults p)%Z in
  (if supplied
   then Client.recordReport (Js.Fin (Z.of_nat p + 1), Js.Fin totalPages, count) s.1
   else s.1,
   count).
End ProgressFactsDefs.

(** *** Comparator: reference forms and example keys *)

Section ComparatorExampleDefs.
Definition stringKey (value : JsValue) : Key :=
  match value with
  | JsStr s => KeyString s
  | _ => KeyString EmptyString
  end.

(** Rendering for examples in which no key is a number. *)
Definition noNumberKeys (_ : JsNumber) : string := EmptyString.
End ComparatorExampleDefs.

Section ComparatorDefs.
Variable NumberToString : JsNumber → string.

(** The value [found] receives for a matched pair. *)
Definition emitFound (transformFound : option (JsValue → JsValue → JsValue))
    (sourceItem targetItem : JsValue) : JsValue :=
  match transformFound with
  | Some transform => transform sourceItem targetItem
  | None => sourceItem
  end.

(** Last-write-wins lookup: the last item of [sourceList] whose
    string-coerced key is [key]. *)
Definition lastWithKey (sourceList : list JsValue) (sourceKeySelector : JsValue → Key)
    (key : string) : option JsValue :=
  last (filter (λ item, String NumberToString (sourceKeySelector item) = key)
          sourceList).

(** The comparator as the specification words it: a target item is found
    exactly when its key is present in the lookup. *)
Definition compareByKey_specified (sourceList targetList : list JsValue)
    (sourceKeySelector targetKeySelector : JsValue → Key)
    (transformFound : option (JsValue → JsValue → JsValue))
  : list JsValue * list JsValue :=
  let lookup targetItem :=
    lastWithKey sourceList sourceKeySelector
      (String NumberToString (targetKeySelector targetItem)) in
  (omap (λ targetItem,
           (λ sourceItem, emitFound transformFound sourceItem targetItem)
             <$> lookup targetItem) targetList,
   filter (λ targetItem, lookup targetItem = None) targetList).
End ComparatorDefs.

(** *** Schema: validity and issues *)

Section SchemaDefs.
(** The property of the request that a field schema reads. *)
Definition fieldOf (input : JsValue) (name : string) : JsValue :=
  match input with
  | JsObject properties => getProperty properties name
  | _ => JsUndefined
  end.

Definition isObject (input : JsValue) : Prop :=
  ∃ properties, input = JsObject properties.

(** A finite number between the bounds; [integral] adds that it is an
    integer. *)
Definition numberWithin (integral : bool) (lo : Z) (hi : option Z) (value : JsValue)
  : Prop :=
  ∃ q, value = JsNum (Finite q) ∧
       (inject_Z lo <= q)%Q ∧
       (∀ bound, hi = Some bound → (q <= inject_Z bound)%Q) ∧
       (integral = true → ∃ z : Z, (q == inject_Z z)%Q).

(** Validity as the specification words it: integers within the bounds. *)
Definition requestSpecified (input : JsValue) : Prop :=
  isObject input ∧
  (fieldOf input "page" = JsUndefined ∨
   numberWithin true 0 None (fieldOf input "page")) ∧
  (fieldOf input "size" = JsUndefined ∨
   numberWithin true 1 (Some 100%Z) (fieldOf input "size")).

(** Validity as the schema has it: numbers within the bounds. *)
Definition requestAccepted (input : JsValue) : Prop :=
  isObject input ∧
  (fieldOf input "page" = JsUndefined ∨
   numberWithin false 0 None (fieldOf input "page")) ∧
  (fieldOf input "size" = JsUndefined ∨
   numberWithin false 1 (Some 100%Z) (fieldOf input "size")).

(** The number a field schema with a default yields for a value. *)
Definition valueOrDefault (value : JsValue) (defaultValue : Z) (parsed : JsNumber)
  : Prop :=
  match value with
  | JsUndefined => parsed = Finite (inject_Z defaultValue)
  | other => other = JsNum parsed
  end.

Definition fieldOrDefault (input : JsValue) (name : string) (defaultValue : Z)
    (parsed : JsNumber) : Prop :=
  valueOrDefault (fieldOf input name) defaultValue parsed.

(** What the code of an issue says about the value of the field [name]. *)
Definition codeJustified (name : string) (value : JsValue) (code : z.IssueCode) : Prop :=
  match code with
  | z.invalid_type _ =>
      value ≠ JsUndefined ∧ ∀ q, value ≠ JsNum (Finite q)
  | z.too_small minimum =>
      minimum = (if String.eqb name "page" then 0 else 1)%Z ∧
      ∃ q, value = JsNum (Finite q) ∧ (q < inject_Z minimum)%Q
  | z.too_big maximum =>
      name = "size" ∧ maximum = 100%Z ∧
      ∃ q, value = JsNum (Finite q) ∧ (inject_Z maximum < q)%Q
  end.

(** What an issue says about the request: it names a field of an object
    and a constraint that the field violates, or it says that the request
    is no object. *)
Definition issueJustified (input : JsValue) (issue : z.Issue) : Prop :=
  match z.path issue with
  | [] => z.code issue = z.invalid_type "object" ∧ ¬ isObject input
  | [name] =>
      isObject input ∧ (name = "page" ∨ name = "size") ∧
      codeJustified name (fieldOf input name) (z.code issue)
  | _ => False
  end.
End SchemaDefs.

(** *** Example clients *)

Section ExampleDefs.
(** Client functions of the examples.  Errors are strings. *)

(** Fulfils with the sum of the chunk, later calls completing earlier. *)
Definition sumLater : AsyncFn (E:=string) (list Z) Z :=
  λ n chunk, Settles (10 - n) (Fulfilled (sumZ chunk)).

(** The second call rejects at once, the others fulfil later. *)
Definition secondFails : AsyncFn (E:=string) (list Z) Z :=
  λ n chunk,
    match n with
    | 1 => Settles 0 (Rejected "boom"%string)
    | _ => Settles 5 (Fulfilled (sumZ chunk))
    end.

(** [readPage = (offset, limit) => range(offset, offset + limit)], later
    calls completing earlier. *)
Definition readRange : AsyncFn (E:=string) (Z * Z) (list Z) :=
  λ n '(offset, limit), Settles (10 - n) (Fulfilled (seqZ offset limit)).

Definition quietProgress : SyncFn (E:=string) ProgressArgs := λ _ _, None.

Definition neverCalled : AsyncFn (E:=string) (list Z) Z := λ _ _, Hangs.
End ExampleDefs.

Section FurtherExampleDefs.
(** The third call never settles, the others fulfil. *)
Definition thirdHangs : AsyncFn (E:=string) (list Z) Z :=
  λ n chunk,
    match n with
    | 2 => Hangs
    | _ => Settles 1 (Fulfilled (sumZ chunk))
    end.

(** The second read throws, the others fulfil with the range asked for. *)
Definition secondReadThrows : AsyncFn (E:=string) (Z * Z) (list Z) :=
  λ n '(offset, limit),
    match n with
    | 1 => ThrowsSync "offline"%string
    | _ => Settles 3 (Fulfilled (seqZ offset limit))
    end.
End FurtherExampleDefs.

Section DataExampleDefs.
(** A source that serves the slices of [data], later reads completing
    earlier. *)
Definition servesSlices (data : list Z) : AsyncFn (E:=string) (Z * Z) (list Z) :=
  λ n '(offset, limit), Settles (10 - n) (Fulfilled (Js.slice data offset (offset + limit))).
End DataExampleDefs.

Section CountExampleDefs.
(** Fulfils with the number of elements of the chunk. *)
Definition countsChunk : AsyncFn (E:=string) (list Z) Z :=
  λ n chunk, Settles (7 - n) (Fulfilled (Z.of_nat (length chunk))).
End CountExampleDefs.

Section ThrowingProgressExampleDefs.
Definition failingProgress : SyncFn (E:=string) ProgressArgs :=
  λ _ _, Some "display closed"%string.
End ThrowingProgressExampleDefs.

Section KeyedExampleDefs.
(** The key of a record is its [id], a string or a number. *)
Definition idOf (value : JsValue) : Key :=
  match value with
  | JsObject properties =>
      match getProperty properties "id" with
      | JsStr s => KeyString s
      | JsNum n => KeyNumber n
      | _ => KeyString EmptyString
      end
  | _ => KeyString EmptyString
  end.

(** Rendering of the numbers of the examples, 1 and 2. *)
Definition renderOneTwo (n : JsNumber) : string :=
  match n with
  | Finite q => if Qeq_bool q 1 then "1" else if Qeq_bool q 2 then "2" else "n"
  | _ => "NaN"
  end.
End KeyedExampleDefs.

Section WrapperDefs.
Context {E T : Type}.
(** A promise whose reaction leaves the log of reads as it is. *)
Definition keepsReads (p : Promise (W:=Client.PagerLog * Z) (E:=E) (list T)) : Prop :=
  match p with
  | SettlesAt _ react => ∀ s, Client.reads (react s).1.1 = Client.reads s.1
  | Forever => True
  end.
End WrapperDefs.

Section SettlesLikeDefs.
Context {W E A : Type}.

End SettlesLikeDefs.

Section RejectingReadExampleDefs.
End RejectingReadExampleDefs.

Section ThrownReadExampleDefs.
(** The first read returns a promise that is rejected already, the second
    read throws, the others fulfil with the range asked for. *)
Definition rejectedThenThrows : AsyncFn (E:=string) (Z * Z) (list Z) :=
  λ n '(offset, limit),
    match n with
    | 0 => Settles 0 (Rejected "a"%string)
    | 1 => ThrowsSync "b"%string
    | _ => Settles 2 (Fulfilled (seqZ offset limit))
    end.
End ThrownReadExampleDefs.

(** * Properties *)

(** ** Facts about [slice] and [chunkArray] *)

Section ChunkFacts.
Context {T : Type}.
Implicit Types (l array : list T) (cs i j k : Z).

Lemma slice_nonneg l (s e : Z) :
  (0 ≤ s)%Z → (s ≤ e)%Z →
  Js.slice l s e = take (Z.to_nat (e - s)) (drop (Z.to_nat s) l).
Proof.
  intros Hs He. unfold Js.slice.
  destruct (Z.ltb_spec s 0); [lia|]. destruct (Z.ltb_spec e 0); [lia|].
  destruct (Z_le_gt_dec e (Z.of_nat (length l))) as [Hle|Hgt].
  - rewrite !Z.min_l by lia. done.
  - rewrite (Z.min_r e) by lia.
    destruct (Z_le_gt_dec s (Z.of_nat (length l))) as [Hsl|Hsg].
    + rewrite Z.min_l by lia.
      rewrite !take_ge; [done| |]; rewrite length_drop; lia.
    + rewrite Z.min_r by lia.
      rewrite !take_ge; [|rewrite length_drop; lia..].
      rewrite !drop_ge; [done|lia..].
Qed.

Lemma slice_length l (s e : Z) :
  (0 ≤ s)%Z → (s ≤ e)%Z → (e ≤ Z.of_nat (length l))%Z →
  length (Js.slice l s e) = Z.to_nat (e - s).
Proof.
  intros. rewrite slice_nonneg by lia.
  rewrite length_take, length_drop. lia.
Qed.

Lemma chunkCount_spec len cs k :
  (1 ≤ cs)%Z → (0 ≤ k)%Z →
  (k * cs < Z.of_nat len)%Z ↔ (k < chunkCount len cs)%Z.
Proof.
  intros Hcs Hk. unfold chunkCount. split; intros H.
  - assert (k + 1 ≤ (Z.of_nat len + cs - 1) / cs)%Z; [|lia].
    apply Z.div_le_lower_bound; nia.
  - destruct (Z_lt_ge_dec (k * cs) (Z.of_nat len)) as [|Hge]; [done|].
    exfalso.
    assert ((Z.of_nat len + cs - 1) / cs ≤ k)%Z; [|lia].
    apply Z.lt_succ_r. apply Z.div_lt_upper_bound; [lia|]. nia.
Qed.

Lemma chunkCount_nonneg len cs : (1 ≤ cs)%Z → (0 ≤ chunkCount len cs)%Z.
Proof. intros. unfold chunkCount. apply Z.div_pos; lia. Qed.

Lemma chunkCount_le len cs : (1 ≤ cs)%Z → (chunkCount len cs ≤ Z.of_nat len)%Z.
Proof.
  intros H. destruct (Z_le_gt_dec (chunkCount len cs) (Z.of_nat len)); [done|].
  exfalso.
  assert (Hk : (Z.of_nat len < chunkCount len cs)%Z) by lia.
  apply chunkCount_spec in Hk; [nia|lia|lia].
Qed.

(** The loop, started at the [k]-th chunk boundary, appends exactly the
    remaining chunks of the closed form. *)
Lemma chunkArray_loop_closed fuel array cs k acc :
  (1 ≤ cs)%Z → (0 ≤ k)%Z → (k ≤ chunkCount (length array) cs)%Z →
  Z.to_nat (chunkCount (length array) cs - k) < fuel →
  chunkArray_loop fuel array cs (k * cs) acc =
    Some (acc ++ ((λ j, Js.slice array (j * cs) ((j + 1) * cs))%Z
                    <$> seqZ k (chunkCount (length array) cs - k))).
Proof.
  intros Hcs. revert k acc.
  induction fuel as [|fuel IH]; intros k acc Hk Hkn Hfuel; [lia|].
  simpl. destruct (Z.ltb_spec (k * cs) (Z.of_nat (length array))) as [Hlt|Hge].
  - apply chunkCount_spec in Hlt; [|done..].
    replace (k * cs + cs)%Z with ((k + 1) * cs)%Z by lia.
    rewrite IH by lia.
    rewrite (seqZ_cons k) by lia. rewrite fmap_cons.
    rewrite <- app_assoc. simpl.
    replace (Z.succ k) with (k + 1)%Z by lia.
    replace (Z.pred (chunkCount (length array) cs - k))
      with (chunkCount (length array) cs - (k + 1))%Z by lia.
    done.
  - assert (chunkCount (length array) cs = k) as ->.
    { destruct (Z_lt_ge_dec k (chunkCount (length array) cs)) as [Hl|]; [|lia].
      apply chunkCount_spec in Hl; [lia|done..]. }
    rewrite Z.sub_diag. simpl. by rewrite app_nil_r.
Qed.

(** With a positive chunk size the loop terminates: [length array + 1]
    iterations of fuel are enough, and the result is the closed form. *)
Lemma chunkArray_closed fuel array cs :
  (1 ≤ cs)%Z → length array < fuel →
  chunkArray fuel array cs = Some (chunksOf array cs).
Proof.
  intros Hcs Hfuel. unfold chunkArray, chunksOf.
  pose proof (chunkCount_le (length array) cs Hcs).
  pose proof (chunkCount_nonneg (length array) cs Hcs).
  change 0%Z with (0 * cs)%Z at 1.
  rewrite chunkArray_loop_closed by lia.
  by rewrite Z.sub_0_r.
Qed.

Lemma chunksOf_length array cs :
  (1 ≤ cs)%Z → length (chunksOf array cs) = Z.to_nat (chunkCount (length array) cs).
Proof. intros. unfold chunksOf. by rewrite length_fmap, length_seqZ. Qed.

Lemma chunksOf_lookup array cs (i : nat) :
  (1 ≤ cs)%Z → i < length (chunksOf array cs) →
  chunksOf array cs !! i =
    Some (Js.slice array (Z.of_nat i * cs) ((Z.of_nat i + 1) * cs)).
Proof.
  intros Hcs Hi. rewrite chunksOf_length in Hi by done.
  unfold chunksOf. rewrite list_lookup_fmap.
  rewrite lookup_seqZ_lt by lia. simpl. by rewrite Z.add_0_l.
Qed.

(** Concatenating consecutive [c]-sized windows rebuilds the list. *)
Lemma concat_windows (c m : nat) l :
  0 < c → length l ≤ m * c →
  concat ((λ n : nat, take c (drop (n * c) l)) <$> seq 0 m) = l.
Proof.
  intros Hc. revert l. induction m as [|m IH]; intros l Hm.
  - simpl in *. by destruct l; [|simpl in Hm; lia].
  - rewrite <- cons_seq, fmap_cons. simpl concat.
    rewrite <- fmap_S_seq, <- list_fmap_compose.
    etrans; [|apply (take_drop c l)]. f_equal.
    etrans; [|apply (IH (drop c l)); rewrite length_drop; lia].
    f_equal. apply list_fmap_ext. intros _ n _. simpl.
    by rewrite drop_drop.
Qed.

Lemma chunksOf_concat array cs :
  (1 ≤ cs)%Z → concat (chunksOf array cs) = array.
Proof.
  intros Hcs. unfold chunksOf, seqZ.
  rewrite <- list_fmap_compose.
  pose proof (chunkCount_nonneg (length array) cs Hcs) as Hn.
  etrans; [|apply (concat_windows (Z.to_nat cs)
                     (Z.to_nat (chunkCount (length array) cs)) array)].
  - f_equal. apply list_fmap_ext. intros _ n _. simpl.
    rewrite slice_nonneg by nia.
    f_equal; [f_equal; lia|f_equal; nia].
  - lia.
  - destruct (Nat.le_gt_cases (length array)
                (Z.to_nat (chunkCount (length array) cs) * Z.to_nat cs)) as [|Hgt];
      [done|exfalso].
    assert (chunkCount (length array) cs * cs < Z.of_nat (length array))%Z as Hlt by nia.
    apply chunkCount_spec in Hlt; lia.
Qed.

End ChunkFacts.

(** ** Facts about [Promise.all] *)

Section AsyncFacts.
Context {W E : Type}.
Abbreviation APromise := (Promise (W:=W) (E:=E)).
Abbreviation ASettled := (Settled (E:=E)).

Lemma insertByTime_perm {X} (x : nat * nat * X) l :
  insertByTime x l ≡ₚ x :: l.
Proof.
  induction l as [|y l IH]; simpl; [done|].
  destruct (x.1.1 <=? y.1.1); [done|].
  rewrite IH. apply Permutation_swap.
Qed.

Lemma sort_perm {X} (l : list (nat * nat * X)) :
  foldr insertByTime [] l ≡ₚ l.
Proof.
  induction l as [|x l IH]; simpl; [done|].
  by rewrite insertByTime_perm, IH.
Qed.

Lemma timed_indices {A} (i : nat) (ps : list (APromise A)) :
  (∀ p, p ∈ ps → p ≠ Forever) →
  entryIndex <$> timed i ps = seq i (length ps).
Proof.
  revert i. induction ps as [|p ps IH]; intros i Hall; simpl; [done|].
  destruct p as [t react|].
  - simpl. f_equal. apply IH. intros q Hq. apply Hall. by right.
  - exfalso. eapply Hall; [left|done].
Qed.

Lemma timed_elem {A} (i : nat) (ps : list (APromise A)) t j react :
  (t, j, react) ∈ timed i ps ↔ i ≤ j ∧ ps !! (j - i) = Some (SettlesAt t react).
Proof.
  revert i. induction ps as [|p ps IH]; intros i; simpl.
  - split; [by intros ?%elem_of_nil|by intros [_ ?]].
  - assert ((t, j, react) ∈ timed (S i) ps ↔
            i ≤ j ∧ j ≠ i ∧ ps !! (j - S i) = Some (SettlesAt t react)) as Hrest.
    { rewrite IH. split; [intros [? ?]; split_and!; [lia|lia|done]|].
      intros (? & ? & ?). split; [lia|done]. }
    assert (∀ q, j ≠ i → i ≤ j → (q :: ps) !! (j - i) = ps !! (j - S i)) as Hshift.
    { intros q ? ?. replace (j - i) with (S (j - S i)) by lia. done. }
    destruct p as [t' react'|].
    + rewrite elem_of_cons, Hrest. split.
      * intros [[= -> -> ->]|(? & ? & ?)].
        -- split; [lia|]. by rewrite Nat.sub_diag.
        -- split; [done|]. by rewrite Hshift.
      * intros [Hle Hl]. destruct (decide (j = i)) as [->|Hne].
        -- rewrite Nat.sub_diag in Hl. simpl in Hl. left. congruence.
        -- right. rewrite Hshift in Hl by done. done.
    + rewrite Hrest. split.
      * intros (? & ? & ?). split; [done|]. by rewrite Hshift.
      * intros [Hle Hl]. destruct (decide (j = i)) as [->|Hne].
        -- rewrite Nat.sub_diag in Hl. done.
        -- rewrite Hshift in Hl by done. done.
Qed.


Lemma fill_lookup {A} (V : nat → A) idxs values k :
  fill V values idxs !! k =
    if decide (k ∈ idxs ∧ k < length values) then Some (Some (V k))
    else values !! k.
Proof.
  revert values. induction idxs as [|j idxs IH]; intros values.
  - done.
  - unfold fill in *. cbn [foldl]. rewrite IH, length_insert.
    destruct (decide (k < length values)) as [Hk|Hk].
    + destruct (decide (k = j)) as [->|Hne].
      * rewrite (decide_True (P := j ∈ j :: idxs ∧ _)) by (split; [by left|done]).
        destruct (decide _); [done|]. by rewrite list_lookup_insert_eq.
      * rewrite list_lookup_insert_ne by done.
        destruct (decide (k ∈ idxs)) as [Hin|Hin].
        -- rewrite !decide_True; [done|split; [by right|done]|by split].
        -- rewrite !decide_False; [done| |]; intros [H' _]; [|done].
           apply elem_of_cons in H'. by destruct H'.
    + rewrite !decide_False by (intros [_ ?]; lia).
      rewrite !lookup_ge_None_2; [done|lia|rewrite length_insert; lia].
Qed.

Lemma fill_all {A} (V : nat → A) idxs n :
  idxs ≡ₚ seq 0 n →
  fill V (replicate n None) idxs = Some <$> (V <$> seq 0 n).
Proof.
  intros Hperm. apply list_eq. intros k.
  rewrite fill_lookup, length_replicate, !list_lookup_fmap.
  destruct (decide (k < n)) as [Hk|Hk].
  - rewrite lookup_seq_lt by done. simpl.
    case_decide as H; [done|]. exfalso. apply H. split; [|done].
    rewrite Hperm. apply elem_of_seq. lia.
  - rewrite lookup_seq_ge by lia. simpl.
    case_decide as H; [lia|]. apply lookup_replicate_None. lia.
Qed.

Lemma settleAll_fulfilled {A} (G : nat → W → W) (V : nat → A)
    (order : list (Entry (W:=W) (E:=E) A)) values w :
  Forall (λ x, ∀ w', x.2 w' = (G (entryIndex x) w', Fulfilled (V (entryIndex x))))
    order →
  settleAll order values w =
    (foldl (λ w' j, G j w') w (entryIndex <$> order),
     inr (fill V values (entryIndex <$> order))).
Proof.
  intros Hall. revert values w.
  induction Hall as [|[[t j] react] order Hx _ IH]; intros values w; simpl; [done|].
  simpl in Hx. rewrite Hx. unfold entryIndex at 1 2. simpl. by rewrite IH.
Qed.

(** A wave whose promises all settle and fulfil, whatever the instants:
    the reactions run in some order, the results come in array order. *)
Lemma PromiseAll_fulfilled {A} (G : nat → W → W) (V : nat → A)
    (ps : list (APromise A)) :
  (∀ j p, ps !! j = Some p →
     ∃ t react, p = SettlesAt t react ∧
                ∀ w, react w = (G j w, Fulfilled (V j))) →
  ∃ order, order ≡ₚ seq 0 (length ps) ∧
    ∀ w, PromiseAll ps w =
           (foldl (λ w' j, G j w') w order, Resolves (V <$> seq 0 (length ps))).
Proof.
  intros Hps. exists (entryIndex <$> settleOrder ps). split.
  - unfold settleOrder. rewrite sort_perm. rewrite timed_indices; [done|].
    intros p [j Hj]%list_elem_of_lookup ->.
    destruct (Hps _ _ Hj) as (? & ? & ? & _). done.
  - intros w. unfold PromiseAll.
    rewrite (settleAll_fulfilled G V).
    + rewrite fill_all.
      * by rewrite mapM_fmap_Some.
      * unfold settleOrder. rewrite sort_perm. rewrite timed_indices; [done|].
        intros p [j Hj]%list_elem_of_lookup ->.
        destruct (Hps _ _ Hj) as (? & ? & ? & _). done.
    + apply Forall_forall. intros [[t j] react] Hin.
      unfold settleOrder in Hin. rewrite sort_perm in Hin.
      apply timed_elem in Hin as [_ Hl]. rewrite Nat.sub_0_r in Hl.
      destruct (Hps _ _ Hl) as (t' & react' & [= -> ->] & Hr). done.
Qed.

Lemma insertByTime_fmap {X Y} (g : X → Y) (x : nat * nat * X) l :
  insertByTime (prod_map id g x) (prod_map id g <$> l) =
    prod_map id g <$> insertByTime x l.
Proof.
  induction l as [|y l IH]; simpl; [done|].
  destruct (x.1.1 <=? y.1.1); simpl; [done|]. f_equal. exact IH.
Qed.

Lemma sort_fmap {X Y} (g : X → Y) (l : list (nat * nat * X)) :
  foldr insertByTime [] (prod_map id g <$> l) =
    prod_map id g <$> foldr insertByTime [] l.
Proof.
  induction l as [|x l IH]; [done|].
  rewrite fmap_cons. cbn [foldr]. by rewrite IH, insertByTime_fmap.
Qed.

Lemma timed_replies {A} i (replies : list (Reply (E:=E) A)) :
  timed i (promiseOfReply (W:=W) <$> replies) = pureEntry <$> timedReplies i replies.
Proof.
  revert i. induction replies as [|[e|t r|] replies IH]; intros i; simpl;
    by rewrite ?IH.
Qed.

Lemma settleAll_pure {A} (order : list (nat * nat * Settled (E:=E) A)) values (w : W) :
  settleAll (pureEntry <$> order) values w = (w, settlePure order values).
Proof.
  revert values. induction order as [|[[t i] [a|e]] order IH]; intros values;
    simpl; by rewrite ?IH.
Qed.

Lemma settleOrder_pure {A} (replies : list (Reply (E:=E) A)) :
  settleOrder (W:=W) (promiseOfReply <$> replies) =
    pureEntry <$> foldr insertByTime [] (timedReplies 0 replies).
Proof.
  unfold settleOrder. rewrite timed_replies.
  apply (sort_fmap (λ r : Settled A, λ w' : W, (w', r))).
Qed.

Lemma timedReplies_elem {A} i (replies : list (Reply (E:=E) A)) t j r :
  (t, j, r) ∈ timedReplies i replies ↔
    i ≤ j ∧ replies !! (j - i) = Some (Settles t r).
Proof.
  revert i. induction replies as [|reply replies IH]; intros i; simpl.
  - split; [by intros ?%elem_of_nil|by intros [_ ?]].
  - assert ((t, j, r) ∈ timedReplies (S i) replies ↔
            i ≤ j ∧ j ≠ i ∧ replies !! (j - S i) = Some (Settles t r)) as Hrest.
    { rewrite IH. split; [intros [? ?]; split_and!; [lia|lia|done]|].
      intros (? & ? & ?). split; [lia|done]. }
    assert (∀ q, j ≠ i → i ≤ j → (q :: replies) !! (j - i) = replies !! (j - S i))
      as Hshift.
    { intros q ? ?. replace (j - i) with (S (j - S i)) by lia. done. }
    destruct reply as [e|t' r'|].
    + rewrite Hrest. split.
      * intros (? & ? & ?). split; [done|]. by rewrite Hshift.
      * intros [Hle Hl]. destruct (decide (j = i)) as [->|Hne].
        -- rewrite Nat.sub_diag in Hl. done.
        -- rewrite Hshift in Hl by done. done.
    + rewrite elem_of_cons, Hrest. split.
      * intros [[= -> -> ->]|(? & ? & ?)].
        -- split; [lia|]. by rewrite Nat.sub_diag.
        -- split; [done|]. by rewrite Hshift.
      * intros [Hle Hl]. destruct (decide (j = i)) as [->|Hne].
        -- rewrite Nat.sub_diag in Hl. simpl in Hl. left. congruence.
        -- right. rewrite Hshift in Hl by done. done.
    + rewrite Hrest. split.
      * intros (? & ? & ?). split; [done|]. by rewrite Hshift.
      * intros [Hle Hl]. destruct (decide (j = i)) as [->|Hne].
        -- rewrite Nat.sub_diag in Hl. done.
        -- rewrite Hshift in Hl by done. done.
Qed.

Lemma timedReplies_increasing {A} i (replies : list (Reply (E:=E) A)) :
  StronglySorted (λ x y, entryIndex x < entryIndex y) (timedReplies i replies).
Proof.
  revert i. induction replies as [|reply replies IH]; intros i; simpl;
    [constructor|].
  destruct reply as [e|t r|]; [apply IH| |apply IH].
  constructor; [apply IH|]. apply Forall_forall. intros [[t' j] r'] Hin.
  apply timedReplies_elem in Hin as [Hle _]. unfold entryIndex. simpl. lia.
Qed.

Lemma insertByTime_sorted {X} (x : nat * nat * X) l :
  StronglySorted lexBefore l →
  Forall (λ y, entryIndex x < entryIndex y) l →
  StronglySorted lexBefore (insertByTime x l).
Proof.
  induction l as [|y l IH]; intros Hsorted Hidx; simpl.
  - repeat constructor.
  - apply StronglySorted_inv in Hsorted as [Hl Hy].
    apply Forall_cons in Hidx as [Hxy Hxl].
    destruct (Nat.leb_spec x.1.1 y.1.1) as [Hle|Hgt].
    + constructor; [by constructor|]. constructor.
      * unfold lexBefore, entryTime, entryIndex in *. lia.
      * eapply Forall_impl; [apply Forall_and; split; [exact Hy|exact Hxl]|].
        intros z [Hyz Hxz]. unfold lexBefore, entryTime, entryIndex in *. lia.
    + constructor; [by apply IH|].
      rewrite insertByTime_perm. constructor; [|done].
      unfold lexBefore, entryTime. lia.
Qed.

Lemma sort_sorted {X} (l : list (nat * nat * X)) :
  StronglySorted (λ x y, entryIndex x < entryIndex y) l →
  StronglySorted lexBefore (foldr insertByTime [] l).
Proof.
  induction l as [|x l IH]; intros Hinc; simpl; [constructor|].
  apply StronglySorted_inv in Hinc as [Hl Hx].
  apply insertByTime_sorted; [by apply IH|]. by rewrite sort_perm.
Qed.

Lemma settlePure_inl {A} (order : list (nat * nat * Settled (E:=E) A)) values e :
  settlePure order values = inl e →
  ∃ pre x post, order = pre ++ x :: post ∧ x.2 = Rejected e ∧
                Forall (λ y, ∃ a, y.2 = Fulfilled a) pre.
Proof.
  revert values. induction order as [|[[t i] [a|e']] order IH]; intros values; simpl.
  - done.
  - intros (pre & x & post & -> & Hx & Hpre)%IH.
    exists ((t, i, Fulfilled a) :: pre), x, post. split_and!; [done|done|].
    constructor; [by eexists|done].
  - intros [= ->]. exists [], (t, i, Rejected e), order. by split_and!.
Qed.

Lemma settlePure_inr {A} (order : list (nat * nat * Settled (E:=E) A)) values values' :
  settlePure order values = inr values' →
  Forall (λ y, ∃ a, y.2 = Fulfilled a) order ∧
  length values' = length values ∧
  ∀ k v, values' !! k = Some (Some v) →
         values !! k = Some (Some v) ∨ ∃ t, (t, k, Fulfilled v) ∈ order.
Proof.
  revert values. induction order as [|[[t i] [a|e']] order IH]; intros values; simpl.
  - intros [= ->]. split_and!; [constructor|done|]. intros k v ?. by left.
  - intros (Hall & Hlen & Hlook)%IH. split_and!.
    + constructor; [by eexists|done].
    + by rewrite Hlen, length_insert.
    + intros k v Hk. destruct (Hlook k v Hk) as [Hins|[t' Hin]].
      * destruct (decide (k = i)) as [->|Hne].
        -- assert (i < length values) as Hi.
           { apply lookup_lt_Some in Hins. by rewrite length_insert in Hins. }
           rewrite list_lookup_insert_eq in Hins by done.
           injection Hins as [= ->]. right. exists t. by left.
        -- rewrite list_lookup_insert_ne in Hins by done. by left.
      * right. exists t'. by right.
  - done.
Qed.

Lemma PromiseAll_pure {A} (replies : list (Reply (E:=E) A)) (w : W) :
  PromiseAll (promiseOfReply <$> replies) w =
    (w, match settlePure (foldr insertByTime [] (timedReplies 0 replies))
                (replicate (length replies) None) with
        | inl e => Rejects e
        | inr values =>
            match mapM id values with
            | Some results => Resolves results
            | None => NeverSettles
            end
        end).
Proof.
  unfold PromiseAll. rewrite settleOrder_pure, settleAll_pure, length_fmap.
  destruct (settlePure _ _) as [e|values]; [done|].
  by destruct (mapM id values).
Qed.

Lemma sorted_replies_elem {A} (replies : list (Reply (E:=E) A)) t j r :
  (t, j, r) ∈ foldr insertByTime [] (timedReplies 0 replies) ↔
    replies !! j = Some (Settles t r).
Proof.
  rewrite sort_perm, timedReplies_elem, Nat.sub_0_r.
  split; [by intros [_ ?]|intros ?; split; [lia|done]].
Qed.

(** The combined promise fulfils exactly when every promise does, with the
    values in array order. *)
Lemma PromiseAll_pure_resolves {A} (replies : list (Reply (E:=E) A)) (w : W) vs :
  (PromiseAll (promiseOfReply <$> replies) w).2 = Resolves vs ↔
    Forall2 fulfilsWith replies vs.
Proof.
  split.
  - rewrite PromiseAll_pure. simpl.
    destruct (settlePure _ _) as [e|values] eqn:Hs; [done|].
    destruct (mapM id values) as [results|] eqn:Hm; [|done].
    intros [= ->]. apply mapM_Some in Hm.
    apply settlePure_inr in Hs as (_ & Hlen & Hlook).
    rewrite length_replicate in Hlen.
    apply Forall2_same_length_lookup. split.
    { apply Forall2_length in Hm. lia. }
    intros k reply v Hreply Hv.
    destruct (Forall2_lookup_r _ _ _ _ _ Hm Hv) as (o & Ho & Hov).
    simpl in Hov. subst o.
    destruct (Hlook k v Ho) as [Hinit|[t Hin]].
    + apply lookup_replicate in Hinit as [? _]. done.
    + apply sorted_replies_elem in Hin. exists t. congruence.
  - intros Hall. destruct vs as [|d vs'] eqn:Hvs.
    { apply Forall2_nil_inv_r in Hall as ->. done. }
    rewrite <- Hvs in *. clear Hvs vs'.
    destruct (PromiseAll_fulfilled (λ _ w', w') (λ j, default d (vs !! j))
                (promiseOfReply <$> replies)) as (order & _ & ->).
    + intros j p Hp. rewrite list_lookup_fmap in Hp.
      destruct (replies !! j) as [reply|] eqn:Hreply; [|done].
      injection Hp as [= <-].
      destruct (Forall2_lookup_l _ _ _ _ _ Hall Hreply) as (v & Hv & t & ->).
      exists t, (λ w', (w', Fulfilled v)). split; [done|].
      intros w'. by rewrite Hv.
    + simpl. f_equal. rewrite length_fmap.
      apply Forall2_length in Hall. rewrite Hall.
      apply list_eq. intros k. rewrite list_lookup_fmap.
      destruct (decide (k < length vs)) as [Hk|Hk].
      * rewrite lookup_seq_lt by done. simpl.
        destruct (lookup_lt_is_Some_2 vs k Hk) as [v Hv]. by rewrite Hv.
      * rewrite lookup_seq_ge by lia. simpl. symmetry.
        apply lookup_ge_None. lia.
Qed.

Lemma PromiseAll_pure_state {A} (replies : list (Reply (E:=E) A)) (w : W) :
  (PromiseAll (promiseOfReply <$> replies) w).1 = w.
Proof. by rewrite PromiseAll_pure. Qed.

(** When it never settles, no promise has rejected. *)
Lemma PromiseAll_pure_never {A} (replies : list (Reply (E:=E) A)) (w : W) :
  (PromiseAll (promiseOfReply <$> replies) w).2 = NeverSettles →
  ∀ k t e, replies !! k ≠ Some (Settles t (Rejected e)).
Proof.
  rewrite PromiseAll_pure. simpl.
  destruct (settlePure _ _) as [e|values] eqn:Hs; [done|].
  intros _ k t e Hk. apply settlePure_inr in Hs as (Hall & _).
  apply sorted_replies_elem in Hk.
  rewrite Forall_forall in Hall. by destruct (Hall _ Hk) as [a Ha].
Qed.

(** When it rejects, the error is that of the first promise to reject. *)
Lemma PromiseAll_pure_rejects {A} (replies : list (Reply (E:=E) A)) (w : W) e :
  (PromiseAll (promiseOfReply <$> replies) w).2 = Rejects e →
  ∃ j t, replies !! j = Some (Settles t (Rejected e)) ∧
    ∀ k t' e', replies !! k = Some (Settles t' (Rejected e')) →
               k = j ∨ t < t' ∨ (t = t' ∧ j < k).
Proof.
  rewrite PromiseAll_pure. simpl.
  destruct (settlePure _ _) as [e0|values] eqn:Hs;
    [|by destruct (mapM id values)].
  intros [= ->].
  apply settlePure_inl in Hs as (pre & [[t j] r] & post & Horder & Hr & Hpre).
  simpl in Hr. subst r.
  assert (∀ x, x ∈ foldr insertByTime [] (timedReplies 0 replies) ↔
               x ∈ pre ++ (t, j, Rejected e) :: post) as Hin
    by (intros x; by rewrite Horder).
  exists j, t. split.
  { apply sorted_replies_elem, Hin, elem_of_app. right. by left. }
  intros k t' e' Hk. apply sorted_replies_elem, Hin in Hk.
  pose proof (sort_sorted _ (timedReplies_increasing 0 replies)) as Hsorted.
  rewrite Horder in Hsorted.
  apply elem_of_app in Hk as [Hk|Hk].
  - rewrite Forall_forall in Hpre. by destruct (Hpre _ Hk) as [a Ha].
  - apply elem_of_cons in Hk as [[= -> -> ->]|Hk]; [by left|].
    apply StronglySorted_app_1_r, StronglySorted_inv in Hsorted as [_ Hlater].
    rewrite Forall_forall in Hlater. specialize (Hlater _ Hk).
    unfold lexBefore, entryTime, entryIndex in Hlater. simpl in Hlater. lia.
Qed.

End AsyncFacts.

(** ** One wave of observed calls *)

Section ObservedWave.
Context {W E Arg A : Type}.
Context (calls : W → list Arg) (record : Arg → W → W).
Context (fn : AsyncFn (E:=E) Arg A).
Hypothesis calls_record : ∀ arg w, calls (record arg w) = calls w ++ [arg].

Lemma repliesFrom_lookup n args k :
  repliesFrom fn n args !! k = fn (n + k) <$> args !! k.
Proof.
  revert n k. induction args as [|arg args IH]; intros n k; [done|].
  destruct k as [|k]; simpl; [by rewrite Nat.add_0_r|].
  rewrite IH. do 2 f_equal. lia.
Qed.

Lemma repliesFrom_length n args : length (repliesFrom fn n args) = length args.
Proof. revert n. induction args; intros n; simpl; [done|]. by rewrite IHargs. Qed.

Lemma startAll_observe args w :
  let replies := repliesFrom fn (length (calls w)) args in
  match startAll (observe calls record fn) args w with
  | (w1, Normal ps) =>
      w1 = recordAll record args w ∧ ps = promiseOfReply <$> replies ∧
      ∀ k e, replies !! k ≠ Some (ThrowsSync e)
  | (w1, Throw e) =>
      ∃ k, replies !! k = Some (ThrowsSync e) ∧
           (∀ k' e', k' < k → replies !! k' ≠ Some (ThrowsSync e')) ∧
           w1 = recordAll record (take (S k) args) w
  end.
Proof.
  revert w. induction args as [|arg args IH]; intros w; simpl.
  - split_and!; done.
  - specialize (IH (record arg w)). rewrite calls_record, length_app in IH.
    simpl in IH. rewrite Nat.add_1_r in IH.
    destruct (fn (length (calls w)) arg) as [e|t r|] eqn:Hfn.
    + exists 0. split_and!; [done|intros; lia|done].
    + destruct (startAll _ args _) as [w2 [ps|e]].
      * destruct IH as (-> & -> & Hno). split_and!; [done|done|].
        intros [|k] e; simpl; [done|apply Hno].
      * destruct IH as (k & Hk & Hmin & ->). exists (S k). split_and!; [done| |done].
        intros [|k'] e' Hlt; simpl; [done|]. apply Hmin. lia.
    + destruct (startAll _ args _) as [w2 [ps|e]].
      * destruct IH as (-> & -> & Hno). split_and!; [done|done|].
        intros [|k] e; simpl; [done|apply Hno].
      * destruct IH as (k & Hk & Hmin & ->). exists (S k). split_and!; [done| |done].
        intros [|k'] e' Hlt; simpl; [done|]. apply Hmin. lia.
Qed.

Lemma fulfilsWith_not_fails (reply : Reply (E:=E) A) a e :
  fulfilsWith reply a → ¬ failsWith reply e.
Proof. intros [t ->] [?|[t' ?]]; congruence. Qed.

(** One wave of observed calls. *)
Lemma awaitAll_observe args w :
  let replies := repliesFrom fn (length (calls w)) args in
  ∃ m, m ≤ length args ∧
    (awaitAll (observe calls record fn) args w).1 = recordAll record (take m args) w ∧
    match (awaitAll (observe calls record fn) args w).2 with
    | Resolves vs => m = length args ∧ Forall2 fulfilsWith replies vs
    | NeverSettles =>
        m = length args ∧ ∀ k reply e, replies !! k = Some reply → ¬ failsWith reply e
    | Rejects e =>
        ∃ j reply, j < m ∧ replies !! j = Some reply ∧ failsWith reply e ∧
          ∀ k reply' e', k < m → replies !! k = Some reply' → failsWith reply' e' →
                         k = j ∨ failsBefore reply j reply' k
    end.
Proof.
  intros replies. unfold awaitAll.
  pose proof (startAll_observe args w) as Hstart. fold replies in Hstart.
  destruct (startAll _ args w) as [w1 [ps|e]].
  - destruct Hstart as (-> & -> & Hno). exists (length args).
    rewrite firstn_all. split_and!; [done|by rewrite PromiseAll_pure_state|].
    destruct (PromiseAll _ _) as [w2 [vs|e|]] eqn:HP.
    + split; [done|]. eapply PromiseAll_pure_resolves. by rewrite HP.
    + destruct (PromiseAll_pure_rejects replies (recordAll record args w) e)
        as (j & t & Hj & Hfirst); [by rewrite HP|].
      exists j, (Settles t (Rejected e)). split_and!.
      * apply lookup_lt_Some in Hj. unfold replies in Hj.
        by rewrite repliesFrom_length in Hj.
      * done.
      * right. by exists t.
      * intros k reply' e' _ Hk [->|[t' ->]]; [by apply Hno in Hk|].
        destruct (Hfirst _ _ _ Hk) as [?|?]; [by left|by right].
    + split; [done|]. intros k reply e Hk [->|[t ->]]; [by apply Hno in Hk|].
      eapply (PromiseAll_pure_never replies); [by rewrite HP|done].
  - destruct Hstart as (k & Hk & Hmin & ->).
    assert (k < length args) as Hlt.
    { apply lookup_lt_Some in Hk. unfold replies in Hk.
      by rewrite repliesFrom_length in Hk. }
    exists (S k). split_and!; [lia|done|]. simpl.
    exists k, (ThrowsSync e). split_and!; [lia|done|by left|].
    intros k' reply' e' Hk' Hreply' Hfails.
    destruct (decide (k' = k)) as [?|Hne]; [by left|right].
    destruct Hfails as [->|[t ->]]; [|done].
    exfalso. eapply (Hmin k' e'); [lia|done].
Qed.

Lemma awaitAll_observe_fulfilled args w vs :
  Forall2 fulfilsWith (repliesFrom fn (length (calls w)) args) vs →
  awaitAll (observe calls record fn) args w = (recordAll record args w, Resolves vs).
Proof.
  intros Hall. unfold awaitAll.
  pose proof (startAll_observe args w) as Hstart.
  destruct (startAll _ args w) as [w1 [ps|e]].
  - destruct Hstart as (-> & -> & _).
    apply (PromiseAll_pure_resolves _ (recordAll record args w)) in Hall.
    pose proof (PromiseAll_pure_state
                  (repliesFrom fn (length (calls w)) args) (recordAll record args w)).
    destruct (PromiseAll _ _) as [w2 out]. simpl in *. by subst.
  - destruct Hstart as (k & Hk & _).
    destruct (Forall2_lookup_l _ _ _ _ _ Hall Hk) as (v & _ & t & ?). done.
Qed.

End ObservedWave.

(** ** The wave loop over observed calls *)

Section WaveLoop.
Context {E Arg A B : Type}.
Context (flat : list A → list B).
Hypothesis flat_app : ∀ l k, flat (l ++ k) = flat l ++ flat k.
Hypothesis flat_nil : flat [] = [].
Context (fn : AsyncFn (E:=E) Arg A) (args : list Arg) (c : nat).
Hypothesis Hc : 1 ≤ c.

Lemma recordAll_appendCall (l w : list Arg) :
  recordAll appendCall l w = w ++ l.
Proof.
  revert w. induction l as [|a l IH]; intros w; unfold recordAll in *; simpl.
  - by rewrite app_nil_r.
  - rewrite IH. unfold appendCall. by rewrite <- app_assoc.
Qed.

Lemma wave_replies (I : nat) :
  repliesFrom fn I (take c (drop I args)) = take c (drop I (repliesFrom fn 0 args)).
Proof.
  apply list_eq. intros k. rewrite repliesFrom_lookup.
  destruct (decide (k < c)) as [Hk|Hk].
  - rewrite !lookup_take_lt, !lookup_drop by done.
    by rewrite repliesFrom_lookup.
  - by rewrite !lookup_take_ge by lia.
Qed.

Let replies := repliesFrom fn 0 args.

(** What a run of the loop over observed calls amounts to: the log is a
    prefix of the arguments; a result lists the values of all calls in
    argument order; a rejection carries the error of the first call to
    fail; the loop cannot hang while some started call has failed. *)
Lemma waveLoop_spec fuel (I : nat) acc :
  length args - I < fuel →
  let run := waveLoop flat fuel args (observe id appendCall fn) c I acc (take I args) in
  ∃ m, I ≤ m ∧ run.1 = take m args ∧
    match run.2 with
    | None => False
    | Some (Resolves rs) =>
        length args ≤ m ∧
        ∃ vs, rs = acc ++ flat vs ∧ Forall2 fulfilsWith (drop I replies) vs
    | Some NeverSettles =>
        ∀ k reply e, I ≤ k < m → replies !! k = Some reply → ¬ failsWith reply e
    | Some (Rejects e) =>
        ∃ j reply, I ≤ j < m ∧ replies !! j = Some reply ∧ failsWith reply e ∧
          ∀ k reply' e', I ≤ k < m → replies !! k = Some reply' →
                         failsWith reply' e' → k = j ∨ failsBefore reply j reply' k
    end.
Proof.
  revert I acc. induction fuel as [|fuel IH]; intros I acc Hfuel; [lia|].
  cbv zeta. cbn [waveLoop].
  destruct (Nat.ltb_spec I (length args)) as [Hlt|Hge].
  2:{ exists I. split_and!; [done|done|]. simpl. split; [lia|].
      exists []. rewrite flat_nil, app_nil_r. split; [done|].
      rewrite drop_ge; [constructor|]. unfold replies.
      rewrite repliesFrom_length. lia. }
  set (wave := take c (drop I args)).
  set (w := take I args).
  assert (length (id w) = I) as Hlen.
  { unfold w, id. rewrite length_take. lia. }
  assert (repliesFrom fn (length (id w)) wave = take c (drop I replies)) as Hreplies.
  { rewrite Hlen. apply wave_replies. }
  assert (∀ k, k < c → take c (drop I replies) !! k = replies !! (I + k)) as Hlook.
  { intros k Hk. by rewrite lookup_take_lt, lookup_drop. }
  assert (∀ m, m ≤ length wave → w ++ take m wave = take (I + m) args) as Hlog.
  { intros m Hm. unfold w, wave. rewrite take_take.
    unfold wave in Hm. rewrite length_take, length_drop in Hm.
    replace (m `min` c) with m by lia. apply take_take_drop. }
  destruct (awaitAll_observe id appendCall fn (λ _ _, eq_refl) wave w)
    as (m & Hm & Hw & Hout).
  rewrite recordAll_appendCall, Hlog in Hw by done.
  rewrite Hreplies in Hout.
  destruct (awaitAll _ wave w) as [w2 [vs|e|]]; simpl in Hw, Hout; subst w2.
  - destruct Hout as [-> Hvs].
    assert (take (I + length wave) args = take (I + c) args) as Hnext.
    { unfold wave. rewrite length_take, length_drop.
      destruct (decide (c ≤ length args - I)).
      - f_equal. lia.
      - rewrite !take_ge; [done|lia..]. }
    rewrite Hnext.
    destruct (IH (I + c) (acc ++ flat vs)) as (m & Hm' & Hw' & Hout'); [lia|].
    exists m. split_and!; [lia|done|].
    destruct (waveLoop _ _ _ _ _ _ _ _) as [w3 [[rs|e|]|]];
      simpl in Hw', Hout' |- *.
    + destruct Hout' as (Hn & vs' & -> & Hvs'). split; [done|].
      exists (vs ++ vs'). split; [by rewrite flat_app, app_assoc|].
      rewrite <- (take_drop c (drop I replies)), drop_drop.
      by apply Forall2_app.
    + destruct Hout' as (j & reply & Hj & Hreply & Hfails & Hfirst).
      exists j, reply. split_and!; [lia|lia|done|done|].
      intros k reply' e' Hk Hreply' Hfails'.
      destruct (decide (I + c ≤ k)) as [Hk'|Hk'].
      { apply (Hfirst k reply' e'); [lia|done|done]. }
      exfalso. assert (k - I < c) as Hkc by lia.
      specialize (Hlook _ Hkc). replace (I + (k - I)) with k in Hlook by lia.
      rewrite Hreply' in Hlook.
      destruct (Forall2_lookup_l _ _ _ _ _ Hvs Hlook) as (v & _ & Hv).
      by eapply fulfilsWith_not_fails.
    + intros k reply e Hk Hreply Hfails.
      destruct (decide (I + c ≤ k)) as [Hk'|Hk'].
      { apply (Hout' k reply e); [lia|done|done]. }
      assert (k - I < c) as Hkc by lia.
      specialize (Hlook _ Hkc). replace (I + (k - I)) with k in Hlook by lia.
      rewrite Hreply in Hlook.
      destruct (Forall2_lookup_l _ _ _ _ _ Hvs Hlook) as (v & _ & Hv).
      by eapply fulfilsWith_not_fails.
    + done.
  - exists (I + m). split_and!; [lia|done|].
    destruct Hout as (j & reply & Hj & Hreply & Hfails & Hfirst).
    assert (j < c) as Hjc.
    { apply lookup_lt_Some in Hreply. rewrite length_take in Hreply. lia. }
    exists (I + j), reply. split_and!; [lia|lia| |done|].
    { by rewrite <- Hlook. }
    intros k reply' e' Hk Hreply' Hfails'.
    assert (k - I < c) as Hkc.
    { unfold wave in Hm. rewrite length_take in Hm. lia. }
    destruct (Hfirst (k - I) reply' e') as [Heq|Hbefore]; [lia| |done|left; lia|].
    { rewrite Hlook by done. by replace (I + (k - I)) with k by lia. }
    right. clear -Hbefore Hk.
    destruct reply, reply'; simpl in *; try done; lia.
  - destruct Hout as [-> Hnone]. exists (I + length wave).
    split_and!; [lia|done|].
    intros k reply e Hk Hreply.
    assert (k - I < c) as Hkc.
    { unfold wave in Hk. rewrite length_take in Hk. lia. }
    apply (Hnone (k - I)). rewrite Hlook by done.
    by replace (I + (k - I)) with k by lia.
Qed.

(** If every call fulfils, whatever the instants, the loop returns the
    values in argument order and has called the function on every
    argument, in order. *)
Lemma waveLoop_fulfilled fuel (I : nat) acc vs :
  length args - I < fuel →
  Forall2 fulfilsWith (drop I replies) vs →
  waveLoop flat fuel args (observe id appendCall fn) c I acc (take I args) =
    (args, Some (Resolves (acc ++ flat vs))).
Proof.
  revert I acc vs. induction fuel as [|fuel IH]; intros I acc vs Hfuel Hvs; [lia|].
  cbn [waveLoop].
  destruct (Nat.ltb_spec I (length args)) as [Hlt|Hge].
  2:{ rewrite drop_ge in Hvs by (unfold replies; rewrite repliesFrom_length; lia).
      apply Forall2_nil_inv_l in Hvs as ->.
      by rewrite flat_nil, app_nil_r, take_ge. }
  set (wave := take c (drop I args)).
  set (w := take I args).
  assert (length (id w) = I) as Hlen.
  { unfold w, id. rewrite length_take. lia. }
  rewrite (awaitAll_observe_fulfilled id appendCall fn (λ _ _, eq_refl) wave w (take c vs)).
  2:{ rewrite Hlen. unfold wave. rewrite wave_replies. by apply Forall2_take. }
  rewrite recordAll_appendCall. unfold w, wave.
  rewrite take_take_drop.
  assert (take (I + c) args = take (I + c) args) as _ by done.
  rewrite (IH (I + c) _ (drop c vs)).
  - rewrite <- app_assoc, <- flat_app, take_drop. done.
  - lia.
  - rewrite <- drop_drop. by apply Forall2_drop.
Qed.

End WaveLoop.

(** ** Both source loops are wave loops *)

Section LoopShapes.
Context {W E : Type}.

Lemma processChunks_loop_waveLoop {T R} fuel (chunks : list (list T))
    (cb : Callback (W:=W) (E:=E) (list T) R) (mc i : Z) acc (w : W) :
  (1 ≤ mc)%Z → (0 ≤ i)%Z →
  processChunks_loop fuel chunks cb mc i acc w =
    waveLoop id fuel chunks cb (Z.to_nat mc) (Z.to_nat i) acc w.
Proof.
  intros Hmc. revert i acc w.
  induction fuel as [|fuel IH]; intros i acc w Hi; [done|].
  cbn [processChunks_loop waveLoop]. unfold awaitAll.
  destruct (Z.ltb_spec i (Z.of_nat (length chunks))),
           (Nat.ltb_spec (Z.to_nat i) (length chunks)); try lia; [|done].
  rewrite slice_nonneg by lia.
  replace (Z.to_nat (i + mc - i)) with (Z.to_nat mc) by lia.
  destruct (startAll _ _ _) as [w1 [ps|e]]; [|done].
  destruct (PromiseAll _ _) as [w2 [vs|e|]]; [|done..].
  rewrite IH by lia. unfold id. f_equal. lia.
Qed.

Lemma startPages_startAll {T} fuel (totalCount pageSize : Z)
    (cb : Callback (W:=W) (E:=E) (Z * Z) (list T)) (p e : Z) acc (w : W) :
  Z.to_nat (e - p) < fuel →
  startPages fuel totalCount pageSize cb p (Js.Fin e) acc w =
    match startAll cb (pageArgs totalCount pageSize p e) w with
    | (w1, Throw err) => (w1, Some (Throw err))
    | (w1, Normal ps) => (w1, Some (Normal (acc ++ ps)))
    end.
Proof.
  revert p acc w. induction fuel as [|fuel IH]; intros p acc w Hfuel; [lia|].
  cbn [startPages Js.ltb]. unfold pageArgs.
  destruct (Z.ltb_spec p e) as [Hlt|Hge].
  - rewrite seqZ_cons by lia. rewrite fmap_cons. cbn [startAll].
    destruct (cb _ w) as [w1 [pr|err]]; [|done].
    rewrite IH by lia. unfold pageArgs.
    replace (Z.pred (e - p)) with (e - (p + 1))%Z by lia.
    replace (Z.succ p) with (p + 1)%Z by lia.
    destruct (startAll _ _ _) as [w2 [ps|err]]; [|done].
    by rewrite <- app_assoc.
  - rewrite seqZ_nil by lia. simpl. by rewrite app_nil_r.
Qed.

Lemma pageArgs_length totalCount pageSize n :
  (0 ≤ n)%Z → length (pageArgs totalCount pageSize 0 n) = Z.to_nat n.
Proof. intros. unfold pageArgs. rewrite length_fmap, length_seqZ. lia. Qed.

Lemma pageArgs_window totalCount pageSize (n i e : Z) (c : nat) :
  (0 ≤ i)%Z → (i < n)%Z → e = Z.min (i + Z.of_nat c) n →
  pageArgs totalCount pageSize i e =
    take c (drop (Z.to_nat i) (pageArgs totalCount pageSize 0 n)).
Proof.
  intros Hi Hn ->. unfold pageArgs.
  rewrite <- fmap_drop, <- fmap_take. f_equal.
  apply list_eq. intros k.
  destruct (decide (k < c)) as [Hk|Hk].
  - rewrite lookup_take_lt, lookup_drop by done.
    destruct (decide (Z.of_nat k < Z.min (i + Z.of_nat c) n - i)%Z).
    + rewrite !lookup_seqZ_lt by lia. f_equal. lia.
    + rewrite !lookup_seqZ_ge by lia. done.
  - rewrite lookup_take_ge by lia. rewrite lookup_seqZ_ge by lia. done.
Qed.

Lemma processPaginated_loop_waveLoop {T} fuel (totalCount pageSize : Z)
    (cb : Callback (W:=W) (E:=E) (Z * Z) (list T)) (mc n i : Z) acc (w : W) :
  (1 ≤ mc)%Z → (0 ≤ i)%Z → (0 ≤ n)%Z → Z.to_nat n - Z.to_nat i < fuel →
  processPaginated_loop fuel totalCount pageSize cb mc (Js.Fin n) i acc w =
    waveLoop (@concat T) fuel (pageArgs totalCount pageSize 0 n) cb
      (Z.to_nat mc) (Z.to_nat i) acc w.
Proof.
  intros Hmc. revert i acc w.
  induction fuel as [|fuel IH]; intros i acc w Hi Hn Hfuel; [lia|].
  cbn [processPaginated_loop waveLoop Js.ltb Js.min]. unfold awaitAll.
  rewrite pageArgs_length by done.
  destruct (Z.ltb_spec i n), (Nat.ltb_spec (Z.to_nat i) (Z.to_nat n));
    try lia; [|done].
  rewrite startPages_startAll by lia.
  rewrite (pageArgs_window totalCount pageSize n i _ (Z.to_nat mc)) by lia.
  destruct (startAll _ _ _) as [w1 [ps|e]]; [|done]. simpl.
  destruct (PromiseAll _ _) as [w2 [vs|e|]]; [|done..].
  rewrite IH by lia. f_equal. lia.
Qed.

End LoopShapes.

(** ** Chunking *)

Section ChunkTheorems.
Context {T : Type}.

(** C3.  For a chunk size of at least 1, [chunkArray] returns (the loop
    terminates) a sequence of chunks whose concatenation is [items]; chunk
    [i] is [items[i*chunkSize .. min((i+1)*chunkSize, len))]; every chunk
    but the last has exactly [chunkSize] elements; an empty input gives no
    chunk. *)
Theorem chunkArray_partition (items : list T) (chunkSize : Z) :
  (1 ≤ chunkSize)%Z →
  ∃ chunks,
    (∀ fuel, length items < fuel → chunkArray fuel items chunkSize = Some chunks) ∧
    concat chunks = items ∧
    (∀ (i : nat) chunk, chunks !! i = Some chunk →
       chunk = subseq items (Z.of_nat i * chunkSize)
                 (Z.min ((Z.of_nat i + 1) * chunkSize) (Z.of_nat (length items))) ∧
       (S i < length chunks → Z.of_nat (length chunk) = chunkSize)) ∧
    (items = [] → chunks = []).
Proof.
  intros Hcs. exists (chunksOf items chunkSize). split_and!.
  - intros fuel Hfuel. by apply chunkArray_closed.
  - by apply chunksOf_concat.
  - intros i chunk Hi.
    assert (i < length (chunksOf items chunkSize)) as Hlt
      by (by eapply lookup_lt_Some).
    rewrite chunksOf_lookup in Hi by done. injection Hi as [= <-].
    pose proof Hlt as Hlt'. rewrite chunksOf_length in Hlt' by done.
    assert (Z.of_nat i * chunkSize < Z.of_nat (length items))%Z as Hin.
    { apply chunkCount_spec; lia. }
    split.
    + unfold Js.slice, subseq.
      destruct (Z.ltb_spec (Z.of_nat i * chunkSize) 0); [lia|].
      destruct (Z.ltb_spec ((Z.of_nat i + 1) * chunkSize) 0); [lia|].
      rewrite (Z.min_l (Z.of_nat i * chunkSize)) by lia. done.
    + intros Hnext. rewrite chunksOf_length in Hnext by done.
      assert ((Z.of_nat i + 1) * chunkSize < Z.of_nat (length items))%Z.
      { apply chunkCount_spec; lia. }
      rewrite slice_length by lia. lia.
  - intros ->. unfold chunksOf.
    pose proof (chunkCount_le 0 chunkSize Hcs). simpl in *.
    by rewrite seqZ_nil by lia.
Qed.

End ChunkTheorems.

Lemma chunkArray_partition_witness :
  ∃ chunks,
    (∀ fuel, 5 < fuel → chunkArray fuel [1; 2; 3; 4; 5]%Z 2 = Some chunks) ∧
    chunks = [[1; 2]; [3; 4]; [5]]%Z.
Proof.
  destruct (chunkArray_partition [1; 2; 3; 4; 5]%Z 2 ltac:(lia))
    as (chunks & Hrun & _).
  exists chunks. split; [exact Hrun|].
  specialize (Hrun 6 ltac:(simpl; lia)). vm_compute in Hrun. congruence.
Defined.

(** ** Result order *)

Section ClientFacts.
Context {E : Type}.

Lemma ceil_div_pos (a b : Z) :
  (1 ≤ b)%Z → Js.ceil_div a b = Js.Fin (pageCount a b).
Proof.
  intros Hb. unfold Js.ceil_div, Js.divided, pageCount.
  destruct (Z.eqb_spec b 0); [lia|]. f_equal.
  pose proof (Z.div_mod (a + b - 1) b ltac:(lia)) as Hdm.
  pose proof (Z.mod_pos_bound (a + b - 1) b ltac:(lia)) as Hbound.
  set (q := ((a + b - 1) / b)%Z) in *.
  assert ((- a) / b = - q)%Z as ->; [|lia].
  symmetry. apply (Z.div_unique_pos _ _ _ (b * q - a)%Z); lia.
Qed.

Lemma pageCount_nonneg a b : (0 ≤ a)%Z → (1 ≤ b)%Z → (0 ≤ pageCount a b)%Z.
Proof. intros. unfold pageCount. apply Z.div_pos; lia. Qed.

Lemma resultsInOrder_Forall2 {Arg A} (fn : AsyncFn (E:=E) Arg A) args results :
  resultsInOrder fn args results ↔
    Forall2 fulfilsWith (repliesFrom fn 0 args) results.
Proof.
  unfold resultsInOrder. rewrite Forall2_same_length_lookup.
  rewrite repliesFrom_length. split.
  - intros [Hlen Hall]. split; [done|].
    intros i reply r Hreply Hr. rewrite repliesFrom_lookup in Hreply.
    destruct (args !! i) as [arg|] eqn:Harg; [|done].
    injection Hreply as [= <-].
    destruct (Hall i arg Harg) as (t & r' & Hr' & Hfn).
    exists t. simpl. congruence.
  - intros [Hlen Hall]. split; [done|].
    intros i arg Harg.
    destruct (lookup_lt_is_Some_2 results i) as [r Hr].
    { rewrite <- Hlen. by eapply lookup_lt_Some. }
    destruct (Hall i (fn i arg) r) as [t Ht]; [|done|by exists t, r].
    by rewrite repliesFrom_lookup, Harg.
Qed.

Lemma client_chunks_run {T R} fuel (items : list T) chunkSize
    (processChunk : AsyncFn (E:=E) (list T) R) maxConcurrency :
  (1 ≤ chunkSize)%Z → (1 ≤ maxConcurrency)%Z → length items < fuel →
  Client.processChunksInParallel fuel items chunkSize processChunk maxConcurrency =
    waveLoop id fuel (chunksOf items chunkSize) (observe id appendCall processChunk)
      (Z.to_nat maxConcurrency) 0 [] [].
Proof.
  intros Hcs Hmc Hfuel.
  unfold Client.processChunksInParallel, processChunksInParallel.
  rewrite chunkArray_closed by done.
  by rewrite processChunks_loop_waveLoop.
Qed.

Lemma chunksOf_length_le {T} (items : list T) chunkSize :
  (1 ≤ chunkSize)%Z → length (chunksOf items chunkSize) ≤ length items.
Proof.
  intros Hcs. rewrite chunksOf_length by done.
  pose proof (chunkCount_le (length items) chunkSize Hcs). lia.
Qed.

Lemma client_pages_run {T} fuel totalCount pageSize
    (readPage : AsyncFn (E:=E) (Z * Z) (list T)) maxConcurrency :
  (0 ≤ totalCount)%Z → (1 ≤ pageSize)%Z → (1 ≤ maxConcurrency)%Z →
  Z.to_nat (pageCount totalCount pageSize) < fuel →
  Client.processPaginatedInParallel fuel totalCount pageSize readPage maxConcurrency =
    waveLoop (@concat T) fuel
      (pageArgs totalCount pageSize 0 (pageCount totalCount pageSize))
      (observe id appendCall readPage) (Z.to_nat maxConcurrency) 0 [] [].
Proof.
  intros Htc Hps Hmc Hfuel.
  unfold Client.processPaginatedInParallel, processPaginatedInParallel.
  rewrite ceil_div_pos by done.
  pose proof (pageCount_nonneg totalCount pageSize Htc Hps).
  by rewrite processPaginated_loop_waveLoop by (simpl; lia).
Qed.

Lemma id_app {A} (l k : list A) : id (l ++ k) = id l ++ id k.
Proof. done. Qed.

(** C1.  Whatever the instants at which the calls of a wave complete, a
    result sequence of [processChunksInParallel] lists the per-chunk values
    in chunk order, and such a sequence is returned exactly when every call
    fulfils; the same holds for the page results that
    [processPaginatedInParallel] flattens. *)
Theorem results_follow_input_order {T R} (items : list T) (chunkSize : Z)
    (processChunk : AsyncFn (E:=E) (list T) R)
    (totalCount pageSize : Z) (readPage : AsyncFn (E:=E) (Z * Z) (list T))
    (maxConcurrency : Z) (fuel : nat) :
  (1 ≤ chunkSize)%Z → (0 ≤ totalCount)%Z → (1 ≤ pageSize)%Z →
  (1 ≤ maxConcurrency)%Z →
  length items < fuel → Z.to_nat (pageCount totalCount pageSize) < fuel →
  (∃ chunks, chunkArray fuel items chunkSize = Some chunks ∧
     ∀ results,
       (Client.processChunksInParallel fuel items chunkSize processChunk
          maxConcurrency).2 = Some (Resolves results) ↔
       resultsInOrder processChunk chunks results) ∧
  (∀ allResults,
     (Client.processPaginatedInParallel fuel totalCount pageSize readPage
        maxConcurrency).2 = Some (Resolves allResults) ↔
     ∃ pageResults,
       resultsInOrder readPage
         (pageArgs totalCount pageSize 0 (pageCount totalCount pageSize))
         pageResults ∧
       allResults = concat pageResults).
Proof.
  intros Hcs Htc Hps Hmc Hfuel Hfuel'. split.
  - exists (chunksOf items chunkSize). split; [by apply chunkArray_closed|].
    intros results. rewrite client_chunks_run by done.
    rewrite resultsInOrder_Forall2.
    pose proof (chunksOf_length_le items chunkSize Hcs) as Hlen.
    split.
    + intros Hrun.
      destruct (waveLoop_spec id id_app eq_refl processChunk
                  (chunksOf items chunkSize) (Z.to_nat maxConcurrency)
                  ltac:(lia) fuel 0 []) as (m & _ & _ & Hout); [lia|].
      cbv zeta in Hout. rewrite take_0, Hrun in Hout.
      destruct Hout as (_ & vs & -> & Hvs). done.
    + intros Hall.
      pose proof (waveLoop_fulfilled id id_app eq_refl processChunk
                    (chunksOf items chunkSize) (Z.to_nat maxConcurrency)
                    ltac:(lia) fuel 0 [] results ltac:(lia) Hall) as Hrun.
      rewrite take_0 in Hrun. by rewrite Hrun.
  - intros allResults. rewrite client_pages_run by done.
    pose proof (pageCount_nonneg totalCount pageSize Htc Hps) as Hn.
    set (pages := pageArgs totalCount pageSize 0 (pageCount totalCount pageSize)).
    assert (length pages = Z.to_nat (pageCount totalCount pageSize)) as Hlen
      by (by apply pageArgs_length).
    split.
    + intros Hrun.
      destruct (waveLoop_spec (@concat T) (@concat_app T) eq_refl readPage
                  pages (Z.to_nat maxConcurrency) ltac:(lia) fuel 0 [])
        as (m & _ & _ & Hout); [lia|].
      cbv zeta in Hout. rewrite take_0, Hrun in Hout.
      destruct Hout as (_ & vs & -> & Hvs). exists vs.
      by rewrite resultsInOrder_Forall2.
    + intros (pageResults & Hall & ->).
      apply resultsInOrder_Forall2 in Hall.
      pose proof (waveLoop_fulfilled (@concat T) (@concat_app T) eq_refl readPage
                    pages (Z.to_nat maxConcurrency) ltac:(lia) fuel 0 []
                    pageResults ltac:(lia) Hall) as Hrun.
      rewrite take_0 in Hrun. by rewrite Hrun.
Qed.

End ClientFacts.

(** ** Failure of a call *)

Section FailFast.
Context {E : Type}.

Lemma failsBefore_asym {A} (r r' : Reply (E:=E) A) j k :
  failsBefore r j r' k → failsBefore r' k r j → False.
Proof. destruct r, r'; simpl; try done; lia. Qed.

Lemma failsWith_inj {A} (r : Reply (E:=E) A) e e' :
  failsWith r e → failsWith r e' → e = e'.
Proof. intros [->|[t ->]] [?|[t' ?]]; congruence. Qed.

(** C2.  If an invocation of [processChunk] made by the call fails (throws
    or rejects), the call rejects and returns no result sequence, whatever
    the other chunks of the wave and of earlier waves did.  The error is
    that of the first invocation to fail: it is the error of the invocation
    at hand whenever no other failure came before it, in particular when all
    the other invocations succeeded. *)
Theorem fail_fast {T R} (items : list T) (chunkSize : Z)
    (processChunk : AsyncFn (E:=E) (list T) R) (maxConcurrency : Z) (fuel : nat)
    (k : nat) (chunk : list T) (e : E) :
  (1 ≤ chunkSize)%Z → (1 ≤ maxConcurrency)%Z → length items < fuel →
  let run := Client.processChunksInParallel fuel items chunkSize processChunk
               maxConcurrency in
  run.1 !! k = Some chunk → failsWith (processChunk k chunk) e →
  (∃ j chunk' e', run.1 !! j = Some chunk' ∧ failsWith (processChunk j chunk') e' ∧
                  firstToFail processChunk run.1 j ∧ run.2 = Some (Rejects e')) ∧
  (firstToFail processChunk run.1 k → run.2 = Some (Rejects e)) ∧
  ((∀ k' chunk' e', run.1 !! k' = Some chunk' →
                    failsWith (processChunk k' chunk') e' → k' = k) →
   run.2 = Some (Rejects e)).
Proof.
  intros Hcs Hmc Hfuel run Hk Hfail.
  pose proof (chunksOf_length_le items chunkSize Hcs) as Hlen.
  destruct (waveLoop_spec id id_app eq_refl processChunk
              (chunksOf items chunkSize) (Z.to_nat maxConcurrency)
              ltac:(lia) fuel 0 []) as (m & _ & Hlog & Hout); [lia|].
  cbv zeta in Hlog, Hout. rewrite take_0 in Hlog, Hout.
  rewrite <- client_chunks_run in Hlog, Hout by done. fold run in Hlog, Hout.
  set (chunks := chunksOf items chunkSize) in *.
  assert (∀ i c, run.1 !! i = Some c ↔ i < m ∧ chunks !! i = Some c) as Hinlog.
  { intros i c. rewrite Hlog, lookup_take_Some. tauto. }
  assert (∀ i c, chunks !! i = Some c →
                 repliesFrom processChunk 0 chunks !! i = Some (processChunk i c))
    as Hreply.
  { intros i c Hi. by rewrite repliesFrom_lookup, Hi. }
  apply Hinlog in Hk as [Hkm Hkc].
  assert (∃ j chunk' e', run.1 !! j = Some chunk' ∧
            failsWith (processChunk j chunk') e' ∧
            firstToFail processChunk run.1 j ∧ run.2 = Some (Rejects e')) as Hfirst.
  { destruct run.2 as [[rs|e'|]|]; [| | |done].
    - exfalso. destruct Hout as (_ & vs & _ & Hvs).
      destruct (Forall2_lookup_l _ _ _ _ _ Hvs (Hreply _ _ Hkc)) as (v & _ & Hv).
      by eapply fulfilsWith_not_fails.
    - destruct Hout as (j & reply & Hj & Hjr & Hjfail & Hjfirst).
      destruct (chunks !! j) as [chunk'|] eqn:Hjc.
      2:{ by rewrite repliesFrom_lookup, Hjc in Hjr. }
      rewrite (Hreply _ _ Hjc) in Hjr. injection Hjr as [= <-].
      exists j, chunk', e'. split_and!; [apply Hinlog; split; [lia|done]|done| |done].
      exists chunk', e'. split_and!; [apply Hinlog; split; [lia|done]|done|].
      intros k' arg' e'' [Hk'm Hk'c]%Hinlog Hfail'.
      apply (Hjfirst k' _ e''); [lia|by apply Hreply|done].
    - exfalso. eapply (Hout k); [lia|by apply Hreply|done]. }
  assert (firstToFail processChunk run.1 k → run.2 = Some (Rejects e)) as Hsame.
  { intros (chunk0 & e0 & Hk0 & _ & Hkfirst).
    apply Hinlog in Hk0 as [_ Hk0]. rewrite Hkc in Hk0. injection Hk0 as [= <-].
    destruct Hfirst
      as (j & chunk' & e' & Hj & Hjfail & (chunk1 & e1 & Hj1 & _ & Hjfirst) & ->).
    rewrite Hj in Hj1. injection Hj1 as [= <-].
    destruct (Hkfirst j chunk' e' Hj Hjfail) as [->|Hbefore].
    - apply Hinlog in Hj as [_ Hj]. rewrite Hkc in Hj. injection Hj as [= <-].
      do 2 f_equal. by eapply failsWith_inj.
    - destruct (Hjfirst k chunk e) as [->|Hbefore'];
        [by apply Hinlog|done| |].
      + apply Hinlog in Hj as [_ Hj]. rewrite Hkc in Hj. injection Hj as [= <-].
        do 2 f_equal. by eapply failsWith_inj.
      + exfalso. by eapply failsBefore_asym. }
  split_and!; [done|done|].
  intros Honly. apply Hsame. exists chunk, e.
  split_and!; [by apply Hinlog|done|].
  intros k' chunk' e' Hk' Hfail'. left. by eapply Honly.
Qed.

End FailFast.

(** ** Sum and pagination *)

Section SumAndPages.
Context {E : Type}.

Lemma foldl_add_sumZ (a : Z) numbers :
  foldl (λ total result, total + result)%Z a numbers = (a + sumZ numbers)%Z.
Proof.
  revert a. induction numbers as [|x numbers IH]; intros a; simpl; [lia|].
  rewrite IH. lia.
Qed.

Lemma client_sum_run {T} fuel (items : list T) chunkSize
    (processChunk : AsyncFn (E:=E) (list T) Z) maxConcurrency numbers :
  (1 ≤ chunkSize)%Z → (1 ≤ maxConcurrency)%Z → length items < fuel →
  resultsInOrder processChunk (chunksOf items chunkSize) numbers →
  Client.processChunksInParallelWithSum fuel items chunkSize processChunk
    maxConcurrency = (chunksOf items chunkSize, Some (Resolves (sumZ numbers))).
Proof.
  intros Hcs Hmc Hfuel Hall%resultsInOrder_Forall2.
  unfold Client.processChunksInParallelWithSum, processChunksInParallelWithSum.
  pose proof (client_chunks_run fuel items chunkSize processChunk maxConcurrency
                Hcs Hmc Hfuel) as Hrun.
  unfold Client.processChunksInParallel in Hrun. rewrite Hrun.
  pose proof (chunksOf_length_le items chunkSize Hcs) as Hlen.
  pose proof (waveLoop_fulfilled id id_app eq_refl processChunk
                (chunksOf items chunkSize) (Z.to_nat maxConcurrency)
                ltac:(lia) fuel 0 [] numbers ltac:(lia) Hall) as Hloop.
  rewrite take_0 in Hloop. rewrite Hloop. simpl.
  by rewrite foldl_add_sumZ.
Qed.

(** C6.  When every call of [processChunk] fulfils with a number,
    [processChunksInParallelWithSum] returns the sum of these numbers over
    all chunks, for any instants of completion; without items the sum is 0;
    and on [1,2,3,4,5] in chunks of 2, with the sum of the chunk as the
    per-chunk number, it is 15 for every [maxConcurrency >= 1]. *)
Theorem sum_over_chunks {T} (items : list T) (chunkSize : Z)
    (processChunk : AsyncFn (E:=E) (list T) Z) (maxConcurrency : Z) (fuel : nat)
    (instant : nat → nat) :
  (1 ≤ chunkSize)%Z → (1 ≤ maxConcurrency)%Z → length items < fuel →
  (∀ chunks numbers,
     chunkArray fuel items chunkSize = Some chunks →
     resultsInOrder processChunk chunks numbers →
     Client.processChunksInParallelWithSum fuel items chunkSize processChunk
       maxConcurrency = (chunks, Some (Resolves (sumZ numbers)))) ∧
  (items = [] →
     (Client.processChunksInParallelWithSum fuel items chunkSize processChunk
        maxConcurrency).2 = Some (Resolves 0%Z)) ∧
  (Client.processChunksInParallelWithSum (E:=E) 6 [1; 2; 3; 4; 5]%Z 2
     (λ n chunk, Settles (instant n) (Fulfilled (sumZ chunk))) maxConcurrency).2
    = Some (Resolves 15%Z).
Proof.
  intros Hcs Hmc Hfuel. split_and!.
  - intros chunks numbers Hchunks Hall.
    rewrite chunkArray_closed in Hchunks by done. injection Hchunks as [= <-].
    by apply client_sum_run.
  - intros ->.
    assert (chunksOf (@nil T) chunkSize = []) as Hnil.
    { apply length_zero_iff_nil.
      pose proof (chunksOf_length_le (@nil T) chunkSize Hcs). simpl in *. lia. }
    rewrite (client_sum_run fuel [] chunkSize processChunk maxConcurrency []);
      [done..|].
    rewrite Hnil. split; [done|]. intros i arg Hi. by rewrite lookup_nil in Hi.
  - rewrite (client_sum_run 6 [1; 2; 3; 4; 5]%Z 2 _ maxConcurrency [3; 7; 5]%Z);
      [done|lia|done|simpl; lia|].
    split; [done|]. intros i arg Hi.
    destruct i as [|[|[|i]]]; vm_compute in Hi; [| | |done];
      injection Hi as [= <-]; eexists _, _; split; done.
Qed.

Lemma pageArgs_lookup totalCount pageSize n (p : nat) :
  (Z.of_nat p < n)%Z →
  pageArgs totalCount pageSize 0 n !! p =
    Some (Z.of_nat p * pageSize,
          Z.min pageSize (totalCount - Z.of_nat p * pageSize))%Z.
Proof.
  intros Hp. unfold pageArgs. rewrite list_lookup_fmap.
  rewrite lookup_seqZ_lt by lia. simpl. by rewrite Z.add_0_l.
Qed.

Lemma pageCount_spec totalCount pageSize p :
  (1 ≤ pageSize)%Z → (0 ≤ p)%Z →
  (p * pageSize < totalCount)%Z ↔ (p < pageCount totalCount pageSize)%Z.
Proof.
  intros Hps Hp. unfold pageCount. split; intros H.
  - assert (p + 1 ≤ (totalCount + pageSize - 1) / pageSize)%Z; [|lia].
    apply Z.div_le_lower_bound; nia.
  - destruct (Z_lt_ge_dec (p * pageSize) totalCount) as [|Hge]; [done|].
    exfalso.
    assert ((totalCount + pageSize - 1) / pageSize ≤ p)%Z; [|lia].
    apply Z.lt_succ_r. apply Z.div_lt_upper_bound; [lia|]. nia.
Qed.

(** C4.  For [totalCount >= 0], [pageSize >= 1], [maxConcurrency >= 1] and
    page reads that fulfil, [processPaginatedInParallel] calls [readPage]
    exactly [ceil (totalCount / pageSize)] times, once per page index [p] in
    increasing order with [offset = p * pageSize] and
    [limit = min (pageSize, totalCount - offset)] (at least 1, never past
    [totalCount]), and returns the page results concatenated in page order;
    for [totalCount = 0] it returns the empty sequence and calls nothing. *)
Theorem pages_read_once_in_order {T} (totalCount pageSize : Z)
    (readPage : AsyncFn (E:=E) (Z * Z) (list T)) (maxConcurrency : Z) (fuel : nat) :
  (0 ≤ totalCount)%Z → (1 ≤ pageSize)%Z → (1 ≤ maxConcurrency)%Z →
  Z.to_nat (pageCount totalCount pageSize) < fuel →
  let totalPages := pageCount totalCount pageSize in
  let pages := pageArgs totalCount pageSize 0 totalPages in
  let run := Client.processPaginatedInParallel fuel totalCount pageSize readPage
               maxConcurrency in
  Js.ceil_div totalCount pageSize = Js.Fin totalPages ∧
  length pages = Z.to_nat totalPages ∧
  (∀ p : nat, (Z.of_nat p < totalPages)%Z →
     ∃ offset limit, pages !! p = Some (offset, limit) ∧
       offset = (Z.of_nat p * pageSize)%Z ∧
       limit = Z.min pageSize (totalCount - offset) ∧
       (1 ≤ limit)%Z ∧ (offset + limit ≤ totalCount)%Z) ∧
  (∀ pageResults, resultsInOrder readPage pages pageResults →
     run = (pages, Some (Resolves (concat pageResults)))) ∧
  (totalCount = 0%Z → run = ([], Some (Resolves []))).
Proof.
  intros Htc Hps Hmc Hfuel totalPages pages run.
  pose proof (pageCount_nonneg totalCount pageSize Htc Hps) as Hn.
  assert (length pages = Z.to_nat totalPages) as Hlen by (by apply pageArgs_length).
  assert (∀ pageResults, resultsInOrder readPage pages pageResults →
            run = (pages, Some (Resolves (concat pageResults)))) as Hrun.
  { intros pageResults Hall%resultsInOrder_Forall2.
    unfold run. rewrite client_pages_run by done.
    pose proof (waveLoop_fulfilled (@concat T) (@concat_app T) eq_refl readPage
                  pages (Z.to_nat maxConcurrency) ltac:(lia) fuel 0 []
                  pageResults ltac:(lia) Hall) as Hloop.
    rewrite take_0 in Hloop. exact Hloop. }
  split_and!; [by apply ceil_div_pos|done| |done|].
  - intros p Hp. eexists _, _. split; [by apply pageArgs_lookup|].
    apply pageCount_spec in Hp; [|done|lia].
    split_and!; [done|done|lia|lia].
  - intros ->.
    assert (pages = []) as Hnil.
    { apply length_zero_iff_nil. rewrite Hlen. unfold totalPages, pageCount.
      rewrite Z.div_small by lia. done. }
    rewrite (Hrun []); [by rewrite Hnil|].
    rewrite Hnil. split; [done|]. intros i arg Hi. by rewrite lookup_nil in Hi.
Qed.

End SumAndPages.

(** ** Progress tracking *)

Section GenericStart.
Context {W E Arg A : Type}.

(** Starting a wave with a callback whose calls all return a promise. *)
Lemma startAll_spec (cb : Callback (W:=W) (E:=E) Arg A) (start : nat → W → W)
    (P : nat → Promise (W:=W) (E:=E) A → Prop) (inv : nat → W → Prop)
    (b : nat) (args : list Arg) (w : W) :
  (∀ j arg w', args !! j = Some arg → inv (b + j) w' →
     ∃ p, cb arg w' = (start (b + j) w', Normal p) ∧ P (b + j) p ∧
          inv (b + S j) (start (b + j) w')) →
  inv b w →
  ∃ ps, startAll cb args w =
          (foldl (λ w' j, start j w') w (seq b (length args)), Normal ps) ∧
        length ps = length args ∧
        (∀ j p, ps !! j = Some p → P (b + j) p) ∧
        inv (b + length args) (foldl (λ w' j, start j w') w (seq b (length args))).
Proof.
  revert b w. induction args as [|arg args IH]; intros b w Hcb Hinv.
  - exists []. simpl. rewrite Nat.add_0_r. split_and!; [done|done| |done].
    intros j p Hj. by rewrite lookup_nil in Hj.
  - destruct (Hcb 0 arg w) as (p & Hcall & Hp & Hinv'); [done|by rewrite Nat.add_0_r|].
    rewrite Nat.add_0_r in Hcall, Hp. rewrite Nat.add_1_r in Hinv'.
    rewrite Nat.add_0_r in Hinv'.
    destruct (IH (S b) (start b w)) as (ps & Hrest & Hlen & Hps & Hfinal);
      [|done|].
    { intros j arg' w' Hj Hw'.
      replace (S b + j) with (b + S j) in * by lia.
      destruct (Hcb (S j) arg' w' Hj Hw') as (p' & ? & ? & ?).
      exists p'. split_and!; [done|done|]. by replace (S b + S j) with (b + S (S j)) by lia. }
    exists (p :: ps). cbn [startAll length seq foldl]. rewrite Hcall, Hrest.
    split_and!; [done|by rewrite <- Hlen| |].
    + intros [|j] q Hq; simpl in Hq.
      * injection Hq as [= <-]. by rewrite Nat.add_0_r.
      * replace (b + S j) with (S b + j) by lia. by apply Hps.
    + by replace (b + S (length args)) with (S b + length args) by lia.
Qed.

End GenericStart.

Section ProgressCounting.
Context {T : Type} (n : Z) (pageResults : list (list T)).

Lemma progressReports_app order1 order2 count :
  progressReports n pageResults (order1 ++ order2) count =
    progressReports n pageResults order1 count ++
    progressReports n pageResults order2 (count + recordsIn pageResults order1).
Proof.
  revert count. induction order1 as [|p order1 IH]; intros count.
  - unfold recordsIn. simpl. by rewrite Z.add_0_r.
  - cbn [progressReports app]. rewrite IH.
    replace (count + recordsIn pageResults (p :: order1))%Z
      with (count + pageLength pageResults p + recordsIn pageResults order1)%Z;
      [done|].
    unfold recordsIn, sumZ. rewrite fmap_cons. cbn [foldr]. lia.
Qed.

Lemma recordsIn_app order1 order2 :
  recordsIn pageResults (order1 ++ order2) =
    (recordsIn pageResults order1 + recordsIn pageResults order2)%Z.
Proof.
  unfold recordsIn. induction order1 as [|p order1 IH]; [done|].
  rewrite <- app_comm_cons, !fmap_cons. unfold sumZ in *. cbn [foldr].
  rewrite IH. lia.
Qed.

Lemma recordsIn_perm order1 order2 :
  order1 ≡ₚ order2 → recordsIn pageResults order1 = recordsIn pageResults order2.
Proof.
  unfold recordsIn, sumZ.
  induction 1; rewrite ?fmap_cons; cbn [foldr] in *; lia.
Qed.

End ProgressCounting.

Section ProgressFacts.
Context {E T : Type}.
Context (totalCount pageSize : Z) (readPage : AsyncFn (E:=E) (Z * Z) (list T)).
Context (onProgress : option (SyncFn (E:=E) ProgressArgs)).
Context (pageResults : list (list T)) (c : nat).

Let n := pageCount totalCount pageSize.
Let pages := pageArgs totalCount pageSize 0 n.
Let supplied : bool := match onProgress with Some _ => true | None => false end.
Let cb := readPageWithProgress pageSize (Js.Fin n)
            (observe Client.reads Client.recordRead readPage)
            (observeSync Client.reports Client.recordReport <$> onProgress).
Let step := progressStep n pageResults supplied.
Let value (p : nat) : list T := default [] (pageResults !! p).
Let start (p : nat) (s : Client.PagerLog * Z) : Client.PagerLog * Z :=
  (Client.recordRead (default (0, 0)%Z (pages !! p)) s.1, s.2).

Hypothesis Htc : (0 ≤ totalCount)%Z.
Hypothesis Hps : (1 ≤ pageSize)%Z.
Hypothesis Hc : 1 ≤ c.
Hypothesis Hreads : resultsInOrder readPage pages pageResults.
Hypothesis Hquiet : ∀ f, onProgress = Some f → ∀ i args, f i args = None.

Lemma wrapper_call p arg log rp :
  pages !! p = Some arg → length (Client.reads log) = p →
  ∃ t react,
    cb arg (log, rp) = (start p (log, rp), Normal (SettlesAt t react)) ∧
    ∀ s, react s = (step p s, Fulfilled (value p)).
Proof.
  intros Hp Hlen. destruct Hreads as [_ Hall].
  destruct (Hall p arg Hp) as (t & r & Hr & Hfn).
  assert (Z.of_nat p < n)%Z as Hpn.
  { apply lookup_lt_Some in Hp. unfold pages in Hp.
    rewrite pageArgs_length in Hp; [lia|]. by apply pageCount_nonneg. }
  unfold pages in Hp. rewrite pageArgs_lookup in Hp by done.
  injection Hp as [= <-].
  unfold cb, readPageWithProgress, observe, start. simpl.
  rewrite Hlen, Hfn. unfold pages. rewrite pageArgs_lookup by done. simpl.
  eexists _, _. split; [reflexivity|].
  intros [w count]. unfold step, progressStep, value, pageLength. rewrite Hr. simpl.
  unfold Js.floor_div, Js.divided.
  destruct (Z.eqb_spec pageSize 0); [lia|].
  rewrite Z.div_mul by lia. simpl.
  unfold supplied. destruct onProgress as [f|]; simpl; [|done].
  unfold observeSync. by rewrite (Hquiet f eq_refl).
Qed.

Lemma foldl_start (I k : nat) log rp :
  I + k ≤ length pages →
  foldl (λ s p, start p s) (log, rp) (seq I k) =
    ({| Client.reads := Client.reads log ++ take k (drop I pages);
        Client.reports := Client.reports log |}, rp).
Proof.
  induction k as [|k IH]; intros Hk.
  - simpl. rewrite app_nil_r. by destruct log.
  - rewrite seq_S, foldl_snoc, IH by lia. unfold start, Client.recordRead. simpl.
    destruct (lookup_lt_is_Some_2 pages (I + k)) as [arg Harg]; [lia|].
    rewrite Harg. simpl.
    rewrite (take_S_r _ _ arg) by (by rewrite lookup_drop).
    by rewrite app_assoc.
Qed.

Lemma foldl_step order log rp :
  foldl (λ s p, step p s) (log, rp) order =
    ({| Client.reads := Client.reads log;
        Client.reports :=
          Client.reports log ++
          (if supplied then progressReports n pageResults order rp else []) |},
     (rp + recordsIn pageResults order)%Z).
Proof.
  revert log rp. induction order as [|p order IH]; intros log rp.
  - simpl. unfold recordsIn. simpl. rewrite Z.add_0_r.
    destruct supplied; rewrite app_nil_r; by destruct log.
  - cbn [foldl]. unfold step at 2, progressStep. cbn [fst snd].
    rewrite IH. cbn [Client.reads Client.reports Client.recordReport].
    replace (rp + recordsIn pageResults (p :: order))%Z
      with (rp + pageLength pageResults p + recordsIn pageResults order)%Z.
    2:{ unfold recordsIn, sumZ. rewrite fmap_cons. cbn [foldr]. lia. }
    destruct supplied; cbn [Client.reads Client.reports Client.recordReport
                              progressReports]; [|done].
    by rewrite <- app_assoc.
Qed.

(** One wave of page reads: the reads are logged in page order, then the
    pages complete in some order. *)
Lemma wave_progress (I : nat) log rp :
  I ≤ length pages → length (Client.reads log) = I →
  let wave := take c (drop I pages) in
  ∃ order, order ≡ₚ seq I (length wave) ∧
    awaitAll cb wave (log, rp) =
      (foldl (λ s p, step p s)
         ({| Client.reads := Client.reads log ++ wave;
             Client.reports := Client.reports log |}, rp) order,
       Resolves (take c (drop I pageResults))).
Proof.
  intros HI Hlen wave.
  assert (I + length wave ≤ length pages) as Hbound.
  { unfold wave. rewrite length_take, length_drop. lia. }
  destruct (startAll_spec cb start
              (λ p pr, ∃ t react, pr = SettlesAt t react ∧
                         ∀ s, react s = (step p s, Fulfilled (value p)))
              (λ p s, length (Client.reads s.1) = p) I wave (log, rp))
    as (ps & Hstart & Hpslen & Hps' & _); [|done|].
  { intros j arg [log' rp'] Hj Hinv. simpl in Hinv.
    assert (pages !! (I + j) = Some arg) as Hpage.
    { unfold wave in Hj. apply lookup_take_Some in Hj as [Hj _].
      by rewrite lookup_drop in Hj. }
    destruct (wrapper_call (I + j) arg log' rp' Hpage Hinv) as (t & react & Hcall & Hreact).
    exists (SettlesAt t react). split_and!; [done|by exists t, react|].
    unfold start. simpl. rewrite Hpage. simpl. rewrite length_app, Hinv. simpl. lia. }
  destruct (PromiseAll_fulfilled (λ j, step (I + j)) (λ j, value (I + j)) ps)
    as (order0 & Hperm & HP).
  { intros j p Hj. destruct (Hps' j p Hj) as (t & react & -> & Hreact).
    by exists t, react. }
  exists ((λ j, I + j) <$> order0). split.
  - rewrite Hperm, Hpslen. by rewrite fmap_add_seq, Nat.add_0_r.
  - unfold awaitAll. rewrite Hstart, HP, foldl_start by done.
    assert (take (length wave) (drop I pages) = wave) as ->.
    { unfold wave. rewrite length_take.
      destruct (decide (c ≤ length (drop I pages))).
      - by rewrite Nat.min_l.
      - rewrite Nat.min_r by lia. by rewrite !take_ge by lia. }
    rewrite foldl_fmap. f_equal. f_equal.
    destruct Hreads as [Hrlen _].
    apply list_eq. intros k. rewrite Hpslen.
    destruct (decide (k < length wave)) as [Hk|Hk].
    + rewrite list_lookup_fmap, lookup_seq_lt by done. simpl.
      unfold wave in Hk. rewrite length_take, length_drop in Hk.
      rewrite lookup_take_lt, lookup_drop by lia.
      unfold value.
      destruct (lookup_lt_is_Some_2 pageResults (I + k)) as [r Hr]; [lia|].
      by rewrite Hr.
    + rewrite list_lookup_fmap, lookup_seq_ge by lia. simpl. symmetry.
      apply lookup_ge_None. rewrite length_take, length_drop.
      unfold wave in Hk. rewrite length_take, length_drop in Hk. lia.
Qed.

Lemma progress_loop fuel (I : nat) acc log rp :
  length pages - I < fuel →
  Client.reads log = take I pages →
  ∃ order, order ≡ₚ seq I (length pages - I) ∧
    waveLoop (@concat T) fuel pages cb c I acc (log, rp) =
      (({| Client.reads := pages;
           Client.reports :=
             Client.reports log ++
             (if supplied then progressReports n pageResults order rp else []) |},
        (rp + recordsIn pageResults order)%Z),
       Some (Resolves (acc ++ concat (drop I pageResults)))).
Proof.
  revert I acc log rp.
  induction fuel as [|fuel IH]; intros I acc log rp Hfuel Hlog; [lia|].
  cbn [waveLoop]. destruct Hreads as [Hrlen _].
  destruct (Nat.ltb_spec I (length pages)) as [Hlt|Hge].
  2:{ exists []. replace (length pages - I) with 0 by lia. split; [done|].
      rewrite take_ge in Hlog by done.
      rewrite drop_ge by lia. simpl. unfold recordsIn. simpl.
      rewrite !app_nil_r, Z.add_0_r.
      destruct supplied; rewrite ?app_nil_r; destruct log; simpl in *; by subst. }
  assert (length (Client.reads log) = I) as Hlen.
  { rewrite Hlog, length_take. lia. }
  destruct (wave_progress I log rp ltac:(lia) Hlen) as (order1 & Hperm1 & ->).
  rewrite foldl_step. simpl.
  destruct (IH (I + c) (acc ++ concat (take c (drop I pageResults)))
              {| Client.reads := Client.reads log ++ take c (drop I pages);
                 Client.reports :=
                   Client.reports log ++
                   (if supplied then progressReports n pageResults order1 rp else []) |}
              (rp + recordsIn pageResults order1)%Z)
    as (order2 & Hperm2 & ->); [lia|simpl; by rewrite Hlog, take_take_drop|].
  exists (order1 ++ order2). split.
  - rewrite Hperm1, Hperm2, length_take, length_drop.
    destruct (decide (c ≤ length pages - I)).
    + replace (c `min` (length pages - I)) with c by lia.
      rewrite <- seq_app.
      by replace (c + (length pages - (I + c))) with (length pages - I) by lia.
    + replace (c `min` (length pages - I)) with (length pages - I) by lia.
      replace (length pages - (I + c)) with 0 by lia. simpl.
      by rewrite app_nil_r.
  - simpl. f_equal.
    + f_equal.
      * f_equal. rewrite progressReports_app.
        destruct supplied; by rewrite <- app_assoc.
      * rewrite recordsIn_app. lia.
    + do 2 f_equal. rewrite <- app_assoc, <- concat_app, <- drop_drop, take_drop.
      done.
Qed.

End ProgressFacts.

Section ProgressTheorem.
Context {E T : Type}.

Lemma progressReports_length (n : Z) (pageResults : list (list T)) order count :
  length (progressReports n pageResults order count) = length order.
Proof.
  revert count. induction order as [|p order IH]; intros count; simpl; [done|].
  by rewrite IH.
Qed.

Lemma progressReports_lookup (n : Z) (pageResults : list (list T)) order count i report :
  progressReports n pageResults order count !! i = Some report →
  ∃ p, order !! i = Some p ∧
       report = (Js.Fin (Z.of_nat p + 1), Js.Fin n,
                 (count + recordsIn pageResults (take (S i) order))%Z).
Proof.
  revert count i. induction order as [|p order IH]; intros count i Hi; [done|].
  destruct i as [|i]; cbn [progressReports] in Hi; simpl in Hi.
  - injection Hi as [= <-]. exists p. split; [done|].
    unfold recordsIn, sumZ. simpl. do 2 f_equal. lia.
  - destruct (IH _ _ Hi) as (q & Hq & ->). exists q. split; [done|].
    f_equal. unfold recordsIn, sumZ.
    change (take (S (S i)) (p :: order)) with (p :: take (S i) order).
    rewrite fmap_cons. cbn [foldr]. lia.
Qed.

Lemma recordsIn_all (pageResults : list (list T)) :
  recordsIn pageResults (seq 0 (length pageResults)) =
    Z.of_nat (length (concat pageResults)).
Proof.
  unfold recordsIn, pageLength.
  trans (sumZ ((λ r : list T, Z.of_nat (length r)) <$>
                 ((λ p, default [] (pageResults !! p)) <$>
                    seq 0 (length pageResults)))).
  { by rewrite <- list_fmap_compose. }
  assert ((λ p, default [] (pageResults !! p)) <$> seq 0 (length pageResults)
          = pageResults) as ->.
  { apply list_eq. intros k. rewrite list_lookup_fmap.
    destruct (decide (k < length pageResults)) as [Hk|Hk].
    - rewrite lookup_seq_lt by done. simpl.
      destruct (lookup_lt_is_Some_2 pageResults k Hk) as [r Hr]. by rewrite Hr.
    - rewrite lookup_seq_ge by lia. simpl. symmetry. apply lookup_ge_None. lia. }
  induction pageResults as [|r rs IH]; [done|].
  rewrite fmap_cons. unfold sumZ in *. cbn [foldr concat].
  rewrite IH, length_app. lia.
Qed.

Lemma client_progress_run fuel totalCount pageSize
    (readPage : AsyncFn (E:=E) (Z * Z) (list T)) maxConcurrency onProgress
    (pageResults : list (list T)) :
  (0 ≤ totalCount)%Z → (1 ≤ pageSize)%Z → (1 ≤ maxConcurrency)%Z →
  Z.to_nat (pageCount totalCount pageSize) < fuel →
  let totalPages := pageCount totalCount pageSize in
  let pages := pageArgs totalCount pageSize 0 totalPages in
  resultsInOrder readPage pages pageResults →
  (∀ f, onProgress = Some f → ∀ i args, f i args = None) →
  ∃ order, order ≡ₚ seq 0 (Z.to_nat totalPages) ∧
    Client.processPaginatedWithProgress fuel totalCount pageSize readPage
      maxConcurrency onProgress =
      (({| Client.reads := pages;
           Client.reports :=
             match onProgress with
             | Some _ => progressReports totalPages pageResults order 0
             | None => []
             end |},
        Z.of_nat (length (concat pageResults))),
       Some (Resolves (concat pageResults))).
Proof.
  intros Htc Hps Hmc Hfuel totalPages pages Hreads Hquiet.
  pose proof (pageCount_nonneg totalCount pageSize Htc Hps) as Hn.
  assert (length pages = Z.to_nat totalPages) as Hlen by (by apply pageArgs_length).
  destruct (progress_loop totalCount pageSize readPage onProgress pageResults
              (Z.to_nat maxConcurrency) Htc Hps ltac:(lia) Hreads Hquiet
              fuel 0 [] {| Client.reads := []; Client.reports := [] |} 0%Z)
    as (order & Hperm & Hrun); [fold totalPages pages; lia|done|].
  fold totalPages pages in Hperm, Hrun.
  rewrite Nat.sub_0_r, Hlen in Hperm.
  exists order. split; [done|].
  unfold Client.processPaginatedWithProgress, processPaginatedWithProgress,
    processPaginatedInParallel.
  rewrite ceil_div_pos by done.
  rewrite processPaginated_loop_waveLoop by (simpl; lia).
  etrans; [exact Hrun|]. simpl.
  rewrite (recordsIn_perm _ _ _ Hperm). destruct Hreads as [Hrlen _].
  rewrite <- Hlen, <- Hrlen, recordsIn_all.
  by destruct onProgress.
Qed.

(** C8.  For [totalCount >= 0], [pageSize >= 1], [maxConcurrency >= 1],
    page reads that fulfil and an [onProgress] that returns normally,
    [processPaginatedWithProgress] calls [onProgress] once per page,
    [ceil(totalCount/pageSize)] times in all: the calls are those of the
    pages in the order in which they complete, each with
    [floor(offset/pageSize) + 1] and [totalPages] as first and second
    argument and with the running count of records as third argument.  At
    the end the counter has been incremented by the length of each page
    result once: it equals the number of records returned, and so does the
    third argument of the last call.  Without [onProgress] nothing is
    reported and the counter ends at the same value. *)
Theorem progress_once_per_page (totalCount pageSize : Z)
    (readPage : AsyncFn (E:=E) (Z * Z) (list T)) (maxConcurrency : Z)
    (onProgress : SyncFn (E:=E) ProgressArgs)
    (pageResults : list (list T)) (fuel : nat) :
  (0 ≤ totalCount)%Z → (1 ≤ pageSize)%Z → (1 ≤ maxConcurrency)%Z →
  Z.to_nat (pageCount totalCount pageSize) < fuel →
  let totalPages := pageCount totalCount pageSize in
  let pages := pageArgs totalCount pageSize 0 totalPages in
  resultsInOrder readPage pages pageResults →
  (∀ i args, onProgress i args = None) →
  let run := Client.processPaginatedWithProgress fuel totalCount pageSize
               readPage maxConcurrency (Some onProgress) in
  let reports := Client.reports run.1.1 in
  let recordsProcessed := run.1.2 in
  run.2 = Some (Resolves (concat pageResults)) ∧
  Client.reads run.1.1 = pages ∧
  length reports = Z.to_nat totalPages ∧
  (∃ order, order ≡ₚ seq 0 (Z.to_nat totalPages) ∧
            reports = progressReports totalPages pageResults order 0) ∧
  (∀ i report, reports !! i = Some report →
     ∃ p offset limit, pages !! p = Some (offset, limit) ∧
       report.1.1 = Js.succ (Js.floor_div offset pageSize) ∧
       report.1.2 = Js.ceil_div totalCount pageSize) ∧
  recordsProcessed = Z.of_nat (length (concat pageResults)) ∧
  (∀ report, last reports = Some report → report.2 = recordsProcessed) ∧
  (Client.processPaginatedWithProgress fuel totalCount pageSize readPage
     maxConcurrency None).1 =
    ({| Client.reads := pages; Client.reports := [] |},
     Z.of_nat (length (concat pageResults))).
Proof.
  intros Htc Hps Hmc Hfuel totalPages pages Hreads Hquiet run reports recordsProcessed.
  pose proof (pageCount_nonneg totalCount pageSize Htc Hps) as Hn.
  destruct (client_progress_run fuel totalCount pageSize readPage
              maxConcurrency (Some onProgress) pageResults Htc Hps Hmc Hfuel
              Hreads) as (order & Hperm & Hrun).
  { by intros f [= <-]. }
  destruct (client_progress_run fuel totalCount pageSize readPage
              maxConcurrency None pageResults Htc Hps Hmc Hfuel
              Hreads) as (order' & _ & Hrun'); [done|].
  pose proof (f_equal fst Hrun') as HNone. cbn [fst] in HNone.
  subst reports recordsProcessed run pages totalPages.
  rewrite Hrun. simpl.
  set (totalPages := pageCount totalCount pageSize) in *.
  assert (length order = Z.to_nat totalPages) as Hlen.
  { by rewrite Hperm, length_seq. }
  assert (recordsIn pageResults order = Z.of_nat (length (concat pageResults)))
    as Htotal.
  { rewrite (recordsIn_perm _ _ _ Hperm). destruct Hreads as [Hrlen _].
    rewrite pageArgs_length in Hrlen by done.
    rewrite <- Hrlen. apply recordsIn_all. }
  split_and!; [done|done| |by exists order| |done| |exact HNone].
  - by rewrite progressReports_length.
  - intros i report (p & Hp & ->)%progressReports_lookup.
    assert (p < Z.to_nat totalPages) as Hpn.
    { assert (p ∈ seq 0 (Z.to_nat totalPages)) as Hin.
      { rewrite <- Hperm. by eapply list_elem_of_lookup_2. }
      apply elem_of_seq in Hin. lia. }
    eexists p, _, _. split; [apply pageArgs_lookup; lia|]. simpl.
    rewrite ceil_div_pos by done. split; [|done].
    unfold Js.floor_div, Js.divided.
    destruct (Z.eqb_spec pageSize 0); [lia|].
    by rewrite Z.div_mul by lia.
  - intros report Hlast. rewrite last_lookup in Hlast.
    apply progressReports_lookup in Hlast as (p & Hp & ->). simpl.
    rewrite progressReports_length in Hp |- *.
    rewrite take_ge by lia. lia.
Qed.

End ProgressTheorem.

(** ** Arguments below 1 *)

Section NoValidation.
Context {E T R : Type}.

Lemma chunkArray_loop_diverges fuel (array : list T) (chunkSize i : Z) acc :
  array ≠ [] → (chunkSize < 1)%Z → (i ≤ 0)%Z →
  chunkArray_loop fuel array chunkSize i acc = None.
Proof.
  intros Harray Hcs. revert i acc.
  induction fuel as [|fuel IH]; intros i acc Hi; [done|].
  simpl. destruct (Z.ltb_spec i (Z.of_nat (length array))) as [_|Hge].
  - apply IH. lia.
  - destruct array; [done|]. simpl in Hge. lia.
Qed.

Lemma PromiseAll_nil {W A} (w : W) :
  PromiseAll (W:=W) (E:=E) (A:=A) [] w = (w, Resolves []).
Proof. done. Qed.

Lemma slice_empty_window {A} (l : list A) (i : Z) (step : Z) :
  (step ≤ 0)%Z → (i ≤ 0)%Z → (i < 0 ∨ step = 0)%Z → Js.slice l i (i + step) = [].
Proof.
  intros Hstep Hi Hcase. unfold Js.slice.
  destruct (Z.ltb_spec i 0), (Z.ltb_spec (i + step) 0); try lia.
  - by replace (Z.to_nat _) with 0 by lia.
  - by replace (Z.to_nat _) with 0 by lia.
Qed.

(** With no room for a chunk in a wave, the wave loop never advances. *)
Lemma processChunks_loop_diverges {W} fuel (chunks : list (list T))
    (cb : Callback (W:=W) (E:=E) (list T) R) (maxConcurrency i : Z) acc (w : W) :
  chunks ≠ [] → (maxConcurrency ≤ 0)%Z → (i ≤ 0)%Z →
  (i < 0 ∨ maxConcurrency = 0)%Z →
  processChunks_loop fuel chunks cb maxConcurrency i acc w = (w, None).
Proof.
  intros Hchunks Hmc. revert i acc.
  induction fuel as [|fuel IH]; intros i acc Hi Hcase; [done|].
  simpl. destruct (Z.ltb_spec i (Z.of_nat (length chunks))) as [_|Hge].
  - rewrite slice_empty_window by done. cbn [startAll].
    rewrite PromiseAll_nil. apply IH; lia.
  - destruct chunks; [done|]. simpl in Hge. lia.
Qed.

Lemma chunkArray_loop_more_fuel fuel extra (array : list T) chunkSize i acc chunks :
  chunkArray_loop fuel array chunkSize i acc = Some chunks →
  chunkArray_loop (fuel + extra) array chunkSize i acc = Some chunks.
Proof.
  revert i acc. induction fuel as [|fuel IH]; intros i acc; [done|].
  simpl. destruct (i <? Z.of_nat (length array))%Z; [apply IH|done].
Qed.

Lemma chunkArray_Some fuel (items : list T) chunkSize chunks :
  (1 ≤ chunkSize)%Z → chunkArray fuel items chunkSize = Some chunks →
  chunks = chunksOf items chunkSize.
Proof.
  intros Hcs Hrun. unfold chunkArray in Hrun.
  apply (chunkArray_loop_more_fuel _ (S (length items))) in Hrun.
  fold (chunkArray (fuel + S (length items)) items chunkSize) in Hrun.
  rewrite chunkArray_closed in Hrun by (done || lia). congruence.
Qed.

Lemma first_wave_negative {W} fuel (chunks : list (list T))
    (cb : Callback (W:=W) (E:=E) (list T) R) (maxConcurrency : Z) (w : W) :
  chunks ≠ [] → (maxConcurrency < 0)%Z →
  processChunks_loop (S fuel) chunks cb maxConcurrency 0 [] w =
    match awaitAll cb (Js.slice chunks 0 maxConcurrency) w with
    | (w2, Resolves vs) => (w2, None)
    | (w2, Rejects e) => (w2, Some (Rejects e))
    | (w2, NeverSettles) => (w2, Some NeverSettles)
    end.
Proof.
  intros Hchunks Hmc. simpl. unfold awaitAll.
  destruct (Z.ltb_spec 0 (Z.of_nat (length chunks))) as [_|Hge].
  2:{ destruct chunks; [done|]. simpl in Hge. lia. }
  destruct (startAll _ _ _) as [w1 [ps|e]]; [|done].
  destruct (PromiseAll _ _) as [w2 [vs|e|]]; [|done..].
  apply processChunks_loop_diverges; [done|lia..].
Qed.

Lemma chunksOf_nonempty (items : list T) (chunkSize : Z) :
  items ≠ [] → (1 ≤ chunkSize)%Z → chunksOf items chunkSize ≠ [].
Proof.
  intros Hitems Hcs Hnil. apply Hitems.
  by rewrite <- (chunksOf_concat items chunkSize Hcs), Hnil.
Qed.

(** C5, as the code has it.  [processChunksInParallel] validates nothing
    and raises no error of its own.  With [chunkSize < 1] or
    [maxConcurrency < 1]: without items it returns the empty sequence and
    calls nothing; with items it returns no result sequence: it loops for
    ever without a call when [chunkSize < 1] or [maxConcurrency = 0]; when
    [chunkSize >= 1] and [maxConcurrency < 0] it calls [processChunk] on
    chunks of [chunks.slice(0, maxConcurrency)] only, and a rejection it
    ends with is the failure of one of these calls. *)
Theorem no_argument_validation (items : list T) (chunkSize : Z)
    (processChunk : AsyncFn (E:=E) (list T) R) (maxConcurrency : Z) :
  (chunkSize < 1 ∨ maxConcurrency < 1)%Z →
  let run fuel := Client.processChunksInParallel fuel items chunkSize processChunk
                    maxConcurrency in
  (items = [] → ∀ fuel, run (S fuel) = ([], Some (Resolves []))) ∧
  (items ≠ [] → (chunkSize < 1 ∨ maxConcurrency = 0)%Z →
     ∀ fuel, run fuel = ([], None)) ∧
  (items ≠ [] → ∀ fuel results, (run fuel).2 ≠ Some (Resolves results)) ∧
  (items ≠ [] → (1 ≤ chunkSize)%Z → ∀ fuel,
     (∃ m, (run fuel).1 =
             take m (Js.slice (chunksOf items chunkSize) 0 maxConcurrency)) ∧
     ∀ e, (run fuel).2 = Some (Rejects e) →
          ∃ k chunk, (run fuel).1 !! k = Some chunk ∧
                     failsWith (processChunk k chunk) e).
Proof.
  intros Hbad run.
  assert (items ≠ [] → (chunkSize < 1 ∨ maxConcurrency = 0)%Z →
          ∀ fuel, run fuel = ([], None)) as Hloop.
  { intros Hitems Hcase fuel.
    unfold run, Client.processChunksInParallel, processChunksInParallel.
    destruct (Z_lt_ge_dec chunkSize 1) as [Hcs|Hcs].
    - unfold chunkArray. by rewrite chunkArray_loop_diverges.
    - destruct (chunkArray fuel items chunkSize) as [chunks|] eqn:Hchunks; [|done].
      apply chunkArray_Some in Hchunks as ->; [|lia].
      apply processChunks_loop_diverges;
        [apply chunksOf_nonempty; [done|lia]|lia|lia|lia]. }
  assert (items ≠ [] → (1 ≤ chunkSize)%Z → (maxConcurrency < 0)%Z → ∀ fuel,
            ((run fuel).2 = None ∨ (run fuel).2 = Some NeverSettles ∨
             ∃ e, (run fuel).2 = Some (Rejects e)) ∧
            (∃ m, (run fuel).1 =
               take m (Js.slice (chunksOf items chunkSize) 0 maxConcurrency)) ∧
            ∀ e, (run fuel).2 = Some (Rejects e) →
                 ∃ k chunk, (run fuel).1 !! k = Some chunk ∧
                            failsWith (processChunk k chunk) e) as Hneg.
  { intros Hitems Hcs Hmc fuel.
    unfold run, Client.processChunksInParallel, processChunksInParallel.
    destruct (chunkArray fuel items chunkSize) as [chunks|] eqn:Hchunks.
    2:{ simpl. split_and!; [by left|by exists 0|done]. }
    apply chunkArray_Some in Hchunks as ->; [|done].
    destruct fuel as [|fuel].
    { simpl. split_and!; [by left|by exists 0|done]. }
    rewrite first_wave_negative by (done || by apply chunksOf_nonempty).
    set (batch := Js.slice (chunksOf items chunkSize) 0 maxConcurrency).
    destruct (awaitAll_observe id appendCall processChunk (λ _ _, eq_refl) batch [])
      as (m & Hm & Hlog & Hout).
    rewrite recordAll_appendCall in Hlog. simpl in Hlog, Hout.
    destruct (awaitAll _ batch []) as [w2 [vs|e|]]; simpl in Hlog, Hout |- *;
      subst w2.
    - split_and!; [by left|by exists m|done].
    - split_and!; [right; right; by exists e|by exists m|].
      intros e' [= <-]. destruct Hout as (j & reply & Hj & Hreply & Hfails & _).
      rewrite repliesFrom_lookup in Hreply.
      destruct (batch !! j) as [chunk|] eqn:Hchunk; [|done].
      injection Hreply as [= <-]. exists j, chunk. split; [|done].
      by rewrite lookup_take_lt.
    - split_and!; [right; by left|by exists m|done]. }
  split_and!.
  - intros -> fuel. done.
  - done.
  - intros Hitems fuel results Hres.
    destruct (Z_lt_ge_dec chunkSize 1) as [Hcs|Hcs].
    { rewrite Hloop in Hres by (done || by left). done. }
    destruct (Z.eq_dec maxConcurrency 0%Z) as [Hmc|Hmc].
    { rewrite Hloop in Hres by (done || by right). done. }
    destruct (Hneg Hitems ltac:(lia) ltac:(lia) fuel) as ([H|[H|[e H]]] & _);
      congruence.
  - intros Hitems Hcs fuel.
    destruct (Z.eq_dec maxConcurrency 0%Z) as [Hmc|Hmc].
    { rewrite Hloop by (done || by right). split; [by exists 0|done]. }
    destruct (Hneg Hitems ltac:(lia) ltac:(lia) fuel) as (_ & Hlog & Herr). done.
Qed.

End NoValidation.

(** ** The keyed comparator *)

Section ComparatorFacts.
Variable NumberToString : JsNumber → string.
Context (sourceKeySelector targetKeySelector : JsValue → Key).
Context (transformFound : option (JsValue → JsValue → JsValue)).

Lemma foldl_insert_lookup (sourceList : list JsValue) (m : gmap string JsValue) key :
  foldl (λ sourceMap item,
           <[String NumberToString (sourceKeySelector item) := item]> sourceMap)
    m sourceList !! key =
    match lastWithKey NumberToString sourceList sourceKeySelector key with
    | Some item => Some item
    | None => m !! key
    end.
Proof.
  unfold lastWithKey. revert m.
  induction sourceList as [|item sourceList IH]; intros m; [done|].
  cbn [foldl]. rewrite IH.
  destruct (decide (String NumberToString (sourceKeySelector item) = key)) as [Heq|Hne].
  - rewrite filter_cons_True by done. rewrite last_cons.
    destruct (last _); [done|]. by rewrite <- Heq, lookup_insert_eq.
  - rewrite filter_cons_False by done.
    destruct (last _); [done|]. by rewrite lookup_insert_ne.
Qed.

Lemma buildSourceMap_lookup sourceList key :
  buildSourceMap NumberToString sourceList sourceKeySelector !! key =
    lastWithKey NumberToString sourceList sourceKeySelector key.
Proof.
  unfold buildSourceMap. rewrite foldl_insert_lookup.
  by destruct (lastWithKey _ _ _ _).
Qed.

(** The loop over the target list, by the test it makes on each item. *)
Lemma compare_fold (sourceMap : gmap string JsValue) targetList found notFound :
  let sourceItemOf targetItem :=
    mapGet sourceMap (String NumberToString (targetKeySelector targetItem)) in
  foldl (compareStep NumberToString sourceMap targetKeySelector transformFound)
    (found, notFound) targetList =
    (found ++ omap (λ targetItem,
                      if ToBoolean (sourceItemOf targetItem)
                      then Some (emitFound transformFound (sourceItemOf targetItem)
                                   targetItem)
                      else None) targetList,
     notFound ++ filter (λ targetItem, ToBoolean (sourceItemOf targetItem) = false)
                   targetList).
Proof.
  intros sourceItemOf. revert found notFound.
  induction targetList as [|targetItem targetList IH]; intros found notFound.
  - simpl. by rewrite !app_nil_r.
  - cbn [foldl omap list_omap]. unfold compareStep at 2. fold (sourceItemOf targetItem).
    destruct (ToBoolean (sourceItemOf targetItem)) eqn:Htruthy.
    + rewrite filter_cons_False by (by rewrite Htruthy).
      unfold emitFound. destruct transformFound; rewrite IH, <- app_assoc; done.
    + rewrite filter_cons_True by done.
      rewrite IH, <- app_assoc. done.
Qed.

End ComparatorFacts.

Section ComparatorTheorems.
Variable NumberToString : JsNumber → string.
Context (sourceList targetList : list JsValue).
Context (sourceKeySelector targetKeySelector : JsValue → Key).
Context (transformFound : option (JsValue → JsValue → JsValue)).

(** C10.  A target item is classified by the truthiness of the value the
    lookup returns for its key, not by the presence of the key: the items
    for which that value is truthy give [found], in order, and all the
    others give [notFound]; so an item whose key maps to a falsy source
    item (such as 0, the empty string, false or null) is in [notFound]. *)
Theorem classification_by_truthiness :
  let sourceMap := buildSourceMap NumberToString sourceList sourceKeySelector in
  let sourceItemOf targetItem :=
    mapGet sourceMap (String NumberToString (targetKeySelector targetItem)) in
  let result := compareListsByKey NumberToString sourceList targetList
                  sourceKeySelector targetKeySelector transformFound in
  result.1 = omap (λ targetItem,
                     if ToBoolean (sourceItemOf targetItem)
                     then Some (emitFound transformFound (sourceItemOf targetItem)
                                  targetItem)
                     else None) targetList ∧
  result.2 = filter (λ targetItem, ToBoolean (sourceItemOf targetItem) = false)
               targetList ∧
  (∀ targetItem sourceItem,
     targetItem ∈ targetList →
     sourceMap !! String NumberToString (targetKeySelector targetItem)
       = Some sourceItem →
     ToBoolean sourceItem = false →
     targetItem ∈ result.2) ∧
  ToBoolean (JsNum (Finite 0)) = false ∧ ToBoolean (JsStr EmptyString) = false ∧
  ToBoolean (JsBool false) = false ∧ ToBoolean JsNull = false.
Proof.
  intros sourceMap sourceItemOf result.
  unfold result, compareListsByKey. fold sourceMap.
  rewrite compare_fold. cbv zeta. rewrite !app_nil_l. simpl.
  split_and!; try done.
  intros targetItem sourceItem Hin Hlookup Hfalsy.
  apply list_elem_of_filter. split; [|done].
  unfold mapGet. fold sourceMap. by rewrite Hlookup.
Qed.

End ComparatorTheorems.

Lemma classification_by_truthiness_witness :
  JsStr EmptyString ∈ (compareListsByKey noNumberKeys [JsStr EmptyString; JsStr "a"]
                [JsStr "b"; JsStr EmptyString; JsStr "a"] stringKey stringKey None).2.
Proof.
  destruct (classification_by_truthiness noNumberKeys [JsStr EmptyString; JsStr "a"]
              [JsStr "b"; JsStr EmptyString; JsStr "a"] stringKey stringKey None)
    as (_ & _ & H & _).
  apply (H (JsStr EmptyString) (JsStr EmptyString)).
  - right. left.
  - vm_compute. reflexivity.
  - reflexivity.
Defined.

(** C7.  The code misses a case of the claim, a key that is present with a
    falsy source item: on the list of the empty string and ["a"], compared
    with itself by identity keys, the code returns [found = ["a"]] and
    [notFound] holding the empty string, although the key of the empty
    string is in the lookup; the claim, like the function's description
    of found and not found items, has both items in [found]. *)
Lemma compare_by_key_presence_fails :
  compareListsByKey noNumberKeys [JsStr EmptyString; JsStr "a"] [JsStr EmptyString; JsStr "a"]
    stringKey stringKey None = ([JsStr "a"], [JsStr EmptyString]) ∧
  compareByKey_specified noNumberKeys [JsStr EmptyString; JsStr "a"] [JsStr EmptyString; JsStr "a"]
    stringKey stringKey None = ([JsStr EmptyString; JsStr "a"], []) ∧
  compareListsByKey noNumberKeys [JsStr EmptyString; JsStr "a"] [JsStr EmptyString; JsStr "a"]
    stringKey stringKey None ≠
  compareByKey_specified noNumberKeys [JsStr EmptyString; JsStr "a"] [JsStr EmptyString; JsStr "a"]
    stringKey stringKey None.
Proof.
  assert (compareListsByKey noNumberKeys [JsStr EmptyString; JsStr "a"] [JsStr EmptyString; JsStr "a"]
            stringKey stringKey None = ([JsStr "a"], [JsStr EmptyString])) as Hcode
    by (vm_compute; reflexivity).
  assert (compareByKey_specified noNumberKeys [JsStr EmptyString; JsStr "a"]
            [JsStr EmptyString; JsStr "a"] stringKey stringKey None
          = ([JsStr EmptyString; JsStr "a"], [])) as Hspec
    by (vm_compute; reflexivity).
  split_and!; [done|done|]. rewrite Hcode, Hspec. discriminate.
Qed.

(** ** The pagination request schema *)

Section SchemaFacts.

Lemma parse_page (input : JsValue) :
  z.parseNumber (z.default 0 (z.min 0 z.number)) ["page"] input =
    match input with
    | JsUndefined => inl (Finite (inject_Z 0))
    | JsNum (Finite q) =>
        if Qle_bool (inject_Z 0) q then inl (Finite q)
        else inr [{| z.code := z.too_small 0; z.path := ["page"] |}]
    | _ => inr [{| z.code := z.invalid_type "number"; z.path := ["page"] |}]
    end.
Proof.
  destruct input as [| | |[q| | |]| | |]; try done.
  unfold z.parseNumber. simpl. by destruct (Qle_bool _ q).
Qed.

Lemma parse_size (input : JsValue) :
  z.parseNumber (z.default 10 (z.max 100 (z.min 1 z.number))) ["size"] input =
    match input with
    | JsUndefined => inl (Finite (inject_Z 10))
    | JsNum (Finite q) =>
        if Qle_bool (inject_Z 1) q then
          if Qle_bool q (inject_Z 100) then inl (Finite q)
          else inr [{| z.code := z.too_big 100; z.path := ["size"] |}]
        else
          if Qle_bool q (inject_Z 100)
          then inr [{| z.code := z.too_small 1; z.path := ["size"] |}]
          else inr [{| z.code := z.too_small 1; z.path := ["size"] |};
                    {| z.code := z.too_big 100; z.path := ["size"] |}]
    | _ => inr [{| z.code := z.invalid_type "number"; z.path := ["size"] |}]
    end.
Proof.
  destruct input as [| | |[q| | |]| | |]; try done.
  unfold z.parseNumber. simpl.
  by destruct (Qle_bool _ q), (Qle_bool q _).
Qed.

Lemma parseNumber_issues schema path input issues :
  z.parseNumber schema path input = inr issues → issues ≠ [].
Proof.
  unfold z.parseNumber.
  destruct input as [| | |[q| | |]| | |], (z.defaultValue schema);
    try (by intros [= <-]); try done;
    destruct (omap _ _); try done; by intros [= <-].
Qed.

Lemma safeParse_request (input : JsValue) :
  z.safeParse PaginationRequestSchema input =
    match input with
    | JsObject properties =>
        match z.parseNumber (z.default 0 (z.min 0 z.number)) ["page"]
                (getProperty properties "page"),
              z.parseNumber (z.default 10 (z.max 100 (z.min 1 z.number))) ["size"]
                (getProperty properties "size") with
        | inl page, inl size => inl [("page", page); ("size", size)]
        | inl _, inr issues => inr issues
        | inr issues, inl _ => inr issues
        | inr issues, inr issues' => inr (issues ++ issues')
        end
    | _ => inr [{| z.code := z.invalid_type "object"; z.path := [] |}]
    end.
Proof.
  destruct input; try done.
  unfold z.safeParse, PaginationRequestSchema, z.object. cbn [z.parseShape].
  destruct (z.parseNumber _ ["page"] _) as [page|issues] eqn:Hpage,
           (z.parseNumber _ ["size"] _) as [size|issues'] eqn:Hsize; try done.
  - apply parseNumber_issues in Hsize. rewrite app_nil_r. by destruct issues'.
  - apply parseNumber_issues in Hpage. rewrite app_nil_r. by destruct issues.
  - apply parseNumber_issues in Hpage. rewrite app_nil_r. by destruct issues.
Qed.

End SchemaFacts.

Section SchemaTheorem.

Lemma Qle_bool_false x y : Qle_bool x y = false → (y < x)%Q.
Proof.
  intros H. apply Qnot_le_lt. intros Hle%Qle_bool_iff. congruence.
Qed.

Lemma parse_page_spec (value : JsValue) :
  match z.parseNumber (z.default 0 (z.min 0 z.number)) ["page"] value with
  | inl page =>
      (value = JsUndefined ∨ numberWithin false 0 None value) ∧
      valueOrDefault value 0 page
  | inr issues =>
      ¬ (value = JsUndefined ∨ numberWithin false 0 None value) ∧
      ∀ issue, issue ∈ issues →
        z.path issue = ["page"] ∧ codeJustified "page" value (z.code issue)
  end.
Proof.
  rewrite parse_page.
  destruct value as [| | |[q| | |]| | |];
    try (split; [by left|done]);
    try (split; [intros [?|(q' & ? & _)]; done|];
         intros issue [->|[]%elem_of_nil]%elem_of_cons; simpl;
         split; [done|split; [done|intros q'; done]]).
  destruct (Qle_bool (inject_Z 0) q) eqn:Hle.
  - apply Qle_bool_iff in Hle. split; [|done]. right. exists q.
    split_and!; [done|done|by intros bound [=]|by intros [=]].
  - apply Qle_bool_false in Hle. split.
    + intros [?|(q' & [= <-] & Hq & _)]; [done|].
      by apply Qlt_not_le in Hle.
    + intros issue [->|[]%elem_of_nil]%elem_of_cons. simpl.
      split_and!; [done|done|]. by exists q.
Qed.

Lemma parse_size_spec (value : JsValue) :
  match z.parseNumber (z.default 10 (z.max 100 (z.min 1 z.number))) ["size"] value with
  | inl size =>
      (value = JsUndefined ∨ numberWithin false 1 (Some 100%Z) value) ∧
      valueOrDefault value 10 size
  | inr issues =>
      ¬ (value = JsUndefined ∨ numberWithin false 1 (Some 100%Z) value) ∧
      ∀ issue, issue ∈ issues →
        z.path issue = ["size"] ∧ codeJustified "size" value (z.code issue)
  end.
Proof.
  rewrite parse_size.
  destruct value as [| | |[q| | |]| | |];
    try (split; [by left|done]);
    try (split; [intros [?|(q' & ? & _)]; done|];
         intros issue [->|[]%elem_of_nil]%elem_of_cons; simpl;
         split; [done|split; [done|intros q'; done]]).
  destruct (Qle_bool (inject_Z 1) q) eqn:Hlo, (Qle_bool q (inject_Z 100)) eqn:Hhi.
  - apply Qle_bool_iff in Hlo, Hhi. split; [|done]. right. exists q.
    split_and!; [done|done|by intros bound [= <-]|by intros [=]].
  - apply Qle_bool_false in Hhi. split.
    + intros [?|(q' & [= <-] & _ & Hq & _)]; [done|].
      specialize (Hq _ eq_refl). by apply Qlt_not_le in Hhi.
    + intros issue [->|[]%elem_of_nil]%elem_of_cons. simpl.
      split_and!; [done|done|done|]. by exists q.
  - apply Qle_bool_false in Hlo. split.
    + intros [?|(q' & [= <-] & Hq & _)]; [done|].
      by apply Qlt_not_le in Hlo.
    + intros issue [->|[]%elem_of_nil]%elem_of_cons. simpl.
      split_and!; [done|done|]. by exists q.
  - apply Qle_bool_false in Hlo, Hhi. split.
    + intros [?|(q' & [= <-] & Hq & _)]; [done|].
      by apply Qlt_not_le in Hlo.
    + intros issue [->|[->|[]%elem_of_nil]%elem_of_cons]%elem_of_cons; simpl.
      * split_and!; [done|done|]. by exists q.
      * split_and!; [done|done|done|]. by exists q.
Qed.

(** C9, as the schema has it.  A value passes [PaginationRequestSchema]
    exactly when it is an object whose [page], if present, is a finite
    number at least 0 and whose [size], if present, is a finite number
    between 1 and 100; integers are not required.  The output carries the
    two fields, an absent [page] being 0 and an absent [size] 10.  Any other
    value is rejected, with a non-empty list of issues, each naming the field
    and the constraint it violates (or that the value is no object). *)
Theorem pagination_request_validation (input : JsValue) :
  ((∃ output, z.safeParse PaginationRequestSchema input = inl output) ↔
     requestAccepted input) ∧
  (∀ output, z.safeParse PaginationRequestSchema input = inl output →
     ∃ page size, output = [("page", page); ("size", size)] ∧
                  fieldOrDefault input "page" 0 page ∧
                  fieldOrDefault input "size" 10 size) ∧
  (∀ issues, z.safeParse PaginationRequestSchema input = inr issues →
     issues ≠ [] ∧ ∀ issue, issue ∈ issues → issueJustified input issue).
Proof.
  rewrite safeParse_request.
  destruct input as [| | | | | |properties];
    try (split_and!;
         [split; [by intros [? ?]|by intros [[? ?] _]]
         |done
         |intros issues [= <-]; split; [done|];
          intros issue [->|[]%elem_of_nil]%elem_of_cons;
          split; [done|by intros [? ?]]]).
  unfold requestAccepted, fieldOrDefault, issueJustified. cbn [fieldOf].
  pose proof (parse_page_spec (getProperty properties "page")) as Hpage.
  pose proof (parse_size_spec (getProperty properties "size")) as Hsize.
  assert (isObject (JsObject properties)) as Hobject by (by eexists).
  destruct (z.parseNumber _ ["page"] _) as [page|issues] eqn:Hp,
           (z.parseNumber _ ["size"] _) as [size|issues'] eqn:Hs.
  - destruct Hpage as [Hpage Hpv], Hsize as [Hsize Hsv]. split_and!.
    + split; [done|by eexists].
    + intros output [= <-]. exists page, size. by split_and!.
    + done.
  - destruct Hpage as [Hpage Hpv], Hsize as [Hsize Hissues]. split_and!.
    + split; [by intros [? ?]|by intros (_ & _ & ?)].
    + done.
    + intros issues [= <-]. split; [by eapply parseNumber_issues|].
      intros issue Hin. destruct (Hissues issue Hin) as [-> Hcode].
      split_and!; [done|by right|done].
  - destruct Hpage as [Hpage Hissues], Hsize as [Hsize Hsv]. split_and!.
    + split; [by intros [? ?]|by intros (_ & ? & _)].
    + done.
    + intros issues0 [= <-]. split; [by eapply parseNumber_issues|].
      intros issue Hin. destruct (Hissues issue Hin) as [-> Hcode].
      split_and!; [done|by left|done].
  - destruct Hpage as [Hpage Hissues], Hsize as [Hsize Hissues']. split_and!.
    + split; [by intros [? ?]|by intros (_ & ? & _)].
    + done.
    + intros issues0 [= <-]. split.
      { apply parseNumber_issues in Hp. by destruct issues. }
      intros issue [Hin|Hin]%elem_of_app.
      * destruct (Hissues issue Hin) as [-> Hcode].
        split_and!; [done|by left|done].
      * destruct (Hissues' issue Hin) as [-> Hcode].
        split_and!; [done|by right|done].
Qed.

End SchemaTheorem.

(** C9 as worded does not hold: the request with [page = 1/2] and no [size]
    passes validation although its page is not an integer. *)
Lemma half_page_accepted :
  let input := JsObject [("page", JsNum (Finite (1 # 2)))] in
  z.safeParse PaginationRequestSchema input =
    inl [("page", Finite (1 # 2)); ("size", Finite (inject_Z 10))] ∧
  ¬ requestSpecified input ∧
  ¬ ((∃ output, z.safeParse PaginationRequestSchema input = inl output) ↔
       requestSpecified input).
Proof.
  intros input.
  assert (z.safeParse PaginationRequestSchema input =
            inl [("page", Finite (1 # 2)); ("size", Finite (inject_Z 10))]) as Hrun
    by (vm_compute; reflexivity).
  assert (¬ requestSpecified input) as Hspec.
  { intros (_ & [Hundef|(q & Hq & _ & _ & Hint)] & _).
    - vm_compute in Hundef. discriminate.
    - vm_compute in Hq. injection Hq as [= <-].
      destruct (Hint eq_refl) as [n Hn]. unfold Qeq in Hn. simpl in Hn. lia. }
  split_and!; [done|done|].
  intros [Hpass _]. apply Hspec, Hpass. by eexists.
Qed.

Lemma pagination_request_validation_witness :
  ∃ page size,
    [("page", Finite (1 # 2)); ("size", Finite (inject_Z 10))]
      = [("page", page); ("size", size)] ∧
    fieldOrDefault (JsObject [("page", JsNum (Finite (1 # 2)))]) "page" 0 page ∧
    fieldOrDefault (JsObject [("page", JsNum (Finite (1 # 2)))]) "size" 10 size.
Proof.
  destruct (pagination_request_validation
              (JsObject [("page", JsNum (Finite (1 # 2)))])) as (_ & Houtput & _).
  apply Houtput. vm_compute. reflexivity.
Defined.

(** Checks, call by call, that a concrete function fulfils with the listed
    results. *)
Ltac check_each_call :=
  split; [reflexivity|];
  let Harg := fresh "Harg" in
  intros [|[|[|[|?]]]] ? Harg; try discriminate;
  injection Harg as [= <-]; eexists _, _; split; reflexivity.

Lemma results_follow_input_order_witness :
  (Client.processChunksInParallel 10 [1; 2; 3]%Z 1 sumLater 2).2
    = Some (Resolves [1; 2; 3]%Z) ∧
  (Client.processPaginatedInParallel 10 10 3 readRange 2).2
    = Some (Resolves (seqZ 0 10)).
Proof.
  destruct (results_follow_input_order [1; 2; 3]%Z 1 sumLater 10 3 readRange 2 10)
    as [(chunks & Hchunks & Hresults) Hpages];
    [lia|lia|lia|lia|simpl; lia|vm_compute; lia|].
  vm_compute in Hchunks. injection Hchunks as [= <-]. split.
  - apply Hresults. check_each_call.
  - apply Hpages. exists [[0; 1; 2]; [3; 4; 5]; [6; 7; 8]; [9]]%Z.
    split; [|reflexivity]. check_each_call.
Defined.

Lemma fail_fast_witness :
  (Client.processChunksInParallel 10 [1; 2; 3]%Z 1 secondFails 2).2
    = Some (Rejects "boom"%string).
Proof.
  apply (fail_fast [1; 2; 3]%Z 1 secondFails 2 10 1 [2]%Z "boom"%string);
    [lia|lia|simpl; lia|reflexivity|right; by exists 0|].
  intros [|[|[|k']]] arg' e' Harg' Hfails; try discriminate.
  - injection Harg' as [= <-]. destruct Hfails as [?|[t ?]]; discriminate.
  - reflexivity.
Defined.

Lemma sum_over_chunks_witness :
  (Client.processChunksInParallelWithSum 6 [1; 2; 3; 4; 5]%Z 2
     (λ n chunk, Settles (10 - n) (Fulfilled (sumZ chunk))) 2).2
    = Some (Resolves (E:=string) 15%Z).
Proof.
  apply (sum_over_chunks (E:=string) [1; 2; 3; 4; 5]%Z 2 sumLater 2 6 (λ n, 10 - n));
    [lia|lia|simpl; lia].
Defined.

Lemma pages_read_once_in_order_witness :
  Client.processPaginatedInParallel 10 10 3 readRange 2 =
    ([(0, 3); (3, 3); (6, 3); (9, 1)]%Z, Some (Resolves (seqZ 0 10))).
Proof.
  destruct (pages_read_once_in_order 10 3 readRange 2 10)
    as (_ & _ & _ & Hrun & _); [lia|lia|lia|vm_compute; lia|].
  apply (Hrun [[0; 1; 2]; [3; 4; 5]; [6; 7; 8]; [9]]%Z). check_each_call.
Defined.

Lemma progress_once_per_page_witness :
  let run := Client.processPaginatedWithProgress 10 10 3 readRange 2
               (Some quietProgress) in
  length (Client.reports run.1.1) = 4 ∧ run.1.2 = 10%Z ∧
  ∀ report, last (Client.reports run.1.1) = Some report → report.2 = 10%Z.
Proof.
  destruct (progress_once_per_page 10 3 readRange 2 quietProgress
              [[0; 1; 2]; [3; 4; 5]; [6; 7; 8]; [9]]%Z 10)
    as (_ & _ & Hlen & _ & _ & Hcount & Hlast & _);
    [lia|lia|lia|vm_compute; lia| |done|].
  - check_each_call.
  - split_and!; [exact Hlen|exact Hcount|].
    intros report Hreport. rewrite (Hlast report Hreport). exact Hcount.
Defined.

Lemma no_argument_validation_witness :
  Client.processChunksInParallel 1 [] 0 neverCalled 0 = ([], Some (Resolves [])).
Proof.
  destruct (no_argument_validation [] 0 neverCalled 0) as (Hempty & _);
    [left; lia|].
  by apply Hempty.
Defined.

(** C5 as worded does not hold: with [chunkSize = 0] and
    [maxConcurrency = 0] the call on no items succeeds, and with
    [maxConcurrency = -1] the callback is called on the first of two chunks. *)
Lemma invalid_arguments_not_rejected :
  Client.processChunksInParallel 10 [] 0 neverCalled 0 = ([], Some (Resolves [])) ∧
  (Client.processChunksInParallel 10 [1; 2]%Z 1 sumLater (-1)).1 = [[1]]%Z.
Proof. split; vm_compute; reflexivity. Qed.

(** * Further properties *)

(** ** Chunks: number, sizes and degenerate sizes *)

Section ChunkShape.
Context {T : Type}.

Lemma chunksOf_chunk_length (items : list T) (chunkSize : Z) (i : nat) chunk :
  (1 ≤ chunkSize)%Z → chunksOf items chunkSize !! i = Some chunk →
  Z.of_nat (length chunk) =
    Z.min chunkSize (Z.of_nat (length items) - Z.of_nat i * chunkSize) ∧
  (Z.of_nat i * chunkSize < Z.of_nat (length items))%Z.
Proof.
  intros Hcs Hi.
  assert (i < length (chunksOf items chunkSize)) as Hlt by (by eapply lookup_lt_Some).
  rewrite chunksOf_lookup in Hi by done. injection Hi as [= <-].
  rewrite chunksOf_length in Hlt by done.
  assert (Z.of_nat i * chunkSize < Z.of_nat (length items))%Z as Hin.
  { apply chunkCount_spec; lia. }
  split; [|done].
  rewrite slice_nonneg by nia. rewrite length_take, length_drop. nia.
Qed.

(** X1.  For a chunk size of at least 1, [chunkArray] returns, and what it
    returns are [ceil (length / chunkSize)] chunks, none of them empty and
    none longer than [chunkSize]. *)
Theorem chunkArray_count_and_sizes (items : list T) (chunkSize : Z) (fuel : nat) :
  (1 ≤ chunkSize)%Z → length items < fuel →
  ∃ chunks, chunkArray fuel items chunkSize = Some chunks ∧
    let count := Z.of_nat (length chunks) in
    count = ((Z.of_nat (length items) + chunkSize - 1) / chunkSize)%Z ∧
    (Z.of_nat (length items) ≤ count * chunkSize
       < Z.of_nat (length items) + chunkSize)%Z ∧
    ∀ chunk, chunk ∈ chunks → (1 ≤ Z.of_nat (length chunk) ≤ chunkSize)%Z.
Proof.
  intros Hcs Hfuel. exists (chunksOf items chunkSize).
  split; [by apply chunkArray_closed|]. intros count.
  assert (count = chunkCount (length items) chunkSize) as Hcount.
  { unfold count. rewrite chunksOf_length by done.
    pose proof (chunkCount_nonneg (length items) chunkSize Hcs). lia. }
  split; [|split].
  - done.
  - rewrite Hcount. unfold chunkCount.
    pose proof (Z.div_mod (Z.of_nat (length items) + chunkSize - 1) chunkSize ltac:(lia)).
    pose proof (Z.mod_pos_bound (Z.of_nat (length items) + chunkSize - 1) chunkSize
                  ltac:(lia)).
    lia.
  - intros chunk [i Hi]%list_elem_of_lookup.
    destruct (chunksOf_chunk_length items chunkSize i chunk Hcs Hi) as [Hlen Hin]. lia.
Qed.

(** X2.  A non-empty array that fits into one chunk comes back as that one
    chunk. *)
Theorem chunkArray_single_chunk (items : list T) (chunkSize : Z) (fuel : nat) :
  items ≠ [] → (Z.of_nat (length items) ≤ chunkSize)%Z → length items < fuel →
  chunkArray fuel items chunkSize = Some [items].
Proof.
  intros Hitems Hfits Hfuel.
  assert (0 < length items) as Hpos by (destruct items; [done|simpl; lia]).
  rewrite chunkArray_closed by lia. f_equal.
  assert (chunkCount (length items) chunkSize = 1%Z) as Hone.
  { unfold chunkCount. symmetry.
    apply (Z.div_unique_pos _ _ _ (Z.of_nat (length items) - 1)%Z); lia. }
  unfold chunksOf. rewrite Hone. simpl. f_equal.
  rewrite slice_nonneg by lia. rewrite take_ge; [done|].
  rewrite length_drop. lia.
Qed.

(** X3.  [chunkArray] checks nothing: an empty array gives no chunk whatever
    the chunk size, also 0 or negative; a non-empty array with a chunk size
    below 1 makes the loop run for ever. *)
Theorem chunkArray_degenerate_size (items : list T) (chunkSize : Z) :
  (∀ fuel, chunkArray (S fuel) (@nil T) chunkSize = Some []) ∧
  (items ≠ [] → (chunkSize < 1)%Z → ∀ fuel, chunkArray fuel items chunkSize = None).
Proof.
  split; [done|].
  intros Hitems Hcs fuel. unfold chunkArray.
  by apply chunkArray_loop_diverges.
Qed.

End ChunkShape.

Lemma chunkArray_count_and_sizes_witness :
  ∃ chunks, chunkArray 6 [1; 2; 3; 4; 5]%Z 2 = Some chunks ∧
            Z.of_nat (length chunks) = ((5 + 2 - 1) / 2)%Z.
Proof.
  destruct (chunkArray_count_and_sizes [1; 2; 3; 4; 5]%Z 2 6)
    as (chunks & Hrun & Hcount & _); [lia|simpl; lia|].
  by exists chunks.
Defined.

Lemma chunkArray_single_chunk_witness :
  chunkArray 4 [1; 2; 3]%Z 3 = Some [[1; 2; 3]%Z].
Proof.
  apply chunkArray_single_chunk; [discriminate|simpl; lia|simpl; lia].
Defined.

Lemma chunkArray_degenerate_size_witness :
  chunkArray 100 [1; 2; 3]%Z 0 = None.
Proof.
  apply (chunkArray_degenerate_size [1; 2; 3]%Z 0); [discriminate|lia].
Defined.

(** ** The wave barrier *)

Section WaveBarrier.
Context {E Arg A B : Type}.
Context (flat : list A → list B).
Context (fn : AsyncFn (E:=E) Arg A) (args : list Arg) (c : nat).
Hypothesis Hc : 1 ≤ c.

(** Whatever the calls do and however much fuel there is: the calls made are
    a prefix of the arguments, and a call is only made once all the calls of
    the waves before its own have fulfilled. *)
Lemma waveLoop_barrier fuel (I : nat) acc :
  let run := waveLoop flat fuel args (observe id appendCall fn) c I acc (take I args) in
  ∃ m, I ≤ m ∧ run.1 = take m args ∧
    ∀ k arg, I ≤ k < m → args !! k = Some arg →
      ∀ j, I ≤ j < I + c * ((k - I) / c) →
        ∃ reply v, repliesFrom fn 0 args !! j = Some reply ∧ fulfilsWith reply v.
Proof.
  revert I acc. induction fuel as [|fuel IH]; intros I acc.
  { exists I. split_and!; [done|done|]. intros k arg Hk. lia. }
  cbv zeta. cbn [waveLoop].
  destruct (Nat.ltb_spec I (length args)) as [Hlt|Hge].
  2:{ exists I. split_and!; [done|done|]. intros k arg Hk. lia. }
  set (wave := take c (drop I args)).
  set (w := take I args).
  assert (length (id w) = I) as Hlen.
  { unfold w, id. rewrite length_take. lia. }
  assert (length wave = c `min` (length args - I)) as Hwave.
  { unfold wave. by rewrite length_take, length_drop. }
  assert (∀ m, m ≤ length wave → w ++ take m wave = take (I + m) args) as Hlog.
  { intros m Hm. unfold w, wave. rewrite take_take.
    unfold wave in Hm. rewrite length_take, length_drop in Hm.
    replace (m `min` c) with m by lia. apply take_take_drop. }
  destruct (awaitAll_observe id appendCall fn (λ _ _, eq_refl) wave w)
    as (m & Hm & Hw & Hout).
  rewrite recordAll_appendCall, Hlog in Hw by done.
  assert (repliesFrom fn (length (id w)) wave
          = take c (drop I (repliesFrom fn 0 args))) as Hreplies.
  { rewrite Hlen. by apply wave_replies. }
  rewrite Hreplies in Hout.
  destruct (awaitAll _ wave w) as [w2 [vs|e|]]; simpl in Hw, Hout; subst w2.
  - destruct Hout as [-> Hvs].
    assert (take (I + length wave) args = take (I + c) args) as ->.
    { rewrite Hwave. destruct (decide (c ≤ length args - I)).
      - f_equal. lia.
      - rewrite !take_ge; [done|lia..]. }
    destruct (IH (I + c) (acc ++ flat vs)) as (m & Hm' & Hw' & Hbar).
    exists m. split_and!; [lia|done|].
    intros k arg Hk Harg j Hj.
    assert (k < length args) as Hkn by (by eapply lookup_lt_Some).
    destruct (decide (k - I < c)) as [Hsmall|Hbig].
    { rewrite Nat.div_small in Hj by done. lia. }
    assert ((k - I) / c = S ((k - (I + c)) / c)) as Hdiv.
    { replace (k - I) with ((k - (I + c)) + 1 * c) by lia.
      rewrite Nat.div_add by lia. lia. }
    rewrite Hdiv in Hj.
    destruct (decide (j < I + c)) as [Hjw|Hjw].
    + assert (is_Some (take c (drop I (repliesFrom fn 0 args)) !! (j - I))) as [reply Hr].
      { apply lookup_lt_is_Some_2.
        rewrite length_take, length_drop, repliesFrom_length. lia. }
      destruct (Forall2_lookup_l _ _ _ _ _ Hvs Hr) as (v & _ & Hv).
      exists reply, v. split; [|done].
      rewrite lookup_take_lt, lookup_drop in Hr by lia.
      by replace (I + (j - I)) with j in Hr by lia.
    + apply (Hbar k arg); [lia|done|]. nia.
  - exists (I + m). split_and!; [lia|done|].
    intros k arg Hk Harg j Hj. rewrite Nat.div_small in Hj by lia. lia.
  - destruct Hout as [-> _]. exists (I + length wave). split_and!; [lia|done|].
    intros k arg Hk Harg j Hj. rewrite Nat.div_small in Hj by lia. lia.
Qed.

End WaveBarrier.

Section WaveCalls.
Context {E Arg A B : Type}.
Context (flat : list A → list B).
Hypothesis flat_app : ∀ l k, flat (l ++ k) = flat l ++ flat k.
Hypothesis flat_nil : flat [] = [].
Context (fn : AsyncFn (E:=E) Arg A) (args : list Arg) (c : nat).
Hypothesis Hc : 1 ≤ c.

Lemma waveLoop_started_after fuel :
  let run := waveLoop flat fuel args (observe id appendCall fn) c 0 [] [] in
  (∃ m, run.1 = take m args) ∧
  (∀ k arg, run.1 !! k = Some arg → ∀ j, j < c * (k / c) →
     ∃ arg' v, run.1 !! j = Some arg' ∧ fulfilsWith (fn j arg') v) ∧
  (∀ j arg, run.1 !! j = Some arg → (∀ v, ¬ fulfilsWith (fn j arg) v) →
     length run.1 ≤ c * (j / c + 1)).
Proof.
  intros run.
  destruct (waveLoop_barrier flat fn args c Hc fuel 0 []) as (m & _ & Hlog & Hbar).
  cbv zeta in Hlog, Hbar. rewrite take_0 in Hlog. fold run in Hlog.
  assert (∀ k arg, run.1 !! k = Some arg → ∀ j, j < c * (k / c) →
            ∃ arg' v, run.1 !! j = Some arg' ∧ fulfilsWith (fn j arg') v) as Hwait.
  { intros k arg Hk j Hj. rewrite Hlog in Hk. apply lookup_take_Some in Hk as [Hk Hkm].
    destruct (Hbar k arg ltac:(lia) Hk j) as (reply & v & Hreply & Hv).
    { rewrite Nat.sub_0_r. lia. }
    rewrite repliesFrom_lookup in Hreply. simpl in Hreply.
    destruct (args !! j) as [arg'|] eqn:Hj'; [|done].
    injection Hreply as [= <-]. exists arg', v. split; [|done].
    rewrite Hlog. apply lookup_take_Some. split; [done|].
    pose proof (Nat.Div0.mul_div_le k c). lia. }
  split_and!; [by exists m|done|].
  intros j arg Hj Hnot.
  destruct (decide (length run.1 ≤ c * (j / c + 1))) as [|Hlong]; [done|exfalso].
  destruct (lookup_lt_is_Some_2 run.1 (c * (j / c + 1)) ltac:(lia)) as [arg' Hk].
  destruct (Hwait _ _ Hk j) as (arg'' & v & Hj' & Hv).
  { rewrite (Nat.mul_comm c (j / c + 1)), Nat.div_mul by lia.
    pose proof (Nat.div_mod_eq j c). pose proof (Nat.mod_upper_bound j c). lia. }
  rewrite Hj in Hj'. injection Hj' as [= <-]. by eapply Hnot.
Qed.

(** What the loop returns when a call it made does not fulfil. *)
Lemma waveLoop_unfulfilled fuel :
  length args < fuel →
  let run := waveLoop flat fuel args (observe id appendCall fn) c 0 [] [] in
  (∀ k arg e, run.1 !! k = Some arg → failsWith (fn k arg) e →
     ∃ j e', firstToFail fn run.1 j ∧ run.2 = Some (Rejects e') ∧
       ∃ arg', run.1 !! j = Some arg' ∧ failsWith (fn j arg') e') ∧
  (∀ k arg, run.1 !! k = Some arg → fn k arg = Hangs →
     (∀ j arg' e, run.1 !! j = Some arg' → ¬ failsWith (fn j arg') e) →
     run.2 = Some NeverSettles).
Proof.
  intros Hfuel run.
  destruct (waveLoop_spec flat flat_app flat_nil fn args c Hc fuel 0 [])
    as (m & _ & Hlog & Hout); [lia|].
  cbv zeta in Hlog, Hout. rewrite take_0 in Hlog, Hout. fold run in Hlog, Hout.
  assert (∀ i a, run.1 !! i = Some a ↔ i < m ∧ args !! i = Some a) as Hinlog.
  { intros i a. rewrite Hlog, lookup_take_Some. tauto. }
  assert (∀ i a, args !! i = Some a →
                 repliesFrom fn 0 args !! i = Some (fn i a)) as Hreply.
  { intros i a Hi. by rewrite repliesFrom_lookup, Hi. }
  assert (∀ i reply, repliesFrom fn 0 args !! i = Some reply →
                     ∃ a, args !! i = Some a ∧ reply = fn i a) as Hreply'.
  { intros i reply Hi. rewrite repliesFrom_lookup in Hi. simpl in Hi.
    destruct (args !! i) as [a|]; [|done]. injection Hi as [= <-]. by exists a. }
  split.
  - intros k arg e [Hkm Hk]%Hinlog Hfail.
    destruct run.2 as [[rs|e'|]|]; [| | |done].
    + exfalso. destruct Hout as (_ & vs & _ & Hvs). rewrite drop_0 in Hvs.
      destruct (Forall2_lookup_l _ _ _ _ _ Hvs (Hreply _ _ Hk)) as (v & _ & Hv).
      by eapply fulfilsWith_not_fails.
    + destruct Hout as (j & reply & Hj & Hjr & Hjfail & Hjfirst).
      destruct (Hreply' _ _ Hjr) as (arg' & Hja & ->).
      exists j, e'. split_and!; [|done|].
      * exists arg', e'. split_and!; [apply Hinlog; split; [lia|done]|done|].
        intros k' a' e'' [Hk'm Hk']%Hinlog Hfail'.
        apply (Hjfirst k' (fn k' a') e''); [lia|by apply Hreply|done].
      * exists arg'. split; [apply Hinlog; split; [lia|done]|done].
    + exfalso. apply (Hout k (fn k arg) e); [lia|by apply Hreply|done].
  - intros k arg [Hkm Hk]%Hinlog Hhangs Hnofail.
    destruct run.2 as [[rs|e'|]|]; [| |done|done].
    + exfalso. destruct Hout as (_ & vs & _ & Hvs). rewrite drop_0 in Hvs.
      destruct (Forall2_lookup_l _ _ _ _ _ Hvs (Hreply _ _ Hk)) as (v & _ & t & Hv).
      congruence.
    + exfalso. destruct Hout as (j & reply & Hj & Hjr & Hjfail & _).
      destruct (Hreply' _ _ Hjr) as (arg' & Hja & ->).
      apply (Hnofail j arg' e'); [apply Hinlog; split; [lia|done]|done].
Qed.

End WaveCalls.

(** ** Waves of calls *)

Section Waves.
Context {E : Type}.

(** X4.  Whatever [processChunk] does, [processChunksInParallel] calls it on
    the chunks in chunk order, on each chunk at most once and on an initial
    part of them; a call is only made once every call of the waves before
    its own has fulfilled, so that at most [maxConcurrency] calls are
    pending at a time; and once a call does not fulfil (it fails or never
    settles) no chunk of a later wave is processed. *)
Theorem chunk_calls_in_waves {T R} (items : list T) (chunkSize : Z)
    (processChunk : AsyncFn (E:=E) (list T) R) (maxConcurrency : Z) (fuel : nat) :
  (1 ≤ chunkSize)%Z → (1 ≤ maxConcurrency)%Z → length items < fuel →
  let run := Client.processChunksInParallel fuel items chunkSize processChunk
               maxConcurrency in
  let c := Z.to_nat maxConcurrency in
  (∃ chunks m, chunkArray fuel items chunkSize = Some chunks ∧ run.1 = take m chunks) ∧
  (∀ k chunk, run.1 !! k = Some chunk → ∀ j, j < c * (k / c) →
     ∃ chunk' v, run.1 !! j = Some chunk' ∧ fulfilsWith (processChunk j chunk') v) ∧
  (∀ j chunk, run.1 !! j = Some chunk → (∀ v, ¬ fulfilsWith (processChunk j chunk) v) →
     length run.1 ≤ c * (j / c + 1)).
Proof.
  intros Hcs Hmc Hfuel run c.
  destruct (waveLoop_started_after id processChunk (chunksOf items chunkSize) c
              ltac:(lia) fuel) as ([m Hlog] & Hwait & Hstop).
  cbv zeta in Hlog, Hwait, Hstop.
  unfold c in Hlog, Hwait, Hstop.
  rewrite <- client_chunks_run in Hlog, Hwait, Hstop by done.
  split_and!; [|done|done].
  exists (chunksOf items chunkSize), m. split; [by apply chunkArray_closed|done].
Qed.

(** X5.  When a call of [processChunk] that [processChunksInParallel] made
    never settles and no call it made fails, the call of
    [processChunksInParallel] never settles either: it returns no result
    and raises no error. *)
Theorem chunk_call_that_hangs {T R} (items : list T) (chunkSize : Z)
    (processChunk : AsyncFn (E:=E) (list T) R) (maxConcurrency : Z) (fuel : nat)
    (k : nat) (chunk : list T) :
  (1 ≤ chunkSize)%Z → (1 ≤ maxConcurrency)%Z → length items < fuel →
  let run := Client.processChunksInParallel fuel items chunkSize processChunk
               maxConcurrency in
  run.1 !! k = Some chunk → processChunk k chunk = Hangs →
  (∀ j chunk' e, run.1 !! j = Some chunk' → ¬ failsWith (processChunk j chunk') e) →
  run.2 = Some NeverSettles.
Proof.
  intros Hcs Hmc Hfuel run Hk Hhangs Hnofail.
  pose proof (chunksOf_length_le items chunkSize Hcs) as Hlen.
  destruct (waveLoop_unfulfilled id id_app eq_refl processChunk
              (chunksOf items chunkSize) (Z.to_nat maxConcurrency)
              ltac:(lia) fuel ltac:(lia)) as [_ Hhang].
  cbv zeta in Hhang. rewrite <- client_chunks_run in Hhang by done.
  by apply (Hhang k chunk).
Qed.

(** X6.  Whatever [readPage] does, [processPaginatedInParallel] reads the
    pages in page order, each page at most once and an initial part of
    them; a page is only read once every read of the waves before its own
    has fulfilled; and once a read does not fulfil no page of a later wave
    is read. *)
Theorem page_reads_in_waves {T} (totalCount pageSize : Z)
    (readPage : AsyncFn (E:=E) (Z * Z) (list T)) (maxConcurrency : Z) (fuel : nat) :
  (0 ≤ totalCount)%Z → (1 ≤ pageSize)%Z → (1 ≤ maxConcurrency)%Z →
  Z.to_nat (pageCount totalCount pageSize) < fuel →
  let run := Client.processPaginatedInParallel fuel totalCount pageSize readPage
               maxConcurrency in
  let c := Z.to_nat maxConcurrency in
  (∃ m, ∀ p page, run.1 !! p = Some page ↔
          p < m ∧ (Z.of_nat p * pageSize < totalCount)%Z ∧
          page = ((Z.of_nat p * pageSize)%Z,
                  Z.min pageSize (totalCount - Z.of_nat p * pageSize))) ∧
  (∀ k page, run.1 !! k = Some page → ∀ j, j < c * (k / c) →
     ∃ page' v, run.1 !! j = Some page' ∧ fulfilsWith (readPage j page') v) ∧
  (∀ j page, run.1 !! j = Some page → (∀ v, ¬ fulfilsWith (readPage j page) v) →
     length run.1 ≤ c * (j / c + 1)).
Proof.
  intros Htc Hps Hmc Hfuel run c.
  set (pages := pageArgs totalCount pageSize 0 (pageCount totalCount pageSize)).
  destruct (waveLoop_started_after (@concat T) readPage pages c
              ltac:(lia) fuel) as ([m Hlog] & Hwait & Hstop).
  cbv zeta in Hlog, Hwait, Hstop.
  unfold c, pages in Hlog, Hwait, Hstop.
  rewrite <- client_pages_run in Hlog, Hwait, Hstop by done.
  split_and!; [|done|done].
  exists m. intros p page. unfold run. rewrite Hlog, lookup_take_Some.
  pose proof (pageCount_spec totalCount pageSize (Z.of_nat p) Hps ltac:(lia)) as Hcount.
  pose proof (pageCount_nonneg totalCount pageSize Htc Hps) as Hn.
  destruct (decide (Z.of_nat p < pageCount totalCount pageSize)%Z) as [Hp|Hp].
  - rewrite pageArgs_lookup by done.
    split; [intros [[= <-] ?]; tauto|by intros (? & ? & ->)].
  - rewrite lookup_ge_None_2 by (rewrite pageArgs_length; lia).
    split; [by intros [? ?]|]. intros (_ & Hlt & _). tauto.
Qed.

(** X7.  When a read that [processPaginatedInParallel] made fails (throws
    or rejects), the call rejects and returns no result, and the error is
    that of the first read to fail: there is a read of the log that failed
    with the error the call rejects with, and no other failed read failed
    before it.  So the error is that of the read at hand whenever no other
    failure came before it, in particular when no other read failed.  When
    a read it made never settles and none fails, the call never settles. *)
Theorem page_read_that_fails {T} (totalCount pageSize : Z)
    (readPage : AsyncFn (E:=E) (Z * Z) (list T)) (maxConcurrency : Z) (fuel : nat)
    (k : nat) (page : Z * Z) :
  (0 ≤ totalCount)%Z → (1 ≤ pageSize)%Z → (1 ≤ maxConcurrency)%Z →
  Z.to_nat (pageCount totalCount pageSize) < fuel →
  let run := Client.processPaginatedInParallel fuel totalCount pageSize readPage
               maxConcurrency in
  run.1 !! k = Some page →
  (∀ e, failsWith (readPage k page) e →
     (∃ j page' e', run.1 !! j = Some page' ∧ failsWith (readPage j page') e' ∧
                    firstToFail readPage run.1 j ∧ run.2 = Some (Rejects e')) ∧
     (firstToFail readPage run.1 k → run.2 = Some (Rejects e)) ∧
     ((∀ k' page' e', run.1 !! k' = Some page' →
                      failsWith (readPage k' page') e' → k' = k) →
      run.2 = Some (Rejects e))) ∧
  (readPage k page = Hangs →
   (∀ j page' e, run.1 !! j = Some page' → ¬ failsWith (readPage j page') e) →
   run.2 = Some NeverSettles).
Proof.
  intros Htc Hps Hmc Hfuel run Hk.
  set (pages := pageArgs totalCount pageSize 0 (pageCount totalCount pageSize)).
  pose proof (pageCount_nonneg totalCount pageSize Htc Hps) as Hn.
  assert (length pages = Z.to_nat (pageCount totalCount pageSize)) as Hlen.
  { unfold pages. by rewrite pageArgs_length. }
  destruct (waveLoop_unfulfilled (@concat T) (@concat_app T) eq_refl readPage
              pages (Z.to_nat maxConcurrency)
              ltac:(lia) fuel ltac:(lia)) as [Hfail Hhang].
  cbv zeta in Hfail, Hhang. unfold pages in Hfail, Hhang.
  rewrite <- client_pages_run in Hfail, Hhang by done. fold run in Hfail, Hhang.
  split.
  - intros e He.
    destruct (Hfail k page e Hk He) as (j & e' & Hfirst & Hrun & page' & Hj & He').
    assert (firstToFail readPage run.1 k → run.2 = Some (Rejects e)) as Hsame.
    { intros (page0 & e0 & Hk0 & _ & Hkfirst).
      destruct Hfirst as (page1 & e1 & Hj1 & _ & Hjfirst).
      rewrite Hk in Hk0. injection Hk0 as [= <-].
      rewrite Hj in Hj1. injection Hj1 as [= <-].
      rewrite Hrun. do 2 f_equal.
      assert (j = k) as ->.
      { destruct (Hkfirst j page' e' Hj He') as [?|Hbefore]; [done|].
        destruct (Hjfirst k page e Hk He) as [?|Hbefore']; [done|].
        exfalso. by eapply failsBefore_asym. }
      rewrite Hk in Hj. injection Hj as [= <-]. by eapply failsWith_inj. }
    split_and!; [exists j, page', e'; by split_and!|done|].
    intros Honly. apply Hsame. exists page, e. split_and!; [done|done|].
    intros k' page'' e'' Hk' Hfail'. left. by eapply Honly.
  - intros Hhangs Hnofail. by apply (Hhang k page).
Qed.

End Waves.

Lemma chunk_calls_in_waves_witness :
  length (Client.processChunksInParallel 10 [1; 2; 3; 4; 5]%Z 1 secondFails 2).1 ≤ 2.
Proof.
  destruct (chunk_calls_in_waves [1; 2; 3; 4; 5]%Z 1 secondFails 2 10)
    as (_ & _ & Hstop); [lia|lia|simpl; lia|].
  apply (Hstop 1 [2]%Z); [reflexivity|].
  intros v [t Hv]. discriminate.
Defined.

Lemma chunk_call_that_hangs_witness :
  (Client.processChunksInParallel 10 [1; 2; 3; 4; 5; 6]%Z 1 thirdHangs 2).2
    = Some NeverSettles.
Proof.
  apply (chunk_call_that_hangs [1; 2; 3; 4; 5; 6]%Z 1 thirdHangs 2 10 2 [3]%Z);
    [lia|lia|simpl; lia|reflexivity|reflexivity|].
  intros [|[|[|[|j]]]] chunk' e Hchunk [Hfails|[t Hfails]]; try discriminate;
    injection Hchunk as [= <-]; discriminate.
Defined.

Lemma page_reads_in_waves_witness :
  length (Client.processPaginatedInParallel 10 10 3 secondReadThrows 2).1 ≤ 2.
Proof.
  destruct (page_reads_in_waves 10 3 secondReadThrows 2 10)
    as (_ & _ & Hstop); [lia|lia|lia|vm_compute; lia|].
  apply (Hstop 1 (3, 3)%Z); [reflexivity|].
  intros v [t Hv]. discriminate.
Defined.

Lemma page_read_that_fails_witness :
  (Client.processPaginatedInParallel 10 10 3 secondReadThrows 2).2
    = Some (Rejects "offline"%string).
Proof.
  destruct (page_read_that_fails 10 3 secondReadThrows 2 10 1 (3, 3)%Z)
    as [Hfail _]; [lia|lia|lia|vm_compute; lia|reflexivity|].
  destruct (Hfail "offline"%string) as (_ & _ & Honly); [by left|].
  apply Honly.
  intros [|[|k']] page' e' Hpage [Hfails|[t Hfails]]; try discriminate;
    try reflexivity; injection Hpage as [= <-]; discriminate.
Defined.

(** ** Pages: reading a data set, and arguments that are not validated *)

Section PagesOfData.
Context {E T : Type}.

Lemma page_slice_chunk (data : list T) pageSize (i : nat) :
  (1 ≤ pageSize)%Z → (Z.of_nat i * pageSize < Z.of_nat (length data))%Z →
  let offset := (Z.of_nat i * pageSize)%Z in
  let limit := Z.min pageSize (Z.of_nat (length data) - offset) in
  Js.slice data offset (offset + limit) =
    Js.slice data (Z.of_nat i * pageSize) ((Z.of_nat i + 1) * pageSize).
Proof.
  intros Hps Hi offset limit. unfold offset, limit.
  rewrite !slice_nonneg by lia.
  destruct (decide (pageSize ≤ Z.of_nat (length data) - Z.of_nat i * pageSize)%Z).
  - f_equal. lia.
  - rewrite !take_ge; [done|rewrite length_drop; lia..].
Qed.

(** X8.  Reading by pages a source that serves the slices of a data set
    gives the data set back: for [totalCount = data.length] and a [readPage]
    that fulfils with [data.slice(offset, offset + limit)], whatever the
    instants and for every [pageSize >= 1] and [maxConcurrency >= 1], the
    page results are the chunks of [chunkArray(data, pageSize)] and
    [processPaginatedInParallel] returns [data]. *)
Theorem paginated_read_round_trip (data : list T) (pageSize : Z)
    (readPage : AsyncFn (E:=E) (Z * Z) (list T)) (maxConcurrency : Z) (fuel : nat) :
  (1 ≤ pageSize)%Z → (1 ≤ maxConcurrency)%Z → length data < fuel →
  (∀ n offset limit, ∃ t,
     readPage n (offset, limit) =
       Settles t (Fulfilled (Js.slice data offset (offset + limit)))) →
  let totalCount := Z.of_nat (length data) in
  (∃ chunks, chunkArray fuel data pageSize = Some chunks ∧
     resultsInOrder readPage
       (pageArgs totalCount pageSize 0 (pageCount totalCount pageSize)) chunks) ∧
  (Client.processPaginatedInParallel fuel totalCount pageSize readPage
     maxConcurrency).2 = Some (Resolves data).
Proof.
  intros Hps Hmc Hfuel Hread totalCount.
  set (pages := pageArgs totalCount pageSize 0 (pageCount totalCount pageSize)).
  pose proof (pageCount_nonneg totalCount pageSize ltac:(lia) Hps) as Hn.
  assert (length pages = Z.to_nat (pageCount totalCount pageSize)) as Hlen.
  { unfold pages. by rewrite pageArgs_length. }
  assert (resultsInOrder readPage pages (chunksOf data pageSize)) as Hall.
  { split; [by rewrite chunksOf_length, Hlen|].
    intros i page Hi.
    assert (Z.of_nat i < pageCount totalCount pageSize)%Z as Hlt.
    { apply lookup_lt_Some in Hi. lia. }
    unfold pages in Hi. rewrite pageArgs_lookup in Hi by done.
    injection Hi as [= <-].
    destruct (Hread i (Z.of_nat i * pageSize)%Z
                (Z.min pageSize (totalCount - Z.of_nat i * pageSize))) as [t Ht].
    exists t, (Js.slice data (Z.of_nat i * pageSize) ((Z.of_nat i + 1) * pageSize)).
    split.
    - apply chunksOf_lookup; [done|]. rewrite chunksOf_length by done.
      unfold chunkCount. unfold pageCount, totalCount in Hlt. lia.
    - rewrite Ht. do 2 f_equal. apply page_slice_chunk; [done|].
      by apply pageCount_spec; [|lia|]. }
  split.
  - exists (chunksOf data pageSize). split; [by apply chunkArray_closed|done].
  - pose proof (chunksOf_length_le data pageSize Hps) as Hle.
    rewrite chunksOf_length in Hle by done.
    rewrite client_pages_run; [|lia|done|done|].
    2:{ unfold pageCount, totalCount. unfold chunkCount in Hle. lia. }
    apply resultsInOrder_Forall2 in Hall.
    pose proof (waveLoop_fulfilled (@concat T) (@concat_app T) eq_refl readPage
                  pages (Z.to_nat maxConcurrency) ltac:(lia) fuel 0 []
                  (chunksOf data pageSize)) as Hrun.
    assert (length pages < fuel) as Hpages.
    { rewrite Hlen. unfold pageCount, totalCount. unfold chunkCount in Hle. lia. }
    rewrite take_0, drop_0 in Hrun. fold pages. rewrite Hrun; [|lia|done].
    simpl. by rewrite chunksOf_concat.
Qed.

End PagesOfData.

Section PagesUnchecked.
Context {E T : Type}.

Lemma ceil_div_not_positive (totalCount pageSize : Z) :
  (totalCount ≤ 0 ∧ 0 ≤ pageSize)%Z ∨ (0 ≤ totalCount ∧ pageSize < 0)%Z →
  Js.ltb 0 (Js.ceil_div totalCount pageSize) = false.
Proof.
  intros Hargs. unfold Js.ceil_div, Js.divided.
  destruct (Z.eqb_spec pageSize 0) as [->|Hps].
  - destruct (Z.eqb_spec totalCount 0); [done|].
    destruct (Z.ltb_spec 0 totalCount); [lia|done].
  - simpl. apply Z.ltb_ge.
    assert (0 ≤ - totalCount / pageSize)%Z; [|lia].
    destruct Hargs as [[? ?]|[? ?]].
    + apply Z.div_pos; lia.
    + rewrite <- (Z.opp_involutive pageSize), Z.div_opp_opp by lia.
      apply Z.div_pos; lia.
Qed.

Lemma processPaginated_loop_stalls {W} fuel (totalCount pageSize : Z)
    (cb : Callback (W:=W) (E:=E) (Z * Z) (list T)) (maxConcurrency n i : Z)
    acc (w : W) :
  (maxConcurrency ≤ 0)%Z → (i < n)%Z →
  processPaginated_loop fuel totalCount pageSize cb maxConcurrency (Js.Fin n) i acc w
    = (w, None).
Proof.
  intros Hmc. revert i acc. induction fuel as [|fuel IH]; intros i acc Hi; [done|].
  cbn [processPaginated_loop Js.ltb Js.min startPages].
  destruct (Z.ltb_spec i n); [|lia].
  destruct (Z.ltb_spec i (Z.min (i + maxConcurrency) n)); [lia|].
  rewrite PromiseAll_nil. apply IH. lia.
Qed.

Lemma startPages_zero_size fuel totalCount
    (readPage : AsyncFn (E:=E) (Z * Z) (list T)) (p : Z) batchEnd rs log :
  (0 < totalCount)%Z → Forall (λ page, page = (0, 0)%Z) log →
  let started := startPages fuel totalCount 0 (observe id appendCall readPage)
                   p batchEnd (promiseOfReply <$> rs) log in
  Forall (λ page, page = (0, 0)%Z) started.1 ∧
  ∀ ps, started.2 = Some (Normal ps) → ∃ rs', ps = promiseOfReply <$> rs'.
Proof.
  intros Htc. revert p rs log. induction fuel as [|fuel IH]; intros p rs log Hlog.
  { by split. }
  cbn [startPages]. destruct (Js.ltb p batchEnd).
  2:{ split; [done|]. intros ps [= <-]. by exists rs. }
  rewrite Z.mul_0_r, Z.sub_0_r, Z.min_l by lia.
  assert (Forall (λ page, page = (0, 0)%Z) (appendCall (0, 0)%Z log)) as Hlog'.
  { unfold appendCall. apply Forall_app. by split; [|constructor]. }
  assert (observe id appendCall readPage (0, 0)%Z log =
            (appendCall (0, 0)%Z log,
             match readPage (length log) (0, 0)%Z with
             | ThrowsSync e => Throw e
             | reply => Normal (promiseOfReply reply)
             end)) as ->.
  { unfold observe. cbn [id]. by destruct (readPage _ _). }
  destruct (readPage (length log) (0, 0)%Z) as [e|t r|] eqn:Hreply.
  - by split.
  - specialize (IH (p + 1)%Z (rs ++ [Settles t r]) _ Hlog').
    by rewrite fmap_app in IH.
  - specialize (IH (p + 1)%Z (rs ++ [Hangs]) _ Hlog').
    by rewrite fmap_app in IH.
Qed.

Lemma processPaginated_loop_zero_size fuel totalCount
    (readPage : AsyncFn (E:=E) (Z * Z) (list T)) (maxConcurrency i : Z) acc log :
  (0 < totalCount)%Z → Forall (λ page, page = (0, 0)%Z) log →
  let run := processPaginated_loop fuel totalCount 0
               (observe id appendCall readPage) maxConcurrency Js.PosInf i acc log in
  Forall (λ page, page = (0, 0)%Z) run.1 ∧ ∀ results, run.2 ≠ Some (Resolves results).
Proof.
  intros Htc. revert i acc log. induction fuel as [|fuel IH]; intros i acc log Hlog.
  { by split. }
  cbn [processPaginated_loop Js.ltb Js.min].
  destruct (startPages_zero_size (S fuel) totalCount readPage i
              (Js.Fin (i + maxConcurrency)) [] log Htc Hlog) as [Hlog1 Hps].
  cbv zeta in Hlog1, Hps. rewrite fmap_nil in Hlog1, Hps.
  destruct (startPages (S fuel) _ _ _ _ _ _ _) as [w1 [[ps|e]|]]; simpl in Hlog1, Hps.
  - destruct (Hps ps eq_refl) as [rs ->].
    pose proof (PromiseAll_pure_state (E:=E) rs w1) as Hstate.
    destruct (PromiseAll _ w1) as [w2 [vs|e|]]; simpl in Hstate; subst w2.
    + by apply IH.
    + by split.
    + by split.
  - by split.
  - by split.
Qed.

(** X9.  [processPaginatedInParallel] validates nothing and raises no error
    of its own.  When [totalCount <= 0] and [pageSize >= 0], or
    [totalCount >= 0] and [pageSize < 0], it returns the empty sequence and
    reads nothing, whatever [maxConcurrency].  With [pageSize = 0] and
    [totalCount > 0] it never returns a result, and every read it makes is
    [readPage(0, 0)].  With [totalCount > 0], [pageSize >= 1] and
    [maxConcurrency <= 0] it loops for ever without a read. *)
Theorem paginated_arguments_unchecked (totalCount pageSize : Z)
    (readPage : AsyncFn (E:=E) (Z * Z) (list T)) (maxConcurrency : Z) :
  let run fuel := Client.processPaginatedInParallel fuel totalCount pageSize readPage
                    maxConcurrency in
  ((totalCount ≤ 0 ∧ 0 ≤ pageSize)%Z ∨ (0 ≤ totalCount ∧ pageSize < 0)%Z →
     ∀ fuel, run (S fuel) = ([], Some (Resolves []))) ∧
  ((0 < totalCount)%Z → pageSize = 0%Z → ∀ fuel,
     (∀ results, (run fuel).2 ≠ Some (Resolves results)) ∧
     ∀ page, page ∈ (run fuel).1 → page = (0, 0)%Z) ∧
  ((0 < totalCount)%Z → (1 ≤ pageSize)%Z → (maxConcurrency ≤ 0)%Z →
     ∀ fuel, run fuel = ([], None)).
Proof.
  intros run. unfold run, Client.processPaginatedInParallel, processPaginatedInParallel.
  split_and!.
  - intros Hargs fuel. cbn [processPaginated_loop].
    by rewrite ceil_div_not_positive.
  - intros Htc -> fuel.
    assert (Js.ceil_div totalCount 0 = Js.PosInf) as ->.
    { unfold Js.ceil_div, Js.divided. simpl.
      destruct (Z.eqb_spec totalCount 0); [lia|].
      destruct (Z.ltb_spec 0 totalCount); [done|lia]. }
    destruct (processPaginated_loop_zero_size fuel totalCount readPage
                maxConcurrency 0 [] [] Htc) as [Hlog Hnone]; [constructor|].
    split; [done|]. intros page Hpage.
    by apply (proj1 (Forall_forall _ _) Hlog).
  - intros Htc Hps Hmc fuel. rewrite ceil_div_pos by done.
    apply processPaginated_loop_stalls; [done|].
    by apply pageCount_spec.
Qed.

End PagesUnchecked.


Lemma paginated_read_round_trip_witness :
  (Client.processPaginatedInParallel 10 5 2 (servesSlices [5; 7; 9; 11; 13]%Z) 2).2
    = Some (Resolves [5; 7; 9; 11; 13]%Z).
Proof.
  apply (paginated_read_round_trip [5; 7; 9; 11; 13]%Z 2
           (servesSlices [5; 7; 9; 11; 13]%Z) 2 10); [lia|lia|simpl; lia|].
  intros n offset limit. by exists (10 - n).
Defined.

Lemma paginated_arguments_unchecked_witness :
  Client.processPaginatedInParallel 7 5 3 readRange 0 = ([], None) ∧
  Client.processPaginatedInParallel 7 5 (-3) readRange 2 = ([], Some (Resolves [])).
Proof.
  split.
  - apply (paginated_arguments_unchecked 5 3 readRange 0); lia.
  - apply (paginated_arguments_unchecked 5 (-3) readRange 2). lia.
Defined.

(** ** Sums over chunks *)

Section SumOfMeasure.
Context {E T : Type}.

Lemma sumZ_measure_concat (measure : list T → Z) (chunks : list (list T)) :
  measure [] = 0%Z → (∀ l k, measure (l ++ k) = (measure l + measure k)%Z) →
  sumZ (measure <$> chunks) = measure (concat chunks).
Proof.
  intros Hnil Happ. induction chunks as [|chunk chunks IH]; [done|].
  rewrite fmap_cons. unfold sumZ in *. cbn [foldr concat]. by rewrite IH, Happ.
Qed.

(** X10.  [processChunksInParallelWithSum] does not depend on how the items
    are cut: when [processChunk] fulfils with an additive measure of its
    chunk (a sum, a count), the call returns the measure of all the items,
    for every [chunkSize >= 1] and [maxConcurrency >= 1] and whatever the
    instants at which the calls complete. *)
Theorem sum_independent_of_chunking (items : list T) (chunkSize : Z)
    (processChunk : AsyncFn (E:=E) (list T) Z) (maxConcurrency : Z) (fuel : nat)
    (measure : list T → Z) :
  (1 ≤ chunkSize)%Z → (1 ≤ maxConcurrency)%Z → length items < fuel →
  measure [] = 0%Z → (∀ l k, measure (l ++ k) = (measure l + measure k)%Z) →
  (∀ n chunk, ∃ t, processChunk n chunk = Settles t (Fulfilled (measure chunk))) →
  (Client.processChunksInParallelWithSum fuel items chunkSize processChunk
     maxConcurrency).2 = Some (Resolves (measure items)).
Proof.
  intros Hcs Hmc Hfuel Hnil Happ Hcall.
  rewrite (client_sum_run fuel items chunkSize processChunk maxConcurrency
             (measure <$> chunksOf items chunkSize)); [|done..|].
  - simpl. by rewrite sumZ_measure_concat, chunksOf_concat.
  - split; [by rewrite length_fmap|].
    intros i chunk Hi. destruct (Hcall i chunk) as [t Ht].
    exists t, (measure chunk). split; [|done].
    by rewrite list_lookup_fmap, Hi.
Qed.

End SumOfMeasure.


Lemma sum_independent_of_chunking_witness :
  (Client.processChunksInParallelWithSum 10 [4; 8; 15; 16; 23; 42]%Z 4
     countsChunk 3).2 = Some (Resolves 6%Z).
Proof.
  apply (sum_independent_of_chunking [4; 8; 15; 16; 23; 42]%Z 4 countsChunk 3 10
           (λ l, Z.of_nat (length l))); [lia|lia|simpl; lia|done| |].
  - intros l k. rewrite length_app. lia.
  - intros n chunk. by exists (7 - n).
Defined.

(** ** Progress reports, wave by wave *)

Section ProgressWaves.
Context {E T : Type}.
Context (totalCount pageSize : Z) (readPage : AsyncFn (E:=E) (Z * Z) (list T)).
Context (onProgress : option (SyncFn (E:=E) ProgressArgs)).
Context (pageResults : list (list T)) (c : nat).

Let n := pageCount totalCount pageSize.
Let pages := pageArgs totalCount pageSize 0 n.
Let supplied : bool := match onProgress with Some _ => true | None => false end.
Let cb := readPageWithProgress pageSize (Js.Fin n)
            (observe Client.reads Client.recordRead readPage)
            (observeSync Client.reports Client.recordReport <$> onProgress).

Hypothesis Htc : (0 ≤ totalCount)%Z.
Hypothesis Hps : (1 ≤ pageSize)%Z.
Hypothesis Hc : 1 ≤ c.
Hypothesis Hreads : resultsInOrder readPage pages pageResults.
Hypothesis Hquiet : ∀ f, onProgress = Some f → ∀ i args, f i args = None.

(** The order in which the pages complete goes wave by wave. *)
Lemma progress_loop_waves fuel (I : nat) acc log rp :
  length pages - I < fuel →
  Client.reads log = take I pages →
  ∃ order, order ≡ₚ seq I (length pages - I) ∧
    (∀ a b p q, a < b → order !! a = Some p → order !! b = Some q →
                (p - I) / c ≤ (q - I) / c) ∧
    waveLoop (@concat T) fuel pages cb c I acc (log, rp) =
      (({| Client.reads := pages;
           Client.reports :=
             Client.reports log ++
             (if supplied then progressReports n pageResults order rp else []) |},
        (rp + recordsIn pageResults order)%Z),
       Some (Resolves (acc ++ concat (drop I pageResults)))).
Proof.
  revert I acc log rp.
  induction fuel as [|fuel IH]; intros I acc log rp Hfuel Hlog; [lia|].
  cbn [waveLoop]. destruct Hreads as [Hrlen _].
  destruct (Nat.ltb_spec I (length pages)) as [Hlt|Hge].
  2:{ exists []. replace (length pages - I) with 0 by lia. split_and!; [done|done|].
      rewrite take_ge in Hlog by done.
      rewrite drop_ge by lia. simpl. unfold recordsIn. simpl.
      rewrite !app_nil_r, Z.add_0_r.
      destruct supplied; rewrite ?app_nil_r; destruct log; simpl in *; by subst. }
  assert (length (Client.reads log) = I) as Hlen.
  { rewrite Hlog, length_take. lia. }
  destruct (wave_progress totalCount pageSize readPage onProgress pageResults c
              Htc Hps Hc Hreads Hquiet I log rp ltac:(fold n pages; lia) Hlen)
    as (order1 & Hperm1 & Hwave).
  fold n pages cb supplied in Hperm1, Hwave. rewrite Hwave.
  rewrite (foldl_step totalCount pageSize onProgress pageResults c Hc).
  fold n supplied. simpl.
  destruct (IH (I + c) (acc ++ concat (take c (drop I pageResults)))
              {| Client.reads := Client.reads log ++ take c (drop I pages);
                 Client.reports :=
                   Client.reports log ++
                   (if supplied then progressReports n pageResults order1 rp else []) |}
              (rp + recordsIn pageResults order1)%Z)
    as (order2 & Hperm2 & Hwaves2 & ->); [lia|simpl; by rewrite Hlog, take_take_drop|].
  assert (∀ p, p ∈ order1 → I ≤ p < I + c) as Hin1.
  { intros p Hp. rewrite Hperm1 in Hp. apply elem_of_seq in Hp.
    rewrite length_take in Hp. lia. }
  assert (∀ q, q ∈ order2 → I + c ≤ q) as Hin2.
  { intros q Hq. rewrite Hperm2 in Hq. apply elem_of_seq in Hq. lia. }
  assert (∀ q, I + c ≤ q → (q - I) / c = S ((q - (I + c)) / c)) as Hdiv.
  { intros q Hq. replace (q - I) with ((q - (I + c)) + 1 * c) by lia.
    rewrite Nat.div_add by lia. lia. }
  exists (order1 ++ order2). split_and!.
  - rewrite Hperm1, Hperm2, length_take, length_drop.
    destruct (decide (c ≤ length pages - I)).
    + replace (c `min` (length pages - I)) with c by lia.
      rewrite <- seq_app.
      by replace (c + (length pages - (I + c))) with (length pages - I) by lia.
    + replace (c `min` (length pages - I)) with (length pages - I) by lia.
      replace (length pages - (I + c)) with 0 by lia. simpl.
      by rewrite app_nil_r.
  - intros a b p q Hab Ha Hb.
    apply lookup_app_Some in Ha as [Ha|[Ha1 Ha]].
    + apply list_elem_of_lookup_2, Hin1 in Ha.
      rewrite (Nat.div_small (p - I) c) by lia. lia.
    + apply lookup_app_Some in Hb as [Hb|[Hb1 Hb]].
      { apply lookup_lt_Some in Hb. lia. }
      pose proof (Hwaves2 (a - length order1) (b - length order1) p q
                    ltac:(lia) Ha Hb) as Hle.
      apply list_elem_of_lookup_2, Hin2 in Ha.
      apply list_elem_of_lookup_2, Hin2 in Hb.
      rewrite (Hdiv p), (Hdiv q) by done. lia.
  - simpl. f_equal.
    + f_equal.
      * f_equal. rewrite progressReports_app.
        destruct supplied; by rewrite <- app_assoc.
      * rewrite recordsIn_app. lia.
    + do 2 f_equal. rewrite <- app_assoc, <- concat_app, <- drop_drop, take_drop.
      done.
Qed.

End ProgressWaves.

Section ProgressOrder.
Context {E T : Type}.

Lemma recordsIn_nonneg (pageResults : list (list T)) order :
  (0 ≤ recordsIn pageResults order)%Z.
Proof.
  unfold recordsIn, sumZ, pageLength.
  induction order as [|p order IH]; [done|].
  rewrite fmap_cons. cbn [foldr]. lia.
Qed.

Lemma recordsIn_take_le (pageResults : list (list T)) order (i j : nat) :
  i ≤ j →
  (recordsIn pageResults (take i order) ≤ recordsIn pageResults (take j order))%Z.
Proof.
  intros Hij. rewrite <- (take_drop i (take j order)), take_take.
  replace (i `min` j) with i by lia. rewrite recordsIn_app.
  pose proof (recordsIn_nonneg pageResults (drop i (take j order))). lia.
Qed.

Lemma recordsIn_take_S (pageResults : list (list T)) order (j q : nat) :
  order !! j = Some q →
  recordsIn pageResults (take (S j) order) =
    (recordsIn pageResults (take j order) + pageLength pageResults q)%Z.
Proof.
  intros Hq. rewrite (take_S_r _ _ _ Hq), recordsIn_app.
  unfold recordsIn at 2, sumZ. simpl. lia.
Qed.

(** X11.  Under the conditions of a successful run, every progress report
    of [processPaginatedWithProgress] names a page between 1 and
    [totalPages]; the reports never name a page twice, never go back to an
    earlier wave (a page is reported only after every page of the waves
    before its own), and their record counts never decrease: from one
    report to a later one the count grows by at least the length of the
    later page, and it never exceeds the number of records returned. *)
Theorem progress_reports_by_wave (totalCount pageSize : Z)
    (readPage : AsyncFn (E:=E) (Z * Z) (list T)) (maxConcurrency : Z)
    (onProgress : SyncFn (E:=E) ProgressArgs)
    (pageResults : list (list T)) (fuel : nat) :
  (0 ≤ totalCount)%Z → (1 ≤ pageSize)%Z → (1 ≤ maxConcurrency)%Z →
  Z.to_nat (pageCount totalCount pageSize) < fuel →
  let totalPages := pageCount totalCount pageSize in
  let pages := pageArgs totalCount pageSize 0 totalPages in
  resultsInOrder readPage pages pageResults →
  (∀ i args, onProgress i args = None) →
  let run := Client.processPaginatedWithProgress fuel totalCount pageSize
               readPage maxConcurrency (Some onProgress) in
  let reports := Client.reports run.1.1 in
  let c := Z.to_nat maxConcurrency in
  (∀ i report, reports !! i = Some report →
     ∃ p : nat,
       report.1.1 = Js.Fin (Z.of_nat p + 1) ∧ report.1.2 = Js.Fin totalPages ∧
       (Z.of_nat p < totalPages)%Z ∧
       (pageLength pageResults p ≤ report.2)%Z ∧
       (report.2 ≤ Z.of_nat (length (concat pageResults)))%Z) ∧
  (∀ i j report report', i < j →
     reports !! i = Some report → reports !! j = Some report' →
     ∃ p q : nat,
       report.1.1 = Js.Fin (Z.of_nat p + 1) ∧ report'.1.1 = Js.Fin (Z.of_nat q + 1) ∧
       (Z.of_nat p < totalPages)%Z ∧ (Z.of_nat q < totalPages)%Z ∧
       p ≠ q ∧ p / c ≤ q / c ∧
       (0 ≤ report.2)%Z ∧ (report.2 + pageLength pageResults q ≤ report'.2)%Z ∧
       (report'.2 ≤ Z.of_nat (length (concat pageResults)))%Z).
Proof.
  intros Htc Hps Hmc Hfuel totalPages pages Hreads Hquiet run reports c.
  pose proof (pageCount_nonneg totalCount pageSize Htc Hps) as Hn.
  assert (length pages = Z.to_nat totalPages) as Hlen by (by apply pageArgs_length).
  destruct (progress_loop_waves totalCount pageSize readPage (Some onProgress)
              pageResults c Htc Hps ltac:(lia) Hreads
              ltac:(by intros f [= <-]) fuel 0 []
              {| Client.reads := []; Client.reports := [] |} 0%Z)
    as (order & Hperm & Hwaves & Hrun); [fold totalPages pages; lia|done|].
  fold totalPages pages in Hperm, Hrun.
  rewrite Nat.sub_0_r, Hlen in Hperm.
  assert (reports = progressReports totalPages pageResults order 0) as Hreports.
  { unfold reports, run, Client.processPaginatedWithProgress,
      processPaginatedWithProgress, processPaginatedInParallel.
    rewrite ceil_div_pos by done.
    rewrite processPaginated_loop_waveLoop by (simpl; lia).
    change (Z.to_nat 0) with 0. fold totalPages pages c.
    by rewrite Hrun. }
  assert (NoDup order) as Hnodup by (rewrite Hperm; apply NoDup_seq).
  assert (∀ i p, order !! i = Some p → p < Z.to_nat totalPages) as Hpage.
  { intros i p Hp. apply list_elem_of_lookup_2 in Hp. rewrite Hperm in Hp.
    apply elem_of_seq in Hp. lia. }
  assert (∀ i p, order !! i = Some p →
            (recordsIn pageResults (take (S i) order)
               ≤ Z.of_nat (length (concat pageResults)))%Z) as Hmax.
  { intros i p Hp.
    pose proof (recordsIn_take_le pageResults order (S i) (length order) ltac:(
      apply lookup_lt_Some in Hp; lia)) as Hle.
    rewrite firstn_all in Hle. rewrite (recordsIn_perm _ _ _ Hperm) in Hle.
    destruct Hreads as [Hrlen _]. by rewrite <- Hlen, <- Hrlen, recordsIn_all in Hle. }
  split.
  - intros i report Hi. rewrite Hreports in Hi.
    apply progressReports_lookup in Hi as (p & Hp & ->).
    exists p. cbn [fst snd].
    pose proof (Hpage i p Hp). pose proof (Hmax i p Hp).
    split_and!; [done|done|lia| |lia].
    rewrite (recordsIn_take_S pageResults order i p Hp).
    pose proof (recordsIn_nonneg pageResults (take i order)). lia.
  - intros i j report report' Hij Hi Hj. rewrite Hreports in Hi, Hj.
    apply progressReports_lookup in Hi as (p & Hp & ->).
    apply progressReports_lookup in Hj as (q & Hq & ->).
    exists p, q. cbn [fst snd].
    pose proof (Hpage i p Hp). pose proof (Hpage j q Hq). pose proof (Hmax j q Hq).
    split_and!; [done|done|lia|lia| | | | |lia].
    + intros ->. pose proof (NoDup_lookup _ _ _ _ Hnodup Hp Hq). lia.
    + pose proof (Hwaves i j p q Hij Hp Hq) as Hle. by rewrite !Nat.sub_0_r in Hle.
    + pose proof (recordsIn_nonneg pageResults (take (S i) order)). lia.
    + rewrite (recordsIn_take_S pageResults order j q Hq).
      pose proof (recordsIn_take_le pageResults order (S i) j ltac:(lia)). lia.
Qed.

End ProgressOrder.

Lemma progress_reports_by_wave_witness :
  ∃ p q : nat,
    Js.Fin 1 = Js.Fin (Z.of_nat p + 1) ∧ Js.Fin 4 = Js.Fin (Z.of_nat q + 1) ∧
    (Z.of_nat p < 4)%Z ∧ (Z.of_nat q < 4)%Z ∧ p ≠ q ∧ p / 2 ≤ q / 2.
Proof.
  destruct (progress_reports_by_wave 10 3 readRange 2 quietProgress
              [[0; 1; 2]; [3; 4; 5]; [6; 7; 8]; [9]]%Z 10
              ltac:(lia) ltac:(lia) ltac:(lia) ltac:(vm_compute; lia)
              ltac:(check_each_call) ltac:(done)) as [_ Hpairs].
  destruct (Hpairs 1 2 (Js.Fin 1, Js.Fin 4, 6%Z) (Js.Fin 4, Js.Fin 4, 7%Z)
              ltac:(lia) eq_refl eq_refl)
    as (p & q & Hp & Hq & Hpn & Hqn & Hne & Hwave & _).
  by exists p, q.
Defined.

(** ** An [onProgress] that throws *)

Section ProgressThrows.
Context {E T : Type}.
Context (totalCount pageSize : Z) (readPage : AsyncFn (E:=E) (Z * Z) (list T)).
Context (onProgress : SyncFn (E:=E) ProgressArgs) (e : E).
Context (pageResults : list (list T)) (c : nat).

Let n := pageCount totalCount pageSize.
Let pages := pageArgs totalCount pageSize 0 n.
Let cb := readPageWithProgress pageSize (Js.Fin n)
            (observe Client.reads Client.recordRead readPage)
            (Some (observeSync Client.reports Client.recordReport onProgress)).
Let start (p : nat) (s : Client.PagerLog * Z) : Client.PagerLog * Z :=
  (Client.recordRead (default (0, 0)%Z (pages !! p)) s.1, s.2).
Let firstReport (p : nat) (count : Z) : ProgressArgs :=
  (Js.Fin (Z.of_nat p + 1), Js.Fin n, (count + pageLength pageResults p)%Z).
Let rejecting (p : nat)
    (react : Client.PagerLog * Z → Client.PagerLog * Z * Settled (E:=E) (list T))
  : Prop :=
  ∀ s, Client.reports s.1 = [] →
       react s = ((Client.recordReport (firstReport p s.2) s.1,
                   (s.2 + pageLength pageResults p)%Z), Rejected e).

Hypothesis Htc : (0 < totalCount)%Z.
Hypothesis Hps : (1 ≤ pageSize)%Z.
Hypothesis Hc : 1 ≤ c.
Hypothesis Hreads : resultsInOrder readPage pages pageResults.
Hypothesis Hthrow : ∀ args, onProgress 0 args = Some e.

Lemma throwing_wrapper_call p arg log rp :
  pages !! p = Some arg → length (Client.reads log) = p →
  ∃ t react,
    cb arg (log, rp) = (start p (log, rp), Normal (SettlesAt t react)) ∧
    rejecting p react.
Proof.
  intros Hp Hlen. destruct Hreads as [_ Hall].
  destruct (Hall p arg Hp) as (t & r & Hr & Hfn).
  assert (Z.of_nat p < n)%Z as Hpn.
  { apply lookup_lt_Some in Hp. unfold pages in Hp.
    rewrite pageArgs_length in Hp; [lia|]. apply pageCount_nonneg; lia. }
  unfold pages in Hp. rewrite pageArgs_lookup in Hp by done.
  injection Hp as [= <-].
  unfold cb, readPageWithProgress, observe, start. simpl.
  rewrite Hlen, Hfn. unfold pages. rewrite pageArgs_lookup by done. simpl.
  eexists _, _. split; [reflexivity|].
  intros [w count] Hempty. simpl in Hempty.
  unfold firstReport, pageLength. rewrite Hr. simpl.
  unfold Js.floor_div, Js.divided.
  destruct (Z.eqb_spec pageSize 0); [lia|].
  rewrite Z.div_mul by lia. simpl.
  unfold observeSync. rewrite Hempty. simpl. by rewrite Hthrow.
Qed.

(** The first wave: every page of it is read, and the first page to
    complete makes [onProgress] throw. *)
Lemma first_wave_rejects :
  let wave := take c pages in
  ∃ p, p < length wave ∧
    awaitAll cb wave ({| Client.reads := []; Client.reports := [] |}, 0%Z) =
      (({| Client.reads := wave; Client.reports := [firstReport p 0] |},
        (0 + pageLength pageResults p)%Z), Rejects e).
Proof.
  intros wave.
  assert (1 ≤ length pages) as Hpages.
  { unfold pages. rewrite pageArgs_length.
    - assert (0 < n)%Z; [|lia]. by apply pageCount_spec.
    - apply pageCount_nonneg; lia. }
  assert (1 ≤ length wave ≤ length pages) as Hwave.
  { unfold wave. rewrite length_take. lia. }
  destruct (startAll_spec cb start
              (λ p pr, ∃ t react, pr = SettlesAt t react ∧ rejecting p react)
              (λ p s, length (Client.reads s.1) = p) 0 wave
              ({| Client.reads := []; Client.reports := [] |}, 0%Z))
    as (ps & Hstart & Hpslen & Hps' & _); [|done|].
  { intros j arg [log' rp'] Hj Hinv. simpl in Hinv.
    assert (pages !! j = Some arg) as Hpage.
    { unfold wave in Hj. by apply lookup_take_Some in Hj as [Hj _]. }
    destruct (throwing_wrapper_call j arg log' rp' Hpage Hinv)
      as (t & react & Hcall & Hreact).
    exists (SettlesAt t react). split_and!; [done|by exists t, react|].
    unfold start. simpl. rewrite Hpage. simpl. rewrite length_app, Hinv. simpl. lia. }
  unfold awaitAll. rewrite Hstart.
  rewrite (foldl_start totalCount pageSize c Hc 0 (length wave)) by (fold n pages; lia).
  fold n pages. rewrite drop_0. simpl.
  assert (take (length wave) pages = wave) as ->.
  { unfold wave. rewrite length_take.
    destruct (decide (c ≤ length pages)).
    - by rewrite Nat.min_l.
    - rewrite Nat.min_r by lia. by rewrite !take_ge by lia. }
  set (w1 := ({| Client.reads := wave; Client.reports := [] |}, 0%Z)).
  unfold PromiseAll, settleOrder.
  destruct (foldr insertByTime [] (timed 0 ps)) as [|[[t i] react] rest] eqn:Horder.
  { exfalso. pose proof (sort_perm (timed 0 ps)) as Hperm. rewrite Horder in Hperm.
    apply Permutation_nil_l in Hperm.
    destruct (lookup_lt_is_Some_2 ps 0 ltac:(lia)) as [p0 Hp0].
    destruct (Hps' 0 p0 Hp0) as (t0 & react0 & -> & _).
    assert ((t0, 0, react0) ∈ timed 0 ps) as Hin by (by apply timed_elem).
    rewrite <- Hperm in Hin. by apply elem_of_nil in Hin. }
  assert ((t, i, react) ∈ timed 0 ps) as Hin.
  { rewrite <- (sort_perm (timed 0 ps)), Horder. by left. }
  apply timed_elem in Hin as [_ Hin]. rewrite Nat.sub_0_r in Hin.
  destruct (Hps' _ _ Hin) as (t' & react' & [= <- <-] & Hreact).
  exists i. split.
  { apply lookup_lt_Some in Hin. lia. }
  cbn [settleAll]. by rewrite (Hreact w1 eq_refl).
Qed.

End ProgressThrows.

Section ProgressThrowsTheorem.
Context {E T : Type}.

(** X12.  An [onProgress] that throws makes the call fail: when the reads
    fulfil and the first invocation of [onProgress] throws, the call of
    [processPaginatedWithProgress] rejects with the thrown value and
    returns no result.  The pages of the first wave have all been read and
    no page of a later wave is read.  The invocation that threw is the
    report of a page of the first wave, with the length of that page's
    result as record count.  (What the code may still report for the other
    pages of that wave is left open.) *)
Theorem progress_callback_throws (totalCount pageSize : Z)
    (readPage : AsyncFn (E:=E) (Z * Z) (list T)) (maxConcurrency : Z)
    (onProgress : SyncFn (E:=E) ProgressArgs) (e : E)
    (pageResults : list (list T)) (fuel : nat) :
  (0 < totalCount)%Z → (1 ≤ pageSize)%Z → (1 ≤ maxConcurrency)%Z →
  Z.to_nat (pageCount totalCount pageSize) < fuel →
  let totalPages := pageCount totalCount pageSize in
  let pages := pageArgs totalCount pageSize 0 totalPages in
  resultsInOrder readPage pages pageResults →
  (∀ args, onProgress 0 args = Some e) →
  let run := Client.processPaginatedWithProgress fuel totalCount pageSize
               readPage maxConcurrency (Some onProgress) in
  run.2 = Some (Rejects e) ∧
  Client.reads run.1.1 = take (Z.to_nat maxConcurrency) pages ∧
  ∃ p : nat,
    p < Z.to_nat maxConcurrency ∧ (Z.of_nat p < totalPages)%Z ∧
    Client.reports run.1.1 !! 0 =
      Some (Js.Fin (Z.of_nat p + 1), Js.Fin totalPages, pageLength pageResults p).
Proof.
  intros Htc Hps Hmc Hfuel totalPages pages Hreads Hthrow run.
  pose proof (pageCount_nonneg totalCount pageSize ltac:(lia) Hps) as Hn.
  assert (0 < totalPages)%Z as Hpos by (by apply pageCount_spec).
  assert (length pages = Z.to_nat totalPages) as Hlen by (by apply pageArgs_length).
  destruct (first_wave_rejects totalCount pageSize readPage onProgress e pageResults
              (Z.to_nat maxConcurrency) Htc Hps ltac:(lia) Hreads Hthrow)
    as (p & Hp & Hwave).
  cbv zeta in Hp, Hwave. fold totalPages pages in Hp, Hwave.
  rewrite length_take in Hp.
  assert (run = (({| Client.reads := take (Z.to_nat maxConcurrency) pages;
                     Client.reports :=
                       [(Js.Fin (Z.of_nat p + 1), Js.Fin totalPages,
                         (0 + pageLength pageResults p)%Z)] |},
                  (0 + pageLength pageResults p)%Z),
                 Some (Rejects e))) as ->.
  { unfold run, Client.processPaginatedWithProgress, processPaginatedWithProgress,
      processPaginatedInParallel.
    rewrite ceil_div_pos by done.
    rewrite processPaginated_loop_waveLoop by (simpl; lia).
    change (Z.to_nat 0) with 0. fold totalPages pages.
    destruct fuel as [|fuel']; [lia|]. cbn [waveLoop].
    destruct (Nat.ltb_spec 0 (length pages)); [|lia].
    rewrite drop_0. simpl. by rewrite Hwave. }
  split_and!; [done|done|]. exists p. split_and!; [lia|lia|].
  simpl. by rewrite Z.add_0_l.
Qed.

End ProgressThrowsTheorem.

Lemma progress_callback_throws_witness :
  (Client.processPaginatedWithProgress 10 10 3 readRange 2 (Some failingProgress)).2
    = Some (Rejects "display closed"%string).
Proof.
  destruct (progress_callback_throws 10 3 readRange 2 failingProgress
              "display closed"%string [[0; 1; 2]; [3; 4; 5]; [6; 7; 8]; [9]]%Z 10)
    as (Hrun & _); [lia|lia|lia|vm_compute; lia| |done|exact Hrun].
  check_each_call.
Defined.

(** ** The keyed comparator: what every result satisfies *)

Section ComparatorShape.
Variable NumberToString : JsNumber → string.
Context (sourceList targetList : list JsValue).
Context (sourceKeySelector targetKeySelector : JsValue → Key).

Lemma compare_closed_form transformFound :
  let sourceItemOf targetItem :=
    mapGet (buildSourceMap NumberToString sourceList sourceKeySelector)
      (String NumberToString (targetKeySelector targetItem)) in
  compareListsByKey NumberToString sourceList targetList sourceKeySelector
    targetKeySelector transformFound =
    (omap (λ targetItem,
             if ToBoolean (sourceItemOf targetItem)
             then Some (emitFound transformFound (sourceItemOf targetItem) targetItem)
             else None) targetList,
     filter (λ targetItem, ToBoolean (sourceItemOf targetItem) = false) targetList).
Proof.
  intros sourceItemOf. unfold compareListsByKey.
  rewrite compare_fold. cbv zeta. by rewrite !app_nil_l.
Qed.

Lemma omap_filter_length {A B} (test : A → bool) (value : A → B) (l : list A) :
  length (omap (λ x, if test x then Some (value x) else None) l) +
  length (filter (λ x, test x = false) l) = length l.
Proof.
  induction l as [|x l IH]; [done|]. cbn [omap list_omap].
  destruct (test x) eqn:Htest.
  - rewrite filter_cons_False by (by rewrite Htest). simpl. lia.
  - rewrite filter_cons_True by done. simpl. lia.
Qed.

Lemma omap_zip_filter {A B C} (test : A → bool) (value : A → B)
    (combine : B → A → C) (l : list A) :
  omap (λ x, if test x then Some (combine (value x) x) else None) l =
    zip_with combine (omap (λ x, if test x then Some (value x) else None) l)
      (filter (λ x, test x = true) l).
Proof.
  induction l as [|x l IH]; [done|]. cbn [omap list_omap].
  destruct (test x) eqn:Htest.
  - rewrite filter_cons_True by done. simpl. by rewrite IH.
  - rewrite filter_cons_False by (by rewrite Htest). done.
Qed.

Lemma filter_true_length {A B} (test : A → bool) (value : A → B) (l : list A) :
  length (filter (λ x, test x = true) l) =
    length (omap (λ x, if test x then Some (value x) else None) l).
Proof.
  induction l as [|x l IH]; [done|]. cbn [omap list_omap].
  destruct (test x) eqn:Htest.
  - rewrite filter_cons_True by done. simpl. by rewrite IH.
  - rewrite filter_cons_False by (by rewrite Htest). done.
Qed.

Lemma filter_true_false_perm {A} (test : A → bool) (l : list A) :
  filter (λ x, test x = true) l ++ filter (λ x, test x = false) l ≡ₚ l.
Proof.
  induction l as [|x l IH]; [done|].
  destruct (test x) eqn:Htest.
  - rewrite filter_cons_True, (filter_cons_False (λ x, test x = false))
      by (by rewrite ?Htest). simpl. by rewrite IH.
  - rewrite filter_cons_False, (filter_cons_True (λ x, test x = false))
      by (by rewrite ?Htest). rewrite <- Permutation_middle. by rewrite IH.
Qed.

(** X13.  [compareListsByKey] sorts every target item into exactly one of
    its two lists: the lengths of [found] and [notFound] add up to the
    length of the target list, [notFound] is a subsequence of the target
    list (its items unchanged and in their order), and with an empty source
    list every target item is not found. *)
Theorem compare_partitions_targets transformFound :
  let result := compareListsByKey NumberToString sourceList targetList
                  sourceKeySelector targetKeySelector transformFound in
  length result.1 + length result.2 = length targetList ∧
  result.2 `sublist_of` targetList ∧
  (sourceList = [] → result = ([], targetList)).
Proof.
  intros result. unfold result. rewrite compare_closed_form. cbn [fst snd].
  split_and!.
  - apply (omap_filter_length
             (λ t, ToBoolean (mapGet (buildSourceMap NumberToString sourceList
                                        sourceKeySelector)
                                (String NumberToString (targetKeySelector t))))
             (λ t, emitFound transformFound
                     (mapGet (buildSourceMap NumberToString sourceList
                                sourceKeySelector)
                        (String NumberToString (targetKeySelector t))) t)).
  - apply sublist_filter.
  - intros ->. unfold buildSourceMap, mapGet. simpl.
    f_equal.
    + induction targetList as [|t l IH]; [done|].
      cbn [omap list_omap]. by rewrite lookup_empty.
    + induction targetList as [|t l IH]; [done|].
      rewrite filter_cons_True by (by rewrite lookup_empty). by rewrite IH.
Qed.

(** X14.  [transformFound] has no part in the classification: with and
    without it [notFound] is the same, and [found] with it is the transform
    applied, pair by pair, to the source items found without it and the
    target items that matched them, which together with [notFound] make up
    the target list. *)
Theorem transform_keeps_classification (transform : JsValue → JsValue → JsValue) :
  let plain := compareListsByKey NumberToString sourceList targetList
                 sourceKeySelector targetKeySelector None in
  let mapped := compareListsByKey NumberToString sourceList targetList
                  sourceKeySelector targetKeySelector (Some transform) in
  mapped.2 = plain.2 ∧
  ∃ matched, length matched = length plain.1 ∧
    matched `sublist_of` targetList ∧
    matched ++ plain.2 ≡ₚ targetList ∧
    mapped.1 = zip_with transform plain.1 matched.
Proof.
  intros plain mapped. unfold plain, mapped. rewrite !compare_closed_form.
  cbn [fst snd emitFound]. split; [done|].
  set (test := λ t, ToBoolean (mapGet (buildSourceMap NumberToString sourceList
                                         sourceKeySelector)
                                 (String NumberToString (targetKeySelector t)))).
  set (value := λ t, mapGet (buildSourceMap NumberToString sourceList
                               sourceKeySelector)
                       (String NumberToString (targetKeySelector t))).
  exists (filter (λ t, test t = true) targetList). split_and!.
  - apply (filter_true_length test value).
  - apply sublist_filter.
  - apply filter_true_false_perm.
  - apply (omap_zip_filter test value transform).
Qed.

(** X15.  Without [transformFound], every item of [found] comes from the
    source list: it is a truthy source item whose string-coerced key is
    that of some target item, and it is the last source item with that key
    (an earlier source item with the same key is shadowed). *)
Theorem found_is_last_source_with_key (item : JsValue) :
  let result := compareListsByKey NumberToString sourceList targetList
                  sourceKeySelector targetKeySelector None in
  item ∈ result.1 →
  ∃ targetItem i,
    targetItem ∈ targetList ∧ sourceList !! i = Some item ∧
    String NumberToString (sourceKeySelector item) =
      String NumberToString (targetKeySelector targetItem) ∧
    ToBoolean item = true ∧
    ∀ j later, i < j → sourceList !! j = Some later →
      String NumberToString (sourceKeySelector later) ≠
        String NumberToString (sourceKeySelector item).
Proof.
  intros result. unfold result. rewrite compare_closed_form. cbn [fst emitFound].
  intros Hin. apply list_elem_of_omap in Hin as (targetItem & Htarget & Hitem).
  unfold mapGet in Hitem. rewrite buildSourceMap_lookup in Hitem.
  destruct (lastWithKey _ _ _ _) as [sourceItem|] eqn:Hlast; simpl in Hitem; [|done].
  destruct (ToBoolean sourceItem) eqn:Htruthy; [|done].
  injection Hitem as [= ->].
  unfold lastWithKey in Hlast.
  pose proof (last_Some_elem_of _ _ Hlast) as Hkey.
  apply list_elem_of_filter in Hkey as [Hkey _].
  apply last_filter_Some in Hlast as (l1 & l2 & Hsplit & Hlater).
  exists targetItem, (length l1). split_and!; [done| |done|done|].
  - rewrite Hsplit. by apply list_lookup_middle.
  - intros j later Hj Hlookup. rewrite Hsplit in Hlookup.
    rewrite lookup_app_r in Hlookup by lia.
    destruct (j - length l1) as [|k] eqn:Hk; [lia|]. simpl in Hlookup.
    apply list_elem_of_lookup_2 in Hlookup.
    rewrite Hkey. by apply (proj1 (Forall_forall _ _) Hlater).
Qed.

(** X16.  The keys matter only through their string forms: selectors whose
    keys have the same string forms give the same result, so that a numeric
    key matches the string key that renders it. *)
Theorem keys_compared_as_strings (sourceKeySelector' targetKeySelector' : JsValue → Key)
    transformFound :
  (∀ item, String NumberToString (sourceKeySelector' item) =
           String NumberToString (sourceKeySelector item)) →
  (∀ item, String NumberToString (targetKeySelector' item) =
           String NumberToString (targetKeySelector item)) →
  compareListsByKey NumberToString sourceList targetList sourceKeySelector'
    targetKeySelector' transformFound =
  compareListsByKey NumberToString sourceList targetList sourceKeySelector
    targetKeySelector transformFound.
Proof.
  intros Hsource Htarget. unfold compareListsByKey.
  assert (buildSourceMap NumberToString sourceList sourceKeySelector' =
          buildSourceMap NumberToString sourceList sourceKeySelector) as ->.
  { unfold buildSourceMap. generalize (∅ : gmap string JsValue).
    induction sourceList as [|item l IH]; intros m; [done|].
    cbn [foldl]. by rewrite Hsource, IH. }
  generalize (@nil JsValue, @nil JsValue).
  induction targetList as [|t l IH]; intros acc; [done|].
  cbn [foldl]. rewrite <- IH. f_equal.
  unfold compareStep. by rewrite Htarget.
Qed.

End ComparatorShape.


Lemma found_is_last_source_with_key_witness :
  let older := JsObject [("id", JsStr "a"); ("rev", JsNum (Finite 1))] in
  let newer := JsObject [("id", JsStr "a"); ("rev", JsNum (Finite 2))] in
  ∃ i, [older; newer] !! i = Some newer ∧
       ∀ j later, i < j → [older; newer] !! j = Some later →
                  String renderOneTwo (idOf later) ≠ String renderOneTwo (idOf newer).
Proof.
  intros older newer.
  destruct (found_is_last_source_with_key renderOneTwo [older; newer]
              [JsObject [("id", JsStr "a")]] idOf idOf newer)
    as (targetItem & i & _ & Hi & _ & _ & Hlast).
  - vm_compute. left.
  - by exists i.
Defined.

Lemma keys_compared_as_strings_witness :
  compareListsByKey renderOneTwo [JsObject [("id", JsNum (Finite 1))]]
    [JsObject [("id", JsStr "1")]]
    (λ item, KeyString (String renderOneTwo (idOf item))) idOf None =
  compareListsByKey renderOneTwo [JsObject [("id", JsNum (Finite 1))]]
    [JsObject [("id", JsStr "1")]] idOf idOf None.
Proof.
  by apply (keys_compared_as_strings renderOneTwo).
Defined.

(** ** Where presence and truthiness agree *)

Section PresenceWhenTruthy.
Variable NumberToString : JsNumber → string.
Context (sourceList targetList : list JsValue).
Context (sourceKeySelector targetKeySelector : JsValue → Key).

Lemma lastWithKey_elem key sourceItem :
  lastWithKey NumberToString sourceList sourceKeySelector key = Some sourceItem →
  sourceItem ∈ sourceList.
Proof.
  unfold lastWithKey. intros Hlast%last_Some_elem_of.
  by apply list_elem_of_filter in Hlast as [_ ?].
Qed.

(** X22.  When every source item is truthy, [compareListsByKey] is the
    comparison by presence of the key: a target item is found exactly when
    its string-coerced key is that of a source item, and it then contributes
    the last source item with that key, or its transform. *)
Theorem compare_by_presence_when_truthy transformFound :
  (∀ sourceItem, sourceItem ∈ sourceList → ToBoolean sourceItem = true) →
  compareListsByKey NumberToString sourceList targetList sourceKeySelector
    targetKeySelector transformFound =
  compareByKey_specified NumberToString sourceList targetList sourceKeySelector
    targetKeySelector transformFound.
Proof.
  intros Htruthy. rewrite compare_closed_form. unfold compareByKey_specified.
  assert (∀ t,
            match lastWithKey NumberToString sourceList sourceKeySelector
                    (String NumberToString (targetKeySelector t)) with
            | Some sourceItem =>
                mapGet (buildSourceMap NumberToString sourceList sourceKeySelector)
                  (String NumberToString (targetKeySelector t)) = sourceItem ∧
                ToBoolean sourceItem = true
            | None =>
                ToBoolean
                  (mapGet (buildSourceMap NumberToString sourceList sourceKeySelector)
                     (String NumberToString (targetKeySelector t))) = false
            end) as Hlookup.
  { intros t. unfold mapGet. rewrite buildSourceMap_lookup.
    destruct (lastWithKey _ _ _ _) as [sourceItem|] eqn:Hlast; [|done].
    split; [done|]. by eapply Htruthy, lastWithKey_elem. }
  f_equal.
  - apply list_omap_ext, Forall2_same_length_lookup. split; [done|].
    intros i t t' Ht Ht'. rewrite Ht in Ht'. injection Ht' as [= <-].
    specialize (Hlookup t).
    destruct (lastWithKey _ _ _ _) as [sourceItem|]; simpl.
    + destruct Hlookup as [-> ->]. done.
    + by rewrite Hlookup.
  - apply list_filter_iff. intros t. specialize (Hlookup t).
    destruct (lastWithKey _ _ _ _) as [sourceItem|].
    + destruct Hlookup as [-> ->]. done.
    + by rewrite Hlookup.
Qed.

End PresenceWhenTruthy.

Lemma compare_by_presence_when_truthy_witness :
  compareListsByKey noNumberKeys [JsStr "a"; JsStr "b"] [JsStr "b"; JsStr "c"]
    stringKey stringKey None =
  compareByKey_specified noNumberKeys [JsStr "a"; JsStr "b"] [JsStr "b"; JsStr "c"]
    stringKey stringKey None.
Proof.
  apply (compare_by_presence_when_truthy noNumberKeys).
  intros sourceItem [->|[->|Hnone%elem_of_nil]%elem_of_cons]%elem_of_cons;
    done.
Defined.

(** ** The request schema: outputs and issue lists *)

Section SchemaMore.

Lemma parse_page_accepts (value : JsValue) (page : JsNumber) :
  z.parseNumber (z.default 0 (z.min 0 z.number)) ["page"] value = inl page →
  ∃ q, page = Finite q ∧ (0 <= q)%Q.
Proof.
  rewrite parse_page. destruct value as [| | |[q| | |]| | |]; try done.
  - intros [= <-]. by exists (inject_Z 0).
  - destruct (Qle_bool (inject_Z 0) q) eqn:Hle; [|done].
    intros [= <-]. exists q. split; [done|]. by apply Qle_bool_iff in Hle.
Qed.

Lemma parse_size_accepts (value : JsValue) (size : JsNumber) :
  z.parseNumber (z.default 10 (z.max 100 (z.min 1 z.number))) ["size"] value = inl size →
  ∃ q, size = Finite q ∧ (1 <= q)%Q ∧ (q <= 100)%Q.
Proof.
  rewrite parse_size. destruct value as [| | |[q| | |]| | |]; try done.
  - intros [= <-]. by exists (inject_Z 10).
  - destruct (Qle_bool (inject_Z 1) q) eqn:Hlo,
             (Qle_bool q (inject_Z 100)) eqn:Hhi; try done.
    intros [= <-]. exists q. split; [done|].
    apply Qle_bool_iff in Hlo, Hhi. done.
Qed.

Lemma parse_size_one_issue (value : JsValue) issues :
  z.parseNumber (z.default 10 (z.max 100 (z.min 1 z.number))) ["size"] value
    = inr issues →
  ∃ issue, issues = [issue] ∧ z.path issue = ["size"].
Proof.
  rewrite parse_size.
  destruct value as [| | |[q| | |]| | |]; try done;
    try (intros [= <-]; by eexists).
  destruct (Qle_bool (inject_Z 1) q) eqn:Hlo,
           (Qle_bool q (inject_Z 100)) eqn:Hhi; try done;
    try (intros [= <-]; by eexists).
  exfalso. apply Qle_bool_false in Hlo, Hhi.
  apply (Qlt_irrefl q). apply Qlt_trans with (inject_Z 1); [done|].
  by apply Qlt_trans with (inject_Z 100).
Qed.

Lemma parse_page_one_issue (value : JsValue) issues :
  z.parseNumber (z.default 0 (z.min 0 z.number)) ["page"] value = inr issues →
  ∃ issue, issues = [issue] ∧ z.path issue = ["page"].
Proof.
  rewrite parse_page.
  destruct value as [| | |[q| | |]| | |]; try done;
    try (intros [= <-]; by eexists).
  destruct (Qle_bool (inject_Z 0) q); [done|]. intros [= <-]. by eexists.
Qed.

(** X17.  What [PaginationRequestSchema] accepts is within its bounds and
    is stable: the output of a successful parse has a [page] that is at
    least 0 and a [size] between 1 and 100, and parsing this output again
    succeeds and returns it unchanged. *)
Theorem accepted_request_is_stable (input : JsValue) output :
  z.safeParse PaginationRequestSchema input = inl output →
  ∃ page size : Q,
    output = [("page", Finite page); ("size", Finite size)] ∧
    (0 <= page)%Q ∧ (1 <= size)%Q ∧ (size <= 100)%Q ∧
    z.safeParse PaginationRequestSchema
      (JsObject [("page", JsNum (Finite page)); ("size", JsNum (Finite size))])
      = inl output.
Proof.
  rewrite safeParse_request. destruct input as [| | | | | |properties]; try done.
  destruct (z.parseNumber _ ["page"] _) as [page|] eqn:Hpage;
    destruct (z.parseNumber _ ["size"] _) as [size|] eqn:Hsize; try done.
  intros [= <-].
  apply parse_page_accepts in Hpage as (p & -> & Hp).
  apply parse_size_accepts in Hsize as (s & -> & Hs1 & Hs2).
  exists p, s. split_and!; try done.
  rewrite safeParse_request.
  change (getProperty [("page", JsNum (Finite p)); ("size", JsNum (Finite s))] "page")
    with (JsNum (Finite p)).
  change (getProperty [("page", JsNum (Finite p)); ("size", JsNum (Finite s))] "size")
    with (JsNum (Finite s)).
  rewrite parse_page, parse_size.
  assert (Qle_bool (inject_Z 0) p = true) as -> by (by apply Qle_bool_iff).
  assert (Qle_bool (inject_Z 1) s = true) as -> by (by apply Qle_bool_iff).
  assert (Qle_bool s (inject_Z 100) = true) as -> by (by apply Qle_bool_iff).
  done.
Qed.

(** X18.  A request that [PaginationRequestSchema] rejects gets a short
    list of issues: a single one, with an empty path, when the request is
    no object; otherwise at most one issue for [page] followed by at most
    one for [size]. *)
Theorem rejected_request_issues (input : JsValue) issues :
  z.safeParse PaginationRequestSchema input = inr issues →
  (¬ isObject input →
     issues = [{| z.code := z.invalid_type "object"; z.path := [] |}]) ∧
  (isObject input →
     ∃ pageIssues sizeIssues,
       issues = pageIssues ++ sizeIssues ∧
       length pageIssues ≤ 1 ∧ length sizeIssues ≤ 1 ∧
       (∀ issue, issue ∈ pageIssues → z.path issue = ["page"]) ∧
       (∀ issue, issue ∈ sizeIssues → z.path issue = ["size"])).
Proof.
  rewrite safeParse_request. intros Hparse. split.
  - intros Hno. destruct input; try (by injection Hparse as [= <-]).
    exfalso. apply Hno. by eexists.
  - intros [properties ->].
    destruct (z.parseNumber _ ["page"] _) as [page|pageIssues] eqn:Hpage;
      destruct (z.parseNumber _ ["size"] _) as [size|sizeIssues] eqn:Hsize;
      try done; injection Hparse as [= <-].
    + apply parse_size_one_issue in Hsize as (issue & -> & Hpath).
      exists [], [issue]. split_and!; [done|simpl; lia|simpl; lia|by intros ? ?%elem_of_nil|].
      by intros ? ->%list_elem_of_singleton.
    + apply parse_page_one_issue in Hpage as (issue & -> & Hpath).
      exists [issue], []. split_and!;
        [by rewrite app_nil_r|simpl; lia|simpl; lia| |by intros ? ?%elem_of_nil].
      by intros ? ->%list_elem_of_singleton.
    + apply parse_page_one_issue in Hpage as (issue & -> & Hpath).
      apply parse_size_one_issue in Hsize as (issue' & -> & Hpath').
      exists [issue], [issue']. split_and!; [done|simpl; lia|simpl; lia| |];
        by intros ? ->%list_elem_of_singleton.
Qed.

End SchemaMore.

Lemma accepted_request_is_stable_witness :
  z.safeParse PaginationRequestSchema
    (JsObject [("page", JsNum (Finite (inject_Z 0))); ("size", JsNum (Finite (inject_Z 10)))])
    = inl [("page", Finite (inject_Z 0)); ("size", Finite (inject_Z 10))].
Proof.
  destruct (accepted_request_is_stable (JsObject [])
              [("page", Finite (inject_Z 0)); ("size", Finite (inject_Z 10))])
    as (page & size & [= <- <-] & _ & _ & _ & Hagain); [reflexivity|exact Hagain].
Defined.

Lemma rejected_request_issues_witness :
  ∃ pageIssues sizeIssues,
    [{| z.code := z.too_small 0; z.path := ["page"] |};
     {| z.code := z.too_big 100; z.path := ["size"] |}] = pageIssues ++ sizeIssues ∧
    length pageIssues ≤ 1 ∧ length sizeIssues ≤ 1.
Proof.
  destruct (rejected_request_issues
              (JsObject [("page", JsNum (Finite (-1 # 1))); ("size", JsNum (Finite (101 # 1)))])
              [{| z.code := z.too_small 0; z.path := ["page"] |};
               {| z.code := z.too_big 100; z.path := ["size"] |}])
    as [_ Hobject]; [reflexivity|].
  destruct Hobject as (pageIssues & sizeIssues & Hsplit & Hpage & Hsize & _);
    [by eexists|].
  by exists pageIssues, sizeIssues.
Defined.

(** ** A call that throws instead of returning a promise *)

Section SyncThrow.
Context {E Arg A B : Type}.
Context (flat : list A → list B).
Context (fn : AsyncFn (E:=E) Arg A) (args : list Arg) (c : nat).
Hypothesis Hc : 1 ≤ c.

Lemma waveLoop_sync_throw fuel (I : nat) acc (k : nat) arg e :
  let run := waveLoop flat fuel args (observe id appendCall fn) c I acc (take I args) in
  I ≤ k → run.1 !! k = Some arg → fn k arg = ThrowsSync e →
  length run.1 = S k ∧ run.2 = Some (Rejects e).
Proof.
  cbv zeta. revert I acc. induction fuel as [|fuel IH]; intros I acc Hk Hlook Hthrow.
  { simpl in Hlook. apply lookup_lt_Some in Hlook. rewrite length_take in Hlook. lia. }
  cbn [waveLoop] in Hlook |- *.
  destruct (Nat.ltb_spec I (length args)) as [Hlt|Hge].
  2:{ simpl in Hlook. apply lookup_lt_Some in Hlook.
      rewrite length_take in Hlook. lia. }
  set (wave := take c (drop I args)) in *.
  set (w := take I args) in *.
  assert (length w = I) as Hlen.
  { unfold w. rewrite length_take. lia. }
  assert (length wave = c `min` (length args - I)) as Hwave.
  { unfold wave. by rewrite length_take, length_drop. }
  assert (∀ m, m ≤ length wave → w ++ take m wave = take (I + m) args) as Hlog.
  { intros m Hm. unfold w, wave. rewrite take_take.
    replace (m `min` c) with m by lia. apply take_take_drop. }
  assert (∀ j a, I ≤ j < I + length wave → args !! j = Some a →
                 repliesFrom fn I wave !! (j - I) = Some (fn j a)) as Hreply.
  { intros j a Hj Ha. rewrite repliesFrom_lookup. unfold wave.
    rewrite lookup_take_lt, lookup_drop by lia.
    replace (I + (j - I)) with j by lia. by rewrite Ha. }
  assert (take (I + length wave) args = take (I + c) args) as Hnext.
  { rewrite Hwave. destruct (decide (c ≤ length args - I)).
    - f_equal. lia.
    - rewrite !take_ge; [done|lia..]. }
  unfold awaitAll in Hlook |- *.
  pose proof (startAll_observe id appendCall fn (λ _ _, eq_refl) wave w) as Hstart.
  cbv zeta in Hstart. cbn [id] in Hstart. rewrite Hlen in Hstart.
  destruct (startAll _ wave w) as [w1 [ps|e']].
  - destruct Hstart as (-> & -> & Hno).
    assert (w ++ wave = take (I + length wave) args) as Hfull.
    { rewrite <- Hlog by done. by rewrite firstn_all. }
    rewrite recordAll_appendCall, Hfull in Hlook |- *.
    assert (args !! k = Some arg → k < I + length wave → False) as Hinwave.
    { intros Harg Hin. apply (Hno (k - I) e).
      rewrite (Hreply k arg) by (done || lia). by rewrite Hthrow. }
    assert (args !! k = Some arg → I + c ≤ k) as Hlater.
    { intros Harg. destruct (decide (I + c ≤ k)) as [|Hin]; [done|exfalso].
      apply Hinwave; [done|]. apply lookup_lt_Some in Harg. lia. }
    pose proof (PromiseAll_pure_state (E:=E) (repliesFrom fn I wave)
                  (take (I + length wave) args)) as Hstate.
    destruct (PromiseAll _ _) as [w2 [vs|e'|]]; simpl in Hstate; subst w2.
    + rewrite Hnext in Hlook |- *.
      destruct (waveLoop_barrier flat fn args c Hc fuel (I + c) (acc ++ flat vs))
        as (m & _ & Hprefix & _).
      cbv zeta in Hprefix.
      assert (args !! k = Some arg) as Harg.
      { rewrite Hprefix in Hlook. by apply lookup_take_Some in Hlook as [? _]. }
      apply IH; [by apply Hlater|done|done].
    + exfalso. simpl in Hlook. apply lookup_take_Some in Hlook as [Harg Hin].
      by apply Hinwave.
    + exfalso. simpl in Hlook. apply lookup_take_Some in Hlook as [Harg Hin].
      by apply Hinwave.
  - destruct Hstart as (k0 & Hk0 & Hmin & ->).
    assert (k0 < length wave) as Hk0len.
    { apply lookup_lt_Some in Hk0. by rewrite repliesFrom_length in Hk0. }
    rewrite recordAll_appendCall in Hlook |- *.
    rewrite Hlog in Hlook |- * by lia. simpl in Hlook |- *.
    apply lookup_take_Some in Hlook as [Harg Hin].
    rewrite length_take.
    pose proof (Hreply k arg ltac:(lia) Harg) as Hkreply. rewrite Hthrow in Hkreply.
    destruct (decide (k - I < k0)) as [Hbefore|Hnot].
    { exfalso. by apply (Hmin (k - I) e). }
    assert (k - I = k0) as Heq by lia.
    rewrite Heq, Hk0 in Hkreply. injection Hkreply as [= ->].
    split; [lia|done].
Qed.

End SyncThrow.

Section SyncThrowTheorem.
Context {E : Type}.

(** X19.  A call of [processChunk] or of [readPage] that throws instead of
    returning a promise is the last call made: the remaining chunks or
    pages of its wave are not started, and the call of
    [processChunksInParallel] or [processPaginatedInParallel] rejects with
    the thrown value, whatever the calls started before it do. *)
Theorem sync_throw_is_last_call {T R} (items : list T) (chunkSize : Z)
    (processChunk : AsyncFn (E:=E) (list T) R)
    (totalCount pageSize : Z) (readPage : AsyncFn (E:=E) (Z * Z) (list T))
    (maxConcurrency : Z) (fuel : nat) :
  (1 ≤ chunkSize)%Z → (0 ≤ totalCount)%Z → (1 ≤ pageSize)%Z →
  (1 ≤ maxConcurrency)%Z →
  length items < fuel → Z.to_nat (pageCount totalCount pageSize) < fuel →
  let chunkRun := Client.processChunksInParallel fuel items chunkSize processChunk
                    maxConcurrency in
  let pageRun := Client.processPaginatedInParallel fuel totalCount pageSize readPage
                   maxConcurrency in
  (∀ k chunk e, chunkRun.1 !! k = Some chunk → processChunk k chunk = ThrowsSync e →
     length chunkRun.1 = S k ∧ chunkRun.2 = Some (Rejects e)) ∧
  (∀ k page e, pageRun.1 !! k = Some page → readPage k page = ThrowsSync e →
     length pageRun.1 = S k ∧ pageRun.2 = Some (Rejects e)).
Proof.
  intros Hcs Htc Hps Hmc Hfuel Hfuel' chunkRun pageRun. split.
  - intros k chunk e. unfold chunkRun. rewrite client_chunks_run by done.
    apply (waveLoop_sync_throw id processChunk (chunksOf items chunkSize)
             (Z.to_nat maxConcurrency) ltac:(lia) fuel 0 [] k chunk e). lia.
  - intros k page e. unfold pageRun. rewrite client_pages_run by done.
    apply (waveLoop_sync_throw (@concat T) readPage
             (pageArgs totalCount pageSize 0 (pageCount totalCount pageSize))
             (Z.to_nat maxConcurrency) ltac:(lia) fuel 0 [] k page e). lia.
Qed.

End SyncThrowTheorem.

Lemma sync_throw_is_last_call_witness :
  let run := Client.processPaginatedInParallel 10 10 3 secondReadThrows 3 in
  length run.1 = 2 ∧ run.2 = Some (Rejects "offline"%string).
Proof.
  destruct (sync_throw_is_last_call (R:=Z) [] 1 neverCalled 10 3 secondReadThrows 3 10)
    as [_ Hpages]; [lia|lia|lia|lia|simpl; lia|vm_compute; lia|].
  by apply (Hpages 1 (3, 3)%Z "offline"%string).
Defined.

(** ** The progress wrapper never stops a wave *)


Section ProgressReads.
Context {E T : Type}.
Context (totalCount pageSize : Z) (readPage : AsyncFn (E:=E) (Z * Z) (list T)).
Context (onProgress : option (SyncFn (E:=E) ProgressArgs)) (c : nat).

Let n := pageCount totalCount pageSize.
Let pages := pageArgs totalCount pageSize 0 n.
Let cb := readPageWithProgress pageSize (Js.Fin n)
            (observe Client.reads Client.recordRead readPage)
            (observeSync Client.reports Client.recordReport <$> onProgress).
Let start (p : nat) (s : Client.PagerLog * Z) : Client.PagerLog * Z :=
  (Client.recordRead (default (0, 0)%Z (pages !! p)) s.1, s.2).

Hypothesis Hc : 1 ≤ c.

Lemma wrapper_never_throws arg log rp :
  ∃ p, cb arg (log, rp) = ((Client.recordRead arg log, rp), Normal p) ∧ keepsReads p.
Proof.
  destruct arg as [offset limit].
  unfold cb, readPageWithProgress, observe. simpl.
  destruct (readPage _ _) as [e|t [result|e]|]; eexists; (split; [reflexivity|]);
    simpl; try done.
  - intros [w count]. destruct onProgress as [f|]; simpl; [|done].
    unfold observeSync. by destruct (f _ _).
  - by intros [w count].
Qed.

Lemma settleAll_keeps_reads (order : list (Entry (W:=Client.PagerLog * Z) (E:=E) (list T)))
    values s :
  Forall (λ x, ∀ s', Client.reads (x.2 s').1.1 = Client.reads s'.1) order →
  Client.reads (settleAll order values s).1.1 = Client.reads s.1.
Proof.
  intros Hall. revert values s.
  induction Hall as [|[[t i] react] order Hreact _ IH]; intros values s; [done|].
  cbn [settleAll]. simpl in Hreact. specialize (Hreact s).
  destruct (react s) as [s' [a|e]]; simpl in Hreact.
  - by rewrite IH.
  - done.
Qed.

Lemma PromiseAll_keeps_reads
    (ps : list (Promise (W:=Client.PagerLog * Z) (E:=E) (list T))) s :
  Forall keepsReads ps →
  Client.reads (PromiseAll ps s).1.1 = Client.reads s.1.
Proof.
  intros Hps. unfold PromiseAll, settleOrder.
  pose proof (settleAll_keeps_reads (foldr insertByTime [] (timed 0 ps))
                (replicate (length ps) None) s) as Hkeep.
  destruct (settleAll _ _ s) as [s' [e|values]]; simpl in Hkeep.
  - apply Hkeep. apply Forall_forall. intros [[t i] react] Hin.
    rewrite sort_perm in Hin. apply timed_elem in Hin as [_ Hin].
    apply list_elem_of_lookup_2 in Hin.
    by apply (proj1 (Forall_forall _ _) Hps) in Hin.
  - destruct (mapM id values); simpl; apply Hkeep; apply Forall_forall;
      intros [[t i] react] Hin; rewrite sort_perm in Hin;
      apply timed_elem in Hin as [_ Hin]; apply list_elem_of_lookup_2 in Hin;
      by apply (proj1 (Forall_forall _ _) Hps) in Hin.
Qed.

Lemma wave_reads (I : nat) log rp :
  I < length pages → Client.reads log = take I pages →
  Client.reads (awaitAll cb (take c (drop I pages)) (log, rp)).1.1 =
    take (I + c) pages.
Proof.
  intros HI Hlog. set (wave := take c (drop I pages)).
  assert (I + length wave ≤ length pages) as Hbound.
  { unfold wave. rewrite length_take, length_drop. lia. }
  destruct (startAll_spec cb start (λ _ p, keepsReads p) (λ _ _, True) I wave (log, rp))
    as (ps & Hstart & _ & Hps & _); [|done|].
  { intros j arg [log' rp'] Hj _.
    assert (pages !! (I + j) = Some arg) as Hpage.
    { unfold wave in Hj. apply lookup_take_Some in Hj as [Hj _].
      by rewrite lookup_drop in Hj. }
    destruct (wrapper_never_throws arg log' rp') as (p & Hcall & Hkeeps).
    exists p. split_and!; [|done|done].
    unfold start. simpl. by rewrite Hpage. }
  unfold awaitAll. rewrite Hstart.
  rewrite PromiseAll_keeps_reads.
  2:{ apply Forall_forall. intros p Hin.
      apply list_elem_of_lookup_1 in Hin as [j Hj]. by apply (Hps j). }
  rewrite (foldl_start totalCount pageSize c Hc I (length wave)) by (fold n pages; lia).
  fold n pages. simpl. rewrite Hlog.
  assert (take (length wave) (drop I pages) = wave) as ->.
  { unfold wave. rewrite length_take.
    destruct (decide (c ≤ length (drop I pages))).
    - by rewrite Nat.min_l.
    - rewrite Nat.min_r by lia. by rewrite !take_ge by lia. }
  apply take_take_drop.
Qed.

Lemma loop_reads_whole_waves fuel (I : nat) acc log rp :
  Client.reads log = take I pages →
  ∃ waves,
    Client.reads (waveLoop (@concat T) fuel pages cb c I acc (log, rp)).1.1 =
      take (I + waves * c) pages ∧
    (I < length pages → 0 < fuel → 1 ≤ waves).
Proof.
  revert I acc log rp. induction fuel as [|fuel IH]; intros I acc log rp Hlog.
  { exists 0. simpl. rewrite Nat.add_0_r. split; [done|lia]. }
  cbn [waveLoop]. destruct (Nat.ltb_spec I (length pages)) as [Hlt|Hge].
  2:{ exists 0. simpl. rewrite Nat.add_0_r. split; [done|lia]. }
  pose proof (wave_reads I log rp Hlt Hlog) as Hwave.
  destruct (awaitAll cb _ (log, rp)) as [[log2 rp2] [vs|e|]]; simpl in Hwave.
  - destruct (IH (I + c) (acc ++ concat vs) log2 rp2 Hwave) as (waves & Hreads & _).
    exists (S waves). split; [|lia].
    rewrite Hreads. f_equal. lia.
  - exists 1. simpl. rewrite Nat.add_0_r. split; [done|lia].
  - exists 1. simpl. rewrite Nat.add_0_r. split; [done|lia].
Qed.

End ProgressReads.

Section ProgressReadsTheorem.
Context {E T : Type}.

(** X20.  Whatever [readPage] and [onProgress] do,
    [processPaginatedWithProgress] reads whole waves of pages: the pages
    read are those of the first waves, in page order, and when there is a
    page the first wave is read in full.  So a [readPage] that throws does
    not keep the rest of its wave from being read, unlike with
    [processPaginatedInParallel]: the wrapper turns the throw into a
    rejected promise. *)
Theorem progress_reads_whole_waves (totalCount pageSize : Z)
    (readPage : AsyncFn (E:=E) (Z * Z) (list T)) (maxConcurrency : Z)
    (onProgress : option (SyncFn (E:=E) ProgressArgs)) (fuel : nat) :
  (0 ≤ totalCount)%Z → (1 ≤ pageSize)%Z → (1 ≤ maxConcurrency)%Z →
  Z.to_nat (pageCount totalCount pageSize) < fuel →
  let pages := pageArgs totalCount pageSize 0 (pageCount totalCount pageSize) in
  let run := Client.processPaginatedWithProgress fuel totalCount pageSize
               readPage maxConcurrency onProgress in
  ∃ waves,
    Client.reads run.1.1 = take (waves * Z.to_nat maxConcurrency) pages ∧
    ((0 < totalCount)%Z → 1 ≤ waves).
Proof.
  intros Htc Hps Hmc Hfuel pages run.
  pose proof (pageCount_nonneg totalCount pageSize Htc Hps) as Hn.
  assert (length pages = Z.to_nat (pageCount totalCount pageSize)) as Hlen.
  { by apply pageArgs_length. }
  destruct (loop_reads_whole_waves totalCount pageSize readPage onProgress
              (Z.to_nat maxConcurrency) ltac:(lia) fuel 0 []
              {| Client.reads := []; Client.reports := [] |} 0%Z eq_refl)
    as (waves & Hreads & Hfirst).
  exists waves. split.
  - unfold run, Client.processPaginatedWithProgress, processPaginatedWithProgress,
      processPaginatedInParallel.
    rewrite ceil_div_pos by done.
    rewrite processPaginated_loop_waveLoop by (simpl; lia).
    exact Hreads.
  - intros Hpos. apply Hfirst; [|lia]. fold pages. rewrite Hlen.
    assert (0 < pageCount totalCount pageSize)%Z; [|lia].
    by apply pageCount_spec.
Qed.

End ProgressReadsTheorem.

Lemma progress_reads_whole_waves_witness :
  ∃ waves,
    Client.reads (Client.processPaginatedWithProgress 10 10 3 secondReadThrows 2
                    None).1.1 =
      take (waves * 2) (pageArgs 10 3 0 (pageCount 10 3)) ∧
    1 ≤ waves.
Proof.
  destruct (progress_reads_whole_waves 10 3 secondReadThrows 2 None 10)
    as (waves & Hreads & Hfirst); [lia|lia|lia|vm_compute; lia|].
  exists waves. split; [exact Hreads|]. apply Hfirst. lia.
Defined.

(** ** Progress tracking and the plain reader *)


Section SettlesLike.
Context {W E A : Type}.
Implicit Types (ps : list (Promise (W:=W) (E:=E) A)) (replies : list (Reply (E:=E) A)).






End SettlesLike.

Section TrackedVsPlain.
Context {E T : Type}.
Context (totalCount pageSize : Z) (readPage : AsyncFn (E:=E) (Z * Z) (list T)).
Context (onProgress : option (SyncFn (E:=E) ProgressArgs)) (c : nat).

Let n := pageCount totalCount pageSize.
Let pages := pageArgs totalCount pageSize 0 n.
Let cb := readPageWithProgress pageSize (Js.Fin n)
            (observe Client.reads Client.recordRead readPage)
            (observeSync Client.reports Client.recordReport <$> onProgress).
Let plain := observe (W:=list (Z * Z)) id appendCall readPage.
Let start (p : nat) (s : Client.PagerLog * Z) : Client.PagerLog * Z :=
  (Client.recordRead (default (0, 0)%Z (pages !! p)) s.1, s.2).

Hypothesis Hc : 1 ≤ c.
Hypothesis Hreturns : ∀ i page e, readPage i page ≠ ThrowsSync e.
Hypothesis Hquiet : ∀ f, onProgress = Some f → ∀ i args, f i args = None.




End TrackedVsPlain.

Section TrackedTheorem.
Context {E T : Type}.


End TrackedTheorem.



(** ** A read that throws under progress tracking *)


Section TrackedThrow.
Context {E T : Type}.
Context (totalCount pageSize : Z) (readPage : AsyncFn (E:=E) (Z * Z) (list T)).
Context (onProgress : option (SyncFn (E:=E) ProgressArgs)) (c : nat).

Let n := pageCount totalCount pageSize.
Let pages := pageArgs totalCount pageSize 0 n.
Let cb := readPageWithProgress pageSize (Js.Fin n)
            (observe Client.reads Client.recordRead readPage)
            (observeSync Client.reports Client.recordReport <$> onProgress).
Let start (p : nat) (s : Client.PagerLog * Z) : Client.PagerLog * Z :=
  (Client.recordRead (default (0, 0)%Z (pages !! p)) s.1, s.2).
Let shaped (reply : Reply (E:=E) (list T))
    (p : Promise (W:=Client.PagerLog * Z) (E:=E) (list T)) : Prop :=
  match reply with
  | ThrowsSync e => p = SettlesAt 0 (λ s, (s, Rejected e))
  | Settles t _ => ∃ react, p = SettlesAt (S t) react
  | Hangs => p = Forever
  end.

Hypothesis Hc : 1 ≤ c.

Lemma wrapper_call_shape arg log rp :
  ∃ p, cb arg (log, rp) = ((Client.recordRead arg log, rp), Normal p) ∧
       shaped (readPage (length (Client.reads log)) arg) p.
Proof.
  destruct arg as [offset limit].
  unfold cb, readPageWithProgress, observe, shaped. simpl.
  destruct (readPage _ _) as [e|t r|]; eexists; (split; [reflexivity|]);
    simpl; [done|by eexists|done].
Qed.

Lemma timed_increasing {W A} i (ps : list (Promise (W:=W) (E:=E) A)) :
  StronglySorted (λ x y, entryIndex x < entryIndex y) (timed i ps).
Proof.
  revert i. induction ps as [|p ps IH]; intros i; simpl; [constructor|].
  destruct p as [t react|]; [|apply IH].
  constructor; [apply IH|]. apply Forall_forall. intros [[t' j] react'] Hin.
  apply timed_elem in Hin as [Hle _]. unfold entryIndex. simpl. lia.
Qed.

(** In the first wave the first read that throws decides the outcome. *)
Lemma first_wave_thrown (k : nat) page e :
  pages !! k = Some page → k < c → readPage k page = ThrowsSync e →
  (∀ j page' e', j < k → pages !! j = Some page' → readPage j page' ≠ ThrowsSync e') →
  awaitAll cb (take c pages) ({| Client.reads := []; Client.reports := [] |}, 0%Z) =
    (({| Client.reads := take c pages; Client.reports := [] |}, 0%Z), Rejects e).
Proof.
  intros Hk Hkc Hthrow Hmin. set (wave := take c pages).
  assert (k < length pages) as Hkn by (by eapply lookup_lt_Some).
  assert (k < length wave ≤ length pages) as Hwave.
  { unfold wave. rewrite length_take. lia. }
  destruct (startAll_spec cb start
              (λ j pr, ∃ arg, pages !! j = Some arg ∧ shaped (readPage j arg) pr)
              (λ j s, length (Client.reads s.1) = j) 0 wave
              ({| Client.reads := []; Client.reports := [] |}, 0%Z))
    as (ps & Hstart & Hpslen & Hps' & _); [|done|].
  { intros j arg [log' rp'] Hj Hinv. simpl in Hinv.
    assert (pages !! j = Some arg) as Hpage.
    { unfold wave in Hj. by apply lookup_take_Some in Hj as [Hj _]. }
    destruct (wrapper_call_shape arg log' rp') as (pr & Hcall & Hshape).
    rewrite Hinv in Hshape.
    exists pr. split_and!; [|by exists arg|].
    - rewrite Hcall. unfold start. simpl. by rewrite Hpage.
    - unfold start. simpl. rewrite Hpage. simpl. rewrite length_app, Hinv. simpl. lia. }
  unfold awaitAll. rewrite Hstart.
  rewrite (foldl_start totalCount pageSize c Hc 0 (length wave)) by (fold n pages; lia).
  fold n pages. rewrite drop_0. simpl.
  assert (take (length wave) pages = wave) as ->.
  { unfold wave. rewrite length_take.
    destruct (decide (c ≤ length pages)).
    - by rewrite Nat.min_l.
    - rewrite Nat.min_r by lia. by rewrite !take_ge by lia. }
  set (s1 := ({| Client.reads := wave; Client.reports := [] |}, 0%Z)).
  set (thrown := λ s : Client.PagerLog * Z, (s, Rejected (A:=list T) e)).
  assert ((0, k, thrown) ∈ timed 0 ps) as Hentry.
  { apply timed_elem. split; [lia|]. rewrite Nat.sub_0_r.
    destruct (lookup_lt_is_Some_2 ps k ltac:(lia)) as [pr Hpr].
    destruct (Hps' k pr Hpr) as (arg & Harg & Hshape). simpl in Harg.
    rewrite Hk in Harg. injection Harg as [= <-].
    simpl in Hshape. rewrite Hthrow in Hshape. by rewrite Hpr, Hshape. }
  unfold PromiseAll, settleOrder.
  pose proof (sort_sorted _ (timed_increasing 0 ps)) as Hsorted.
  rewrite <- (sort_perm (timed 0 ps)) in Hentry.
  destruct (foldr insertByTime [] (timed 0 ps)) as [|[[t i] react] rest] eqn:Horder.
  { by apply elem_of_nil in Hentry. }
  assert ((t, i, react) = (0, k, thrown)) as [= -> -> ->].
  { apply elem_of_cons in Hentry as [Heq|Hrest]; [done|exfalso].
    apply StronglySorted_inv in Hsorted as [_ Hfirst].
    rewrite Forall_forall in Hfirst. specialize (Hfirst _ Hrest).
    unfold lexBefore, entryTime, entryIndex in Hfirst. simpl in Hfirst.
    destruct Hfirst as [?|[-> Hik]]; [lia|].
    assert ((0, i, react) ∈ timed 0 ps) as Hin.
    { rewrite <- (sort_perm (timed 0 ps)), Horder. by left. }
    apply timed_elem in Hin as [_ Hin]. rewrite Nat.sub_0_r in Hin.
    destruct (Hps' i _ Hin) as (arg & Harg & Hshape). simpl in Harg, Hshape.
    destruct (readPage i arg) as [e'|t' r'|] eqn:Hreply.
    - by apply (Hmin i arg e' Hik Harg).
    - by destruct Hshape as [react' ?].
    - done. }
  done.
Qed.

End TrackedThrow.

Section TrackedThrowTheorem.
Context {E T : Type}.

(** X23.  Under progress tracking a read of the first wave that throws does
    not stop the wave, and its error is the one the call fails with: when
    read [k] of the first wave throws and no read before it throws,
    [processPaginatedWithProgress] rejects with the thrown value and
    returns no result, whatever the other reads do (also when a read before
    it returns a promise that is rejected already), and every page of the
    first wave has been read. *)
Theorem tracked_read_that_throws (totalCount pageSize : Z)
    (readPage : AsyncFn (E:=E) (Z * Z) (list T)) (maxConcurrency : Z)
    (onProgress : option (SyncFn (E:=E) ProgressArgs)) (fuel : nat)
    (k : nat) (page : Z * Z) (e : E) :
  (0 ≤ totalCount)%Z → (1 ≤ pageSize)%Z → (1 ≤ maxConcurrency)%Z →
  Z.to_nat (pageCount totalCount pageSize) < fuel →
  let pages := pageArgs totalCount pageSize 0 (pageCount totalCount pageSize) in
  pages !! k = Some page → k < Z.to_nat maxConcurrency →
  readPage k page = ThrowsSync e →
  (∀ j page' e', j < k → pages !! j = Some page' → readPage j page' ≠ ThrowsSync e') →
  let run := Client.processPaginatedWithProgress fuel totalCount pageSize
               readPage maxConcurrency onProgress in
  run.2 = Some (Rejects e) ∧
  Client.reads run.1.1 = take (Z.to_nat maxConcurrency) pages.
Proof.
  intros Htc Hps Hmc Hfuel pages Hk Hkc Hthrow Hmin run.
  pose proof (pageCount_nonneg totalCount pageSize Htc Hps) as Hn.
  assert (k < length pages) as Hkn by (by eapply lookup_lt_Some).
  pose proof (first_wave_thrown totalCount pageSize readPage onProgress
                (Z.to_nat maxConcurrency) ltac:(lia) k page e Hk Hkc Hthrow Hmin)
    as Hwave.
  fold pages in Hwave.
  assert (run = (({| Client.reads := take (Z.to_nat maxConcurrency) pages;
                     Client.reports := [] |}, 0%Z), Some (Rejects e))) as ->; [|done].
  unfold run, Client.processPaginatedWithProgress, processPaginatedWithProgress,
    processPaginatedInParallel.
  rewrite ceil_div_pos by done.
  rewrite processPaginated_loop_waveLoop by (simpl; lia).
  change (Z.to_nat 0) with 0. fold pages.
  destruct fuel as [|fuel']; [lia|]. cbn [waveLoop].
  destruct (Nat.ltb_spec 0 (length pages)); [|lia].
  rewrite drop_0. simpl. by rewrite Hwave.
Qed.

End TrackedThrowTheorem.

Lemma tracked_read_that_throws_witness :
  (Client.processPaginatedWithProgress 10 10 3 rejectedThenThrows 2
     (Some quietProgress)).2 = Some (Rejects "b"%string).
Proof.
  destruct (tracked_read_that_throws 10 3 rejectedThenThrows 2 (Some quietProgress)
              10 1 (3, 3)%Z "b"%string) as [Hrun _];
    [lia|lia|lia|vm_compute; lia|reflexivity|simpl; lia|reflexivity| |exact Hrun].
  intros [|j] [offset limit] e' Hj Hpage; [discriminate|lia].
Defined.
